(** * T_Lang front end: lexer and parser, and the properties of their
      specification.

    The development follows [Lexer.h], [AST.h] and [Parser.h]: first the
    lexer and the parser as functions, then the vocabulary of the
    statements, then the lemmas and the theorems.  [std::string] values
    are lists of characters, the process-wide [std::set< std::string >]
    is a [gset], [std::unordered_map] is a [gmap], and the index-driven
    loops of the C++ code keep their index.  An exception is a result of
    its own, and so is a read of [tokens[ k ]] past the end of the
    vector, which the parser does not guard. *)

From Stdlib Require Import Ascii String.
From stdpp Require Import base tactics option list gmap strings.

Abbreviation text := (list ascii).

(** A C++ string literal. *)
Definition str (s : string) : text := list_ascii_of_string s.

(** ** Lexer.h: token kinds *)

Module lexer.

(** [enum Type : uint8_t], in declaration order. *)
Inductive TokenType : Set :=
  | Equals | EqualsEquals | NotEquals | GreaterThan | LessThan
  | ShiftLeft | ShiftRight | Plus | Minus | Divide | Multiply | Exponent
  | Modulus | AND | ANDAND | OR | OROR | Dot | ColonColon
  | MinusMinus | Not | PlusPlus
  | Pointer | Reference | string_literal | char_literal | bool_literal
  | Semicolon | Colon | Comma
  | integer_literal | negative_integer_literal | float_literal
  | Identifier | KeyWord
  | for_ | while_ | public_ | private_ | protected_ | cast_ | return_
  | null_ | in_ | if_ | constexpr_ | namespace_
  | OParen | CParen | OCurlyBrace | CCurlyBrace
  | mutable_ | class_ | ClassType | PrimitiveType | EOF_.

(** The enumerator's value, [m_type]. *)
Definition ord (t : TokenType) : nat :=
  match t with
  | Equals => 0 | EqualsEquals => 1 | NotEquals => 2 | GreaterThan => 3
  | LessThan => 4 | ShiftLeft => 5 | ShiftRight => 6 | Plus => 7
  | Minus => 8 | Divide => 9 | Multiply => 10 | Exponent => 11
  | Modulus => 12 | AND => 13 | ANDAND => 14 | OR => 15 | OROR => 16
  | Dot => 17 | ColonColon => 18
  | MinusMinus => 19 | Not => 20 | PlusPlus => 21
  | Pointer => 22 | Reference => 23 | string_literal => 24
  | char_literal => 25 | bool_literal => 26 | Semicolon => 27
  | Colon => 28 | Comma => 29 | integer_literal => 30
  | negative_integer_literal => 31 | float_literal => 32
  | Identifier => 33 | KeyWord => 34
  | for_ => 35 | while_ => 36 | public_ => 37 | private_ => 38
  | protected_ => 39 | cast_ => 40 | return_ => 41 | null_ => 42
  | in_ => 43 | if_ => 44 | constexpr_ => 45 | namespace_ => 46
  | OParen => 47 | CParen => 48 | OCurlyBrace => 49 | CCurlyBrace => 50
  | mutable_ => 51 | class_ => 52 | ClassType => 53 | PrimitiveType => 54
  | EOF_ => 55
  end.

#[global] Instance TokenType_eq_dec : EqDecision TokenType.
Proof. solve_decision. Defined.

(** [bool isBinaryOperator() const { return m_type < MinusMinus; }] *)
Definition isBinaryOperator (t : TokenType) : bool :=
  bool_decide (ord t < ord MinusMinus).

Definition isUnaryOperator (t : TokenType) : bool :=
  bool_decide (ord t <= ord PlusPlus) && bool_decide (ord MinusMinus <= ord t).

Definition isAccessSpecifier (t : TokenType) : bool :=
  bool_decide (t = public_) || bool_decide (t = protected_)
  || bool_decide (t = private_).

(** [const std::unordered_map< std::string, TokenType > KEYWORDS] *)
Definition KEYWORDS : gmap text TokenType :=
  list_to_map
    [ (str "class", class_); (str "private", private_);
      (str "public", public_); (str "protected", protected_);
      (str "mutable", mutable_);
      (str "cast", cast_);
      (str "return", return_);
      (str "for", for_); (str "while", while_); (str "in", in_);
      (str "if", if_);
      (str "null", null_);
      (str "namespace", namespace_) ].

(** [const std::set< std::string > DEFAULT_TYPES] *)
Definition DEFAULT_TYPES : gset text :=
  list_to_set
    [ str "auto"; str "char";
      str "int8"; str "int16"; str "int32"; str "int64";
      str "uint8"; str "uint16"; str "uint32"; str "uint64";
      str "float"; str "double"; str "bool"; str "String";
      str "void" ].

Record Token : Type := mkToken { value : text; type : TokenType }.

Definition isMultParseLevel (t : Token) : bool :=
  bool_decide (type t = Multiply) || bool_decide (type t = Divide)
  || bool_decide (type t = Modulus).

Definition isRefOrPtr (t : Token) : bool :=
  bool_decide (type t = Reference) || bool_decide (type t = Pointer).

End lexer.

Export lexer.

Abbreviation TokenList := (list Token).

(** ** Lexer.h: the lexer *)

Module Lexer.

Definition NUL : ascii := "000"%char.
Definition TAB : ascii := "009"%char.
Definition LF : ascii := "010"%char.
Definition CR : ascii := "013"%char.
Definition DQUOTE : ascii := "034"%char.
Definition SQUOTE : ascii := "039"%char.

(** The members of [class Lexer], and the namespace-scope variable
    [user_defined_classnames], which is not a member: it outlives the
    [Lexer] object and is handed from one tokenization to the next.
    [LENGTH] is assigned [srctext.length()] on entry of [tokenize] and
    never again, so it is read off [srctext]. [lastType] starts as
    [TokenType()], which is [EOF_]. *)
Record State : Type := mkState {
  srctext : text;
  tokens : TokenList;
  i : nat;
  lastType : TokenType;
  user_defined_classnames : gset text
}.

Definition LENGTH (st : State) : nat := length (srctext st).

(** [srctext[ k ]]. [std::string::operator[]] yields the terminating
    NUL at [k = size()]; the lexer never reads beyond that: every read
    is either guarded by [k < LENGTH] or at one past an index that was. *)
Definition at_ (st : State) (k : nat) : ascii := default NUL (srctext st !! k).

(** [srctext.substr( pos, n )], for [pos <= size()]. *)
Definition substr (st : State) (pos n : nat) : text :=
  take n (drop pos (srctext st)).

Definition set_i (k : nat) (st : State) : State :=
  mkState (srctext st) (tokens st) k (lastType st) (user_defined_classnames st).

(** [tokens.push_back( lexer::Token( v, lastType = ty ) )] *)
Definition push_back (v : text) (ty : TokenType) (st : State) : State :=
  mkState (srctext st) (tokens st ++ [mkToken v ty]) (i st) ty
          (user_defined_classnames st).

(** [user_defined_classnames.insert( id )] *)
Definition insert_classname (id : text) (st : State) : State :=
  mkState (srctext st) (tokens st) (i st) (lastType st)
          ({[ id ]} ∪ user_defined_classnames st).

(** *** Character classes *)

Definition isSkippable_char (c : ascii) : bool :=
  bool_decide (c = " "%char) || bool_decide (c = TAB)
  || bool_decide (c = LF) || bool_decide (c = CR).

Definition isInt_char (c : ascii) : bool :=
  bool_decide (nat_of_ascii "0" <= nat_of_ascii c)
  && bool_decide (nat_of_ascii c <= nat_of_ascii "9").

(** [toupper] and [tolower] of the C locale; bytes outside ASCII are
    left as they are. *)
Definition toupper (c : ascii) : ascii :=
  if bool_decide (nat_of_ascii "a" <= nat_of_ascii c <= nat_of_ascii "z")
  then ascii_of_nat (nat_of_ascii c - 32) else c.

Definition tolower (c : ascii) : ascii :=
  if bool_decide (nat_of_ascii "A" <= nat_of_ascii c <= nat_of_ascii "Z")
  then ascii_of_nat (nat_of_ascii c + 32) else c.

Definition isAlpha_char (c : ascii) : bool :=
  bool_decide (toupper c ≠ tolower c).

Definition isSkippable (st : State) : bool := isSkippable_char (at_ st (i st)).
Definition isInt (st : State) : bool := isInt_char (at_ st (i st)).
Definition isAlpha (st : State) : bool := isAlpha_char (at_ st (i st)).

Definition nextCharacterIsSame (st : State) : bool :=
  bool_decide (i st + 1 < length (srctext st))
  && bool_decide (at_ st (i st) = at_ st (i st + 1)).

Definition nextCharacterIs (c : ascii) (st : State) : bool :=
  bool_decide (i st + 1 < length (srctext st))
  && bool_decide (at_ st (i st + 1) = c).

(** *** Emitting tokens *)

(** [tokens.push_back( Token( srctext.substr( i++, 2 ), lastType = type ) )] *)
Definition handleDoubleCharacter (ty : TokenType) (st : State) : State :=
  set_i (S (i st)) (push_back (substr st (i st) 2) ty st).

Definition handleSingleCharacter (ty : TokenType) (st : State) : State :=
  push_back (substr st (i st) 1) ty st.

(** The longest prefix of [l] whose characters satisfy [p]. *)
Fixpoint span (p : ascii → bool) (l : text) : text :=
  match l with
  | c :: l' => if p c then c :: span p l' else []
  | [] => []
  end.

(** [while ( i < LENGTH && p( srctext[ i ] ) ) acc += srctext[ i++ ];] *)
Definition while_append (p : ascii → bool) (acc : text) (st : State)
  : text * State :=
  let run := span p (drop (i st) (srctext st)) in
  (acc ++ run, set_i (i st + length run) st).

(** What one pass through the body of the [for] loop of [tokenize] does. *)
Inductive Step : Type :=
  | Continue (st : State)            (* [continue], the loop then does [++i] *)
  | ReturnEmpty (st : State)         (* [return TokenList()] *)
  | Throw (msg : text) (st : State). (* [throw std::runtime_error( msg )] *)

(** The [while] loop of [buildString], which pre-increments [i] and runs
    until [LENGTH] or the next double quote; [rest] is the source from
    index [k] on. [None] is the
    [throw] inside the loop, otherwise the string read and the final [i]. *)
Fixpoint buildString_loop (rest : text) (k : nat) (s : text)
  : option (text * nat) :=
  match rest with
  | [] => Some (s, k)
  | c :: rest' =>
      if bool_decide (c = DQUOTE) then Some (s, k)
      else if bool_decide (c = LF) || bool_decide (c = CR) then None
      else buildString_loop rest' (S k) (s ++ [c])
  end.

Definition buildString (st : State) : Step :=
  if bool_decide (i st < LENGTH st) && bool_decide (at_ st (i st + 1) = DQUOTE)
  then Continue (push_back [] string_literal st)
  else
    match buildString_loop (drop (S (i st)) (srctext st)) (S (i st)) [] with
    | None => Throw (str "invalid string literal!") st
    | Some (s, k) =>
        let st := set_i k st in
        if bool_decide (i st < LENGTH st)
           && bool_decide (at_ st (i st) ≠ DQUOTE)
        then Throw (str "invalid string literal!") st
        else Continue (push_back s string_literal st)
    end.

Definition buildChar (st : State) : State :=
  let st := set_i (S (i st)) st in
  let ch := substr st (i st) 1 in
  let ch := if bool_decide (at_ st (i st) = "\"%char)
            then ch ++ [at_ st (i st)] else ch in
  let st := set_i (S (i st)) st in
  push_back ch char_literal st.

(** [template< bool isNegative = false > void buildNumber()].  Every [i--]
    below follows at least one [i++], so the index never wraps. *)
Definition buildNumber (isNegative : bool) (st : State) : State :=
  let num := if isNegative then str "-" else [] in
  let '(num, st) := while_append isInt_char num st in
  if bool_decide (i st < LENGTH st) && bool_decide (at_ st (i st) ≠ "."%char)
  then
    let st := push_back num (if isNegative then negative_integer_literal
                             else integer_literal) st in
    set_i (i st - 1) st
  else
    let num := num ++ [at_ st (i st)] in
    let st := set_i (S (i st)) st in
    let '(num, st) := while_append isInt_char num st in
    let st := set_i (i st - 1) st in
    push_back num float_literal st.

Definition parseIdentifier (st : State) : text * State :=
  let '(id, st) :=
    while_append
      (λ c, isInt_char c || isAlpha_char c || bool_decide (c = "_"%char))
      [] st in
  (id, set_i (i st - 1) st).

Definition buildIdentifier (st : State) : State :=
  let '(id, st) := parseIdentifier st in
  if bool_decide (id = str "false") || bool_decide (id = str "true")
  then push_back id bool_literal st
  else
    match KEYWORDS !! id with
    | Some kw => push_back id kw st
    | None =>
        if bool_decide (id ∈ DEFAULT_TYPES) then
          if bool_decide (id = str "String")
          then push_back id ClassType st
          else push_back id PrimitiveType st
        else if bool_decide (lastType st = class_) then
          push_back id ClassType (insert_classname id st)
        else if bool_decide (id ∈ user_defined_classnames st) then
          push_back id ClassType st
        else push_back id Identifier st
    end.

(** [nextCharacterIsSame() ? handleDoubleCharacter( d ) : handleSingleCharacter( s )] *)
Definition doubleOrSingle (d s : TokenType) (st : State) : State :=
  if nextCharacterIsSame st then handleDoubleCharacter d st
  else handleSingleCharacter s st.

(** The context test of the ['-'] case. *)
Definition signContext (t : TokenType) : bool :=
  isBinaryOperator t || bool_decide (t = Equals)
  || bool_decide (t = OParen) || bool_decide (t = Comma).

(** The line comment: [c = srctext[ i ]; while ( i < LENGTH && c != '\n' )
    c = srctext[ ++i ];] stops on the first line feed at or after [i], or
    at [LENGTH]. *)
Definition skipComment (st : State) : State :=
  snd (while_append (λ c, bool_decide (c ≠ LF)) [] st).

(** The body of the [for] loop of [tokenize], for [i < LENGTH]. *)
Definition tokenize_body (st : State) : Step :=
  let c := at_ st (i st) in
  let on (d : ascii) := bool_decide (c = d) in
  if isSkippable st then Continue st
  else if on ";"%char then Continue (handleSingleCharacter Semicolon st)
  else if on ","%char then Continue (handleSingleCharacter Comma st)
  else if on "("%char then Continue (handleSingleCharacter OParen st)
  else if on ")"%char then Continue (handleSingleCharacter CParen st)
  else if on "{"%char then Continue (handleSingleCharacter OCurlyBrace st)
  else if on "}"%char then Continue (handleSingleCharacter CCurlyBrace st)
  else if on "<"%char then Continue (doubleOrSingle ShiftLeft LessThan st)
  else if on ">"%char then Continue (doubleOrSingle ShiftRight GreaterThan st)
  else if on "+"%char then Continue (doubleOrSingle PlusPlus Plus st)
  else if on "~"%char then Continue (handleSingleCharacter Reference st)
  else if on "-"%char then
    if nextCharacterIs ">"%char st
    then Continue (handleDoubleCharacter Pointer st)
    else if signContext (lastType st)
    then Continue (buildNumber true (set_i (S (i st)) st))
    else Continue (doubleOrSingle MinusMinus Minus st)
  else if on "*"%char then Continue (doubleOrSingle Exponent Multiply st)
  else if on "/"%char then
    if nextCharacterIsSame st then Continue (skipComment st)
    else Continue (handleSingleCharacter Divide st)
  else if on "%"%char then Continue (handleSingleCharacter Modulus st)
  else if on ":"%char then Continue (doubleOrSingle ColonColon Colon st)
  else if on "&"%char then Continue (doubleOrSingle ANDAND AND st)
  else if on "|"%char then Continue (doubleOrSingle OROR OR st)
  else if on "="%char then Continue (doubleOrSingle EqualsEquals Equals st)
  else if on "!"%char then
    if nextCharacterIs "="%char st
    then Continue (handleDoubleCharacter NotEquals st)
    else Continue (handleSingleCharacter Not st)
  else if on "."%char then
    if bool_decide (i st + 1 < LENGTH st) && isInt (set_i (S (i st)) st)
    then Continue (buildNumber false st)
    else Continue (handleSingleCharacter Dot st)
  else if on DQUOTE then buildString st
  else if on SQUOTE then Continue (buildChar st)
  else if isInt st then Continue (buildNumber false st)
  else if isAlpha st then Continue (buildIdentifier st)
  else ReturnEmpty st.

(** The characters that have a [case] of their own in the [switch]. *)
Definition switch_char (c : ascii) : bool :=
  bool_decide (c = ";"%char) || bool_decide (c = ","%char)
  || bool_decide (c = "("%char) || bool_decide (c = ")"%char)
  || bool_decide (c = "{"%char) || bool_decide (c = "}"%char)
  || bool_decide (c = "<"%char) || bool_decide (c = ">"%char)
  || bool_decide (c = "+"%char) || bool_decide (c = "~"%char)
  || bool_decide (c = "-"%char) || bool_decide (c = "*"%char)
  || bool_decide (c = "/"%char) || bool_decide (c = "%"%char)
  || bool_decide (c = ":"%char) || bool_decide (c = "&"%char)
  || bool_decide (c = "|"%char) || bool_decide (c = "="%char)
  || bool_decide (c = "!"%char) || bool_decide (c = "."%char)
  || bool_decide (c = DQUOTE) || bool_decide (c = SQUOTE).

(** The characters the lexer has a rule for: white space, the characters
    of the [switch], digits and letters.  On any other character the
    [default] case prints a message and returns an empty token list. *)
Definition recognized (c : ascii) : bool :=
  isSkippable_char c || switch_char c || isInt_char c || isAlpha_char c.

(** How a call of [tokenize] ends, with the contents of
    [user_defined_classnames] it leaves behind. *)
Inductive Outcome : Type :=
  | Returned (toks : TokenList) (classnames : gset text)
  | Thrown (msg : text) (classnames : gset text)
  | OutOfFuel.

(** [for ( ; i < LENGTH; ++i ) { ... }] followed by the [EOF_] token. *)
Fixpoint tokenize_loop (fuel : nat) (st : State) : Outcome :=
  if bool_decide (i st < LENGTH st) then
    match fuel with
    | 0 => OutOfFuel
    | S fuel' =>
        match tokenize_body st with
        | Continue st' => tokenize_loop fuel' (set_i (S (i st')) st')
        | ReturnEmpty st' => Returned [] (user_defined_classnames st')
        | Throw msg st' => Thrown msg (user_defined_classnames st')
        end
    end
  else
    Returned (tokens st ++ [mkToken [] EOF_]) (user_defined_classnames st).

(** The lexer after [n] more passes of the loop, if it makes that many. *)
Fixpoint passes (n : nat) (st : State) : option State :=
  match n with
  | 0 => Some st
  | S n =>
      if bool_decide (i st < LENGTH st) then
        match tokenize_body st with
        | Continue st' => passes n (set_i (S (i st')) st')
        | _ => None
        end
      else None
  end.

(** A fresh [Lexer] on [src], in a process whose class-name set is
    [classnames]. *)
Definition init (classnames : gset text) (src : text) : State :=
  mkState src [] 0 EOF_ classnames.

(** [Lexer( src ).tokenize()].  Every pass of the loop advances [i], so
    [length src] passes are enough (see [tokenize_loop_total]). *)
Definition tokenize (classnames : gset text) (src : text) : Outcome :=
  tokenize_loop (length src) (init classnames src).

(** [st] is the lexer at the head of the loop at some point of
    [tokenize] on [src]. *)
Definition reaches (classnames : gset text) (src : text) (st : State)
  : Prop :=
  ∃ n, passes n (init classnames src) = Some st.

End Lexer.

Export Lexer.

(** ** AST.h: the syntax tree *)

Module ast.

Inductive AccessSpecifier : Set := Public | Private | Protected.

Record TypeName : Type := mkTypeName {
  name : text;
  isMutable : bool;
  ptr_or_ref : text
}.

Record Identifier : Type := mkIdentifier { getSymbol : text }.

(** [class Parameter]; the bare name is reserved in Rocq. *)
Record Parameter_ : Type := mkParameter {
  getTypeName : TypeName;
  getParameterName : Identifier
}.

(** The instances of [template< typename T > class NumericLiteral] that
    the parser builds. *)
Inductive NumericType : Set := int64_t | uint64_t | double.

(** The classes derived from [Expression], and [Statement], the tagged
    cell that owns a node.  [Identifier], [VariableDeclaration] and
    [FunctionDeclaration] are also held by value inside other nodes, so
    they are types of their own with a constructor for the upcast.  A
    [NumericLiteral] is kept as the lexeme handed to [atoll] or [atof]. *)
#[local] Set Warnings "-register-all".
Inductive Expression : Type :=
  | IdentifierExpr (id : Identifier)
  | NumericLiteral (T : NumericType) (lexeme : text)
  | StringLiteral (v : text)
  | CharacterLiteral (v : text)
  | BoolLiteral (v : bool)
  | BinaryExpression (lhs : Expression) (op : text) (rhs : Expression)
  | AssignmentExpression (lhs rhs : Expression)
  | VariableDeclarationExpr (v : VariableDeclaration)
  | FunctionDeclarationExpr (f : FunctionDeclaration)
  | FunctionCall (f_name : Identifier) (parameters : list Statement)
  | ReturnStatement (stmt : Statement)
  | ClassDeclaration (ty : TypeName) (fields : list FieldDeclaration)
                     (methods : list MethodDeclaration)
  | NameSpaceDeclaration (nsp_name : Identifier) (body : list Statement)
  | IfStatement (condition : Expression) (body : list Statement)
with VariableDeclaration : Type :=
  | mkVariableDeclaration (isMutable : bool) (ty : TypeName)
                          (identifier : Identifier) (value : option Expression)
with FunctionDeclaration : Type :=
  | mkFunctionDeclaration (returnType : TypeName) (f_name : Identifier)
                          (paramList : list Parameter_) (body : list Statement)
with FieldDeclaration : Type :=
  | mkFieldDeclaration (var : VariableDeclaration) (spec : AccessSpecifier)
with MethodDeclaration : Type :=
  | mkMethodDeclaration (func : FunctionDeclaration) (spec : AccessSpecifier)
with Statement : Type :=
  | StatementNull
  | StatementProgram (body : list Statement)
  | StatementExpression (ptr : Expression)
  | StatementScope (stmts : list Statement).

Definition isMutableVar (v : VariableDeclaration) : bool :=
  match v with mkVariableDeclaration m _ _ _ => m end.
Definition getIdentifier (v : VariableDeclaration) : Identifier :=
  match v with mkVariableDeclaration _ _ id _ => id end.
Definition getType (v : VariableDeclaration) : TypeName :=
  match v with mkVariableDeclaration _ ty _ _ => ty end.
Definition getValue (v : VariableDeclaration) : option Expression :=
  match v with mkVariableDeclaration _ _ _ e => e end.

Definition getParamList (f : FunctionDeclaration) : list Parameter_ :=
  match f with mkFunctionDeclaration _ _ ps _ => ps end.
Definition getBody (f : FunctionDeclaration) : list Statement :=
  match f with mkFunctionDeclaration _ _ _ b => b end.

(** [Program( StatementList&& body )] *)
Record Program : Type := mkProgram { program_body : list Statement }.

End ast.

(** ** Parser.h: the recursive-descent parser *)

Module Parser.

(** The result of running a parser method from token index [i]: the value
    and the new index, an exception, an access to [tokens[ k ]] with
    [k >= tokens.size()] (which the C++ code does not check), or fuel
    exhausted (the model's bound on the depth of calls and on the number
    of loop passes). *)
Inductive Res (A : Type) : Type :=
  | Ok (a : A) (i : nat)
  | Err (msg : text)
  | Undefined
  | NoFuel.
Arguments Ok {A} a i.
Arguments Err {A} msg.
Arguments Undefined {A}.
Arguments NoFuel {A}.

Definition M (A : Type) : Type := nat → Res A.

Definition ret {A} (a : A) : M A := λ i, Ok a i.
Definition throw {A} (msg : text) : M A := λ _, Err msg.
Definition no_fuel {A} : M A := λ _, NoFuel.
Definition bind {A B} (m : M A) (k : A → M B) : M B :=
  λ i, match m i with
       | Ok a i' => k a i'
       | Err msg => Err msg
       | Undefined => Undefined
       | NoFuel => NoFuel
       end.
Definition get_i : M nat := λ i, Ok i i.

Notation "'do' x <- m ; k" := (bind m (λ x, k))
  (at level 10, x name, m at level 100, k at level 200,
   format "'[v' 'do'  x  <-  m ; '/' k ']'").
Notation "'do' ' p <- m ; k" := (bind m (λ x, let 'p := x in k))
  (at level 10, p pattern, m at level 100, k at level 200).

Definition is_type (tk : Token) (ty : TokenType) : bool :=
  bool_decide (type tk = ty).

(** The calls that close a cycle of the recursive descent.  A method
    that is needed before it is defined is called through this table;
    [calls] below fills the table in, one level of [fuel] per call. *)
Record Calls : Type := mkCalls {
  call_parseStatement : bool → M ast.Statement;
  call_parseExpression : bool → M ast.Expression;
  call_parseAssignmentExpression : bool → M ast.Expression;
  call_parseAdditiveExpression : M ast.Expression;
  call_parseVariableDeclaration : M ast.VariableDeclaration
}.

Module Methods.
Section parser.

Context (tokens : TokenList).

(** [Token peek() const { return tokens[ i ]; }] *)
Definition peek : M Token :=
  λ i, match tokens !! i with Some tk => Ok tk i | None => Undefined end.

(** [Token eat() { return tokens[ i++ ]; }] *)
Definition eat : M Token :=
  λ i, match tokens !! i with Some tk => Ok tk (S i) | None => Undefined end.

Definition peekNext : M Token :=
  λ i, match tokens !! (i + 1) with Some tk => Ok tk i | None => Undefined end.

(** [if ( i >= tokens.size() ) return tokens.back(); return tokens[i];] *)
Definition peekTo (k : nat) : M Token :=
  λ i, match (if bool_decide (length tokens <= k) then last tokens
              else tokens !! k) with
       | Some tk => Ok tk i
       | None => Undefined
       end.

Definition not_eof : M bool :=
  do tk <- peek; ret (bool_decide (type tk ≠ EOF_)).

Definition unexpected (err : text) : text :=
  str "Unexpected token type" ++ [LF] ++ err.

Definition expect (ty : TokenType) (err : text) : M Token :=
  do tk <- eat;
  if bool_decide (type tk ≠ ty) then throw (unexpected err) else ret tk.

Definition expect2 (type1 type2 : TokenType) (err : text) : M Token :=
  do tk <- eat;
  if bool_decide (type tk ≠ type1) && bool_decide (type tk ≠ type2)
  then throw (unexpected err) else ret tk.

Definition eatIfRefOrPtr : M (bool * bool) :=
  do tk <- peek;
  if is_type tk Reference then do _ <- eat; ret (true, false)
  else if is_type tk Pointer then do _ <- eat; ret (false, true)
  else ret (false, false).

Definition eatIfMutable : M bool :=
  do tk <- peek;
  let isMutable := is_type tk mutable_ in
  if isMutable then do _ <- eat; ret isMutable else ret isMutable.

(** The constructor of [ast::TypeName]. *)
Definition new_TypeName (name : text) (isMutable isRef isPtr : bool)
  : M ast.TypeName :=
  if isRef && isPtr then throw (str "cannot be both reference and ptr")
  else ret (ast.mkTypeName name isMutable
              (if isPtr then str "->" else if isRef then str "~" else [])).

(** [ast::Parameter( isMutable, type, isRef, isPtr, name )] *)
Definition new_Parameter (isMutable : bool) (ty : text) (isRef isPtr : bool)
  (name : text) : M ast.Parameter_ :=
  do t <- new_TypeName ty isMutable isRef isPtr;
  ret (ast.mkParameter t (ast.mkIdentifier name)).

(** The [while] loop of [parseFunctionDeclaration] that builds the
    parameter list. *)
Fixpoint parameterList (fuel : nat) (f_name : text)
  (f_p_list : list ast.Parameter_) : M (list ast.Parameter_) :=
  do tk <- peek;
  if is_type tk ClassType || is_type tk PrimitiveType || is_type tk mutable_
  then
    match fuel with
    | 0 => no_fuel
    | S fuel =>
        do isMutable <- eatIfMutable;
        do p_type <- eat;
        do '(isRef, isPtr) <- eatIfRefOrPtr;
        do p_name <- expect Identifier
                       (str "parameters must have a type and name");
        do maybe_comma <- peek;
        do _ <- (if is_type maybe_comma Comma then do _ <- eat; ret tt
         else if negb (is_type maybe_comma CParen)
         then throw (str "invalid parameter list for function " ++ f_name)
         else ret tt);
        do p <- new_Parameter isMutable (value p_type) isRef isPtr
                  (value p_name);
        parameterList fuel f_name (f_p_list ++ [p])
    end
  else ret f_p_list.

(** [NOT_VALID_IF_CONDITION], negated. *)
Definition valid_if_condition (condition : ast.Expression) : bool :=
  match condition with
  | ast.BinaryExpression _ _ _ | ast.BoolLiteral _ | ast.NumericLiteral _ _ =>
      true
  | _ => false
  end.

(** The [switch] of [parseClassDefinition] on an access specifier. *)
Definition accessOf (ty : TokenType) (currentspec : ast.AccessSpecifier)
  : ast.AccessSpecifier :=
  match ty with
  | public_ => ast.Public
  | protected_ => ast.Protected
  | private_ => ast.Private
  | _ => currentspec
  end.

Definition upcast (e : ast.Expression) : ast.Statement :=
  ast.StatementExpression e.

(** From here on the methods of [class Parser] that call each other, the
    callee before the caller.  Every [while] loop is a function of its
    own whose arguments are the variables the loop updates; [fuel] bounds
    the number of passes of a loop, and [self] holds the calls back up. *)
Context (fuel : nat) (self : Calls).

(** [while ( param.type != TokenType::CParen )], with [param = peek()]
    before the loop and at the end of each pass. *)
Fixpoint functionCallArguments (n : nat) (params : list ast.Statement)
  : M (list ast.Statement) :=
  do param <- peek;
  if negb (is_type param CParen) then
    match n with
    | 0 => no_fuel
    | S n =>
        do e <- call_parseAdditiveExpression self;
        do tk <- peek;
        do _ <- (if is_type tk Comma then do _ <- eat; ret tt else ret tt);
        functionCallArguments n (params ++ [upcast e])
    end
  else ret params.

Definition parseFunctionCall (isLoneCall : bool) : M ast.Expression :=
  do f_name <- expect Identifier (str "Expected function name");
  do _ <- expect OParen (str "Function call must have open paren");
  do params <- functionCallArguments fuel [];
  do _ <- expect CParen (str "Expected closing paren to end function call");
  do _ <- (if isLoneCall
           then do _ <- expect Semicolon
                          (str "Expected semicolon to end statement");
                ret tt
           else ret tt);
  ret (ast.FunctionCall (ast.mkIdentifier (value f_name)) params).

Definition parsePrimaryExpression : M ast.Expression :=
  do tk <- peek;
  if is_type tk Identifier then
    do next <- peekNext;
    if is_type next OParen then parseFunctionCall false
    else
      do id <- eat;
      ret (ast.IdentifierExpr (ast.mkIdentifier (value id)))
  else if is_type tk negative_integer_literal then
    do t <- eat; ret (ast.NumericLiteral ast.int64_t (value t))
  else if is_type tk integer_literal then
    do t <- eat; ret (ast.NumericLiteral ast.uint64_t (value t))
  else if is_type tk float_literal then
    do t <- eat; ret (ast.NumericLiteral ast.double (value t))
  else if is_type tk string_literal then
    do t <- eat; ret (ast.StringLiteral (value t))
  else if is_type tk char_literal then
    do t <- eat; ret (ast.CharacterLiteral (value t))
  else if is_type tk bool_literal then
    do t <- eat;
    ret (ast.BoolLiteral (bool_decide (value t = str "true")))
  else if is_type tk OParen then
    do _ <- eat;
    do v <- call_parseExpression self false;
    do _ <- expect CParen (str "No closing paren!");
    ret v
  else throw (str "Unexpected token found during parsing!").

Fixpoint dotLoop (n : nat) (left : ast.Expression) : M ast.Expression :=
  do tk <- peek;
  if is_type tk Dot then
    match n with
    | 0 => no_fuel
    | S n =>
        do op <- eat;
        do right <- parsePrimaryExpression;
        dotLoop n (ast.BinaryExpression left (value op) right)
    end
  else ret left.

Definition parseDotExpression : M ast.Expression :=
  do left <- parsePrimaryExpression;
  dotLoop fuel left.

Fixpoint exponentialLoop (n : nat) (left : ast.Expression)
  : M ast.Expression :=
  do tk <- peek;
  if is_type tk Exponent then
    match n with
    | 0 => no_fuel
    | S n =>
        do op <- eat;
        do right <- parseDotExpression;
        exponentialLoop n (ast.BinaryExpression left (value op) right)
    end
  else ret left.

Definition parseExponentialExpression : M ast.Expression :=
  do left <- parseDotExpression;
  exponentialLoop fuel left.

Fixpoint multiplicativeLoop (n : nat) (left : ast.Expression)
  : M ast.Expression :=
  do tk <- peek;
  if isMultParseLevel tk then
    match n with
    | 0 => no_fuel
    | S n =>
        do op <- eat;
        do right <- parseExponentialExpression;
        multiplicativeLoop n (ast.BinaryExpression left (value op) right)
    end
  else ret left.

Definition parseMultiplicativeExpression : M ast.Expression :=
  do left <- parseExponentialExpression;
  multiplicativeLoop fuel left.

(** [while ( peek().value == "+" || peek().value == "-" )]: the test is on
    the token's text, not on its kind. *)
Fixpoint additiveLoop (n : nat) (left : ast.Expression) : M ast.Expression :=
  do tk <- peek;
  if bool_decide (value tk = str "+") || bool_decide (value tk = str "-")
  then
    match n with
    | 0 => no_fuel
    | S n =>
        do op <- eat;
        do right <- parseMultiplicativeExpression;
        additiveLoop n (ast.BinaryExpression left (value op) right)
    end
  else ret left.

Definition parseAdditiveExpression : M ast.Expression :=
  do left <- parseMultiplicativeExpression;
  additiveLoop fuel left.

Fixpoint booleanLoop (n : nat) (left : ast.Expression) : M ast.Expression :=
  do tk <- peek;
  if is_type tk EqualsEquals || is_type tk NotEquals then
    match n with
    | 0 => no_fuel
    | S n =>
        do op <- eat;
        do right <- parseAdditiveExpression;
        booleanLoop n (ast.BinaryExpression left (value op) right)
    end
  else ret left.

Definition parseBooleanExpression : M ast.Expression :=
  do left <- parseAdditiveExpression;
  booleanLoop fuel left.

Definition parseAssignmentExpression (TopCall : bool) : M ast.Expression :=
  do declaration <-
    (if TopCall then
       do next <- peekNext;
       ret (is_type next ClassType || is_type next PrimitiveType
            || is_type next Reference || is_type next Pointer)
     else ret false);
  if (declaration : bool) then
    do v <- call_parseVariableDeclaration self;
    ret (ast.VariableDeclarationExpr v)
  else
    do left <- parseBooleanExpression;
    do tk <- peek;
    do left <-
      (if is_type tk Equals then
         do _ <- eat;
         do right <- call_parseAssignmentExpression self false;
         ret (ast.AssignmentExpression left right)
       else ret left);
    do _ <- (if TopCall
             then do _ <- expect Semicolon
                            (str "must end statement with semicolon");
                  ret tt
             else ret tt);
    ret left.

Definition parseExpression (TopCall : bool) : M ast.Expression :=
  parseAssignmentExpression TopCall.

Definition parseVariableDeclaration : M ast.VariableDeclaration :=
  do isMutable <- eatIfMutable;
  do typestr <- expect2 ClassType PrimitiveType
                  (str "expected type in variable declaration");
  do '(isRef, isPtr) <- eatIfRefOrPtr;
  do ty <- new_TypeName (value typestr) isMutable isRef isPtr;
  do name <- expect Identifier (str "Expected an identifier for a variable");
  do tk <- peek;
  if is_type tk Semicolon then
    do _ <- eat;
    ret (ast.mkVariableDeclaration false ty
           (ast.mkIdentifier (value name)) None)
  else
    do _ <- expect Equals (str "Expected an '=' after identifier.");
    do expr <- parseExpression true;
    ret (ast.mkVariableDeclaration isMutable ty
           (ast.mkIdentifier (value name)) (Some expr)).

Definition parseReturnStatement : M ast.Statement :=
  do _ <- expect return_ [];
  do stmt <- call_parseStatement self true;
  ret (upcast (ast.ReturnStatement stmt)).

(** The [while] loop that builds the function body; it is left by
    [break] after a [return] statement. *)
Fixpoint functionBody (n : nat) (f_body : list ast.Statement)
  : M (list ast.Statement) :=
  do tk <- peek;
  if negb (is_type tk CCurlyBrace) then
    match n with
    | 0 => no_fuel
    | S n =>
        if bool_decide (value tk = str "return") then
          do stmt <- parseReturnStatement;
          ret (f_body ++ [stmt])
        else
          do stmt <- call_parseStatement self true;
          functionBody n (f_body ++ [stmt])
    end
  else ret f_body.

Definition parseFunctionDeclaration : M ast.FunctionDeclaration :=
  do isMutable <- eatIfMutable;
  do ty <- expect2 ClassType PrimitiveType
             (str "function must have return type");
  do '(isRef, isPtr) <- eatIfRefOrPtr;
  do f_rettype <- new_TypeName (value ty) isMutable isRef isPtr;
  do f_name <- expect Identifier (str "function must have name");
  do _ <- expect OParen (str "missing open paren to start parameter list");
  do f_p_list <- parameterList fuel (value f_name) [];
  do _ <- expect CParen (str "missing closing paren of parameter list");
  do _ <- expect OCurlyBrace (str "missing opening bracket of function body");
  do f_body <- functionBody fuel [];
  do _ <- expect CCurlyBrace
            (str "No matching closing bracket on function " ++ value f_name);
  ret (ast.mkFunctionDeclaration f_rettype
         (ast.mkIdentifier (value f_name)) f_p_list f_body).

Definition handleIdentifier : M ast.Statement :=
  do e <- parseAssignmentExpression true; ret (upcast e).

Definition handleMutable : M ast.Statement :=
  do tk <- peekNext;
  if negb (is_type tk ClassType) && negb (is_type tk PrimitiveType)
  then throw (str "expected type after 'mutable' keyword")
  else
    do i <- get_i;
    do tk2 <- peekTo (i + 2);
    do '(tk2, idx) <-
      (if isRefOrPtr tk2 then do tk2 <- peekTo (i + 3); ret (tk2, 1)
       else ret (tk2, 0));
    if is_type tk2 Equals then
      do e <- parseAssignmentExpression true; ret (upcast e)
    else if is_type tk2 Identifier then
      do tk3 <- peekTo (i + 3 + idx);
      if is_type tk3 Equals || is_type tk3 Semicolon then
        do v <- parseVariableDeclaration;
        ret (upcast (ast.VariableDeclarationExpr v))
      else
        do f <- parseFunctionDeclaration;
        ret (upcast (ast.FunctionDeclarationExpr f))
    else throw (str "unkown token found").

Definition handleType : M ast.Statement :=
  do tk <- peekNext;
  do i <- get_i;
  do '(tk, idx) <-
    (if isRefOrPtr tk then do tk <- peekTo (i + 2); ret (tk, 1)
     else ret (tk, 0));
  if negb (is_type tk Identifier)
  then throw (str "Identifier expected after type")
  else
    do tk2 <- peekTo (i + 2 + idx);
    if is_type tk2 Equals then
      do v <- parseVariableDeclaration;
      ret (upcast (ast.VariableDeclarationExpr v))
    else
      do f <- parseFunctionDeclaration;
      ret (upcast (ast.FunctionDeclarationExpr f)).

(** The [while] loop of [parseClassDefinition]. *)
Fixpoint classBody (n : nat) (fields : list ast.FieldDeclaration)
  (methods : list ast.MethodDeclaration) (currentspec : ast.AccessSpecifier)
  : M (list ast.FieldDeclaration * list ast.MethodDeclaration) :=
  do tk0 <- peek;
  if negb (is_type tk0 CCurlyBrace) then
    match n with
    | 0 => no_fuel
    | S n =>
        do '(tk, idx, currentspec) <-
          (if is_type tk0 mutable_ then
             do tk <- peekNext; ret (tk, 1, currentspec)
           else if isAccessSpecifier (type tk0) then
             do _ <- eat;
             let currentspec := accessOf (type tk0) currentspec in
             do _ <- expect Colon
                       (str "expected colon after access specifier");
             do tk <- peek; ret (tk, 0, currentspec)
           else ret (tk0, 0, currentspec));
        if negb (is_type tk ClassType) && negb (is_type tk PrimitiveType)
        then throw (str "Inner class definition requires type name")
        else
          do i <- get_i;
          do tk2 <- peekTo (i + 1 + idx);
          do '(tk2, idx) <-
            (if isRefOrPtr tk2 then
               do tk2 <- peekTo (i + 1 + (idx + 1)); ret (tk2, idx + 1)
             else ret (tk2, idx));
          do tk3 <- peekTo (i + 2 + idx);
          if is_type tk3 OParen then
            do func <- parseFunctionDeclaration;
            classBody n fields
              (methods ++ [ast.mkMethodDeclaration func currentspec])
              currentspec
          else
            do var <- parseVariableDeclaration;
            classBody n
              (fields ++ [ast.mkFieldDeclaration var currentspec])
              methods currentspec
    end
  else ret (fields, methods).

Definition parseClassDefinition : M ast.Statement :=
  do _ <- eat;
  do typestr <- expect ClassType (str "Class type must follow class keyword");
  do _ <- expect OCurlyBrace
            (str "expected opening bracket to start class definition");
  do '(fields, methods) <- classBody fuel [] [] ast.Public;
  do _ <- expect CCurlyBrace
            (str "expected closing bracket to class definition");
  do ty <- new_TypeName (value typestr) false false false;
  ret (upcast (ast.ClassDeclaration ty fields methods)).

Fixpoint nameSpaceBody (n : nat) (stmtList : list ast.Statement)
  : M (list ast.Statement) :=
  do tk <- peek;
  if negb (is_type tk CCurlyBrace) then
    match n with
    | 0 => no_fuel
    | S n =>
        do stmt <- call_parseStatement self true;
        nameSpaceBody n (stmtList ++ [stmt])
    end
  else ret stmtList.

Definition parseNameSpaceDeclaration : M ast.Statement :=
  do _ <- eat;
  do nsp_name <- expect Identifier (str "namespace must have a name");
  do _ <- expect OCurlyBrace
            (str "expected obening bracket to namespace declaration");
  do stmtList <- nameSpaceBody fuel [];
  do _ <- expect CCurlyBrace
            (str "expected closing bracket to end namespace declaration");
  ret (upcast (ast.NameSpaceDeclaration
                 (ast.mkIdentifier (value nsp_name)) stmtList)).

(** [while ( peek().type != TokenType::CCurlyBrace )
       stmts.push_back( parseExpression().release() );] *)
Fixpoint ifStatementBody (n : nat) (stmts : list ast.Statement)
  : M (list ast.Statement) :=
  do tk <- peek;
  if negb (is_type tk CCurlyBrace) then
    match n with
    | 0 => no_fuel
    | S n =>
        do e <- parseExpression true;
        ifStatementBody n (stmts ++ [upcast e])
    end
  else ret stmts.

Definition parseIfStatement : M ast.Statement :=
  do _ <- eat;
  do _ <- expect OParen (str "expected opening paren to start if statement");
  do condition <- parseExpression false;
  if negb (valid_if_condition condition)
  then throw (str "invalid if condition")
  else
    do _ <- expect CParen (str "expected closing paren after condition");
    do tk <- peek;
    let multipleStatments := is_type tk OCurlyBrace in
    do stmts <-
      (if multipleStatments then
         do _ <- eat;
         do stmts <- ifStatementBody fuel [];
         do _ <- expect CCurlyBrace
                   (str "expected closing brace of if statement body");
         ret stmts
       else
         do stmt <- call_parseStatement self false;
         ret [stmt]);
    ret (upcast (ast.IfStatement condition stmts)).

(** [template< bool AllowDeclarations = true > ast::Statement parseStatement()] *)
Definition parseStatement (AllowDeclarations : bool) : M ast.Statement :=
  do tk <- peek;
  if is_type tk if_ then parseIfStatement
  else if is_type tk namespace_ then
    if AllowDeclarations then parseNameSpaceDeclaration
    else throw (str "cannot create namespace inside of if statement")
  else if is_type tk Identifier then handleIdentifier
  else if is_type tk PrimitiveType || is_type tk ClassType then handleType
  else if is_type tk mutable_ then handleMutable
  else if is_type tk class_ then
    if AllowDeclarations then parseClassDefinition
    else throw (str "cannot create class inside of if statement")
  else do e <- parseExpression true; ret (upcast e).

End parser.

End Methods.

(** The table of calls at each level of [fuel]: none at level 0, and at
    level [S fuel] the methods whose own calls are those of level [fuel]. *)
Fixpoint calls (tokens : TokenList) (fuel : nat) : Calls :=
  match fuel with
  | 0 => mkCalls (λ _, no_fuel) (λ _, no_fuel) (λ _, no_fuel) no_fuel no_fuel
  | S fuel =>
      let self := calls tokens fuel in
      mkCalls (Methods.parseStatement tokens fuel self)
              (Methods.parseExpression tokens fuel self)
              (Methods.parseAssignmentExpression tokens fuel self)
              (Methods.parseAdditiveExpression tokens fuel self)
              (Methods.parseVariableDeclaration tokens fuel self)
  end.

Section closed.

Context (tokens : TokenList) (fuel : nat).

Definition parseStatement (AllowDeclarations : bool) : M ast.Statement :=
  Methods.parseStatement tokens fuel (calls tokens fuel) AllowDeclarations.

Definition parseIfStatement : M ast.Statement :=
  Methods.parseIfStatement tokens fuel (calls tokens fuel).

Definition parseVariableDeclaration : M ast.VariableDeclaration :=
  Methods.parseVariableDeclaration tokens fuel (calls tokens fuel).

Definition parseFunctionDeclaration : M ast.FunctionDeclaration :=
  Methods.parseFunctionDeclaration tokens fuel (calls tokens fuel).

Definition parseExpression (TopCall : bool) : M ast.Expression :=
  Methods.parseExpression tokens fuel (calls tokens fuel) TopCall.

(** [while ( not_eof() ) body.push_back( parseStatement() );] *)
Fixpoint produceAST_loop (n : nat) (body : list ast.Statement)
  : M (list ast.Statement) :=
  do go <- Methods.not_eof tokens;
  if (go : bool) then
    match n with
    | 0 => no_fuel
    | S n =>
        do stmt <- parseStatement true;
        produceAST_loop n (body ++ [stmt])
    end
  else ret body.

Definition produceAST : Res ast.Program :=
  bind (produceAST_loop fuel []) (λ body, ret (ast.mkProgram body)) 0.

End closed.

(** The pipeline of [main]: [Parser p { lex.tokenize() }; p.produceAST()]. *)
Definition parse (fuel : nat) (src : text) : option (Res ast.Program) :=
  match tokenize ∅ src with
  | Returned toks _ => Some (produceAST toks fuel)
  | _ => None
  end.

End Parser.

(** * The vocabulary of the statements *)

(** What a pass may do to the lexer besides moving [i]: the source is
    left alone, the class-name set can only grow, and at most one token
    is pushed, never an [EOF_], with [lastType] following it. *)
Definition extends (st st' : State) : Prop :=
  srctext st' = srctext st
  ∧ user_defined_classnames st ⊆ user_defined_classnames st'
  ∧ ((tokens st' = tokens st ∧ lastType st' = lastType st)
     ∨ ∃ v ty, tokens st' = tokens st ++ [mkToken v ty]
               ∧ lastType st' = ty ∧ ty ≠ EOF_).

(** The cases of the loop body. *)
Inductive body_view (st : State) : Step → Prop :=
  | view_skip :
      isSkippable st = true → body_view st (Continue st)
  | view_single ty :
      ty ≠ EOF_ → body_view st (Continue (handleSingleCharacter ty st))
  | view_double ty :
      ty ≠ EOF_ → body_view st (Continue (handleDoubleCharacter ty st))
  | view_negative :
      body_view st (Continue (buildNumber true (set_i (S (i st)) st)))
  | view_comment :
      body_view st (Continue (skipComment st))
  | view_dot_number :
      at_ st (i st) = "."%char →
      body_view st (Continue (buildNumber false st))
  | view_number :
      isInt st = true → body_view st (Continue (buildNumber false st))
  | view_string :
      at_ st (i st) = DQUOTE → body_view st (buildString st)
  | view_char :
      body_view st (Continue (buildChar st))
  | view_identifier :
      isAlpha st = true → body_view st (Continue (buildIdentifier st))
  | view_unrecognized :
      recognized (at_ st (i st)) = false → body_view st (ReturnEmpty st).

(** The [++i] of the [for] loop. *)
Definition next (st : State) : State := set_i (S (i st)) st.

(** What holds of every state the loop reaches. *)
Record reached_inv (classnames : gset text) (src : text) (st : State)
  : Prop := mkReachedInv {
  inv_srctext : srctext st = src;
  inv_classnames : classnames ⊆ user_defined_classnames st;
  inv_no_EOF : Forall (λ tk, type tk ≠ EOF_) (tokens st);
  inv_lastType : lastType st = from_option type EOF_ (last (tokens st))
}.

(** [lexer::Token( "", TokenType::EOF_ )] with an empty text. *)
Definition EOF_token : Token := mkToken [] EOF_.

(** A token list that [tokenize] hands to the parser in the normal case:
    it ends with the [EOF_] token and holds no other [EOF_]. *)
Definition EOF_terminated (toks : TokenList) : Prop :=
  ∃ pre, toks = pre ++ [EOF_token] ∧ Forall (λ tk, type tk ≠ EOF_) pre.

(** The message of both [throw]s of [buildString]. *)
Definition invalid_string : text := str "invalid string literal!".

(** A double quote at [j] followed, before any other double quote, by a
    raw line feed or carriage return at [k]. *)
Definition raw_newline_in_string (src : text) : Prop :=
  ∃ j k, j < k ∧ src !! j = Some DQUOTE
         ∧ (src !! k = Some LF ∨ src !! k = Some CR)
         ∧ ∀ m, j < m < k → src !! m ≠ Some DQUOTE.



(** [std::string num = isNegative ? "-" : "";] and the kind of the
    integer branch of [buildNumber]. *)
Definition sign (isNegative : bool) : text :=
  if isNegative then str "-" else [].

Definition integer_kind (isNegative : bool) : TokenType :=
  if isNegative then negative_integer_literal else integer_literal.

(** The lexer on [x = 42] and on [x = 42;], at the first digit. *)
Definition before_42 : State :=
  mkState (str "x = 42")
    [mkToken (str "x") Identifier; mkToken (str "=") Equals] 4 Equals ∅.

Definition before_42_semicolon : State :=
  mkState (str "x = 42;")
    [mkToken (str "x") Identifier; mkToken (str "=") Equals] 4 Equals ∅.

(** The numeric token for [digits] followed by [c :: rest], where [c] is
    not a digit: a float when [c] is a dot, an integer otherwise. *)
Definition number_token (isNegative : bool) (digits : text) (c : ascii)
  (rest : text) : Token :=
  if bool_decide (c = "."%char)
  then mkToken (sign isNegative ++ digits ++ "."%char :: span isInt_char rest)
         float_literal
  else mkToken (sign isNegative ++ digits) (integer_kind isNegative).

(** The lexer on [f(1, -2, 3)], at the minus sign. *)
Definition after_comma : State :=
  mkState (str "f(1, -2, 3)")
    [mkToken (str "f") Identifier; mkToken (str "(") OParen;
     mkToken (str "1") integer_literal; mkToken (str ",") Comma]
    5 Comma ∅.

(** The two kinds between which [user_defined_classnames] decides. *)
Definition name_kind (t : TokenType) : Prop := t = Identifier ∨ t = ClassType.

Definition kind_sim (t t' : TokenType) : Prop :=
  t = t' ∨ (name_kind t ∧ name_kind t').

(** Same text, and the same kind unless both are names. *)
Definition token_sim (tk tk' : Token) : Prop :=
  value tk = value tk' ∧ kind_sim (type tk) (type tk').

(** Two lexers on the same source at the same index, whatever their
    class-name sets. *)
Definition state_sim (st st' : State) : Prop :=
  srctext st = srctext st' ∧ i st = i st'
  ∧ Forall2 token_sim (tokens st) (tokens st')
  ∧ kind_sim (lastType st) (lastType st').

(** Two passes, and two calls of [tokenize], that end the same way. *)
Definition step_sim (s s' : Step) : Prop :=
  match s, s' with
  | Continue st, Continue st' => state_sim st st'
  | ReturnEmpty _, ReturnEmpty _ => True
  | Throw msg _, Throw msg' _ => msg = msg'
  | _, _ => False
  end.

Definition outcome_sim (o o' : Outcome) : Prop :=
  match o, o' with
  | Returned toks _, Returned toks' _ => Forall2 token_sim toks toks'
  | Thrown msg _, Thrown msg' _ => msg = msg'
  | _, _ => False
  end.

(** The text [ast::TypeName] keeps for the sigil [eatIfRefOrPtr] saw. *)
Definition sigil_of (tk : Token) : text :=
  if Parser.is_type tk Reference then str "~"
  else if Parser.is_type tk Pointer then str "->" else [].

(** The index of the token that follows the declarator
    [mutable]? type [~ | ->]? name that starts at [k]. *)
Definition after_declarator (tokens : TokenList) (k : nat) : nat :=
  let k1 := match tokens !! k with
            | Some tk => if Parser.is_type tk mutable_ then S k else k
            | None => k
            end in
  let k2 := match tokens !! S k1 with
            | Some tk => if isRefOrPtr tk then S (S k1) else S k1
            | None => S k1
            end in
  S k2.

(** The tokens of [mutable int32 y;] and of [mutable int32 x = 1;], and
    the nodes [parseVariableDeclaration] builds from them. *)
Definition mutable_y : TokenList :=
  [mkToken (str "mutable") mutable_; mkToken (str "int32") PrimitiveType;
   mkToken (str "y") Identifier; mkToken (str ";") Semicolon; EOF_token].

Definition mutable_x_1 : TokenList :=
  [mkToken (str "mutable") mutable_; mkToken (str "int32") PrimitiveType;
   mkToken (str "x") Identifier; mkToken (str "=") Equals;
   mkToken (str "1") integer_literal; mkToken (str ";") Semicolon; EOF_token].

Definition y_node : ast.VariableDeclaration :=
  ast.mkVariableDeclaration false (ast.mkTypeName (str "int32") true [])
    (ast.mkIdentifier (str "y")) None.

Definition x_node : ast.VariableDeclaration :=
  ast.mkVariableDeclaration true (ast.mkTypeName (str "int32") true [])
    (ast.mkIdentifier (str "x"))
    (Some (ast.NumericLiteral ast.uint64_t (str "1"))).

(** The tokens of [void f(int32 a,) { }] and its one parameter. *)
Definition trailing_comma : TokenList :=
  [mkToken (str "void") PrimitiveType; mkToken (str "f") Identifier;
   mkToken (str "(") OParen; mkToken (str "int32") PrimitiveType;
   mkToken (str "a") Identifier; mkToken (str ",") Comma;
   mkToken (str ")") CParen; mkToken (str "{") OCurlyBrace;
   mkToken (str "}") CCurlyBrace; EOF_token].

Definition int32_a : ast.Parameter_ :=
  ast.mkParameter (ast.mkTypeName (str "int32") false [])
    (ast.mkIdentifier (str "a")).

(** The message of the [default] case of [parsePrimaryExpression]. *)
Definition unexpected_token : text :=
  str "Unexpected token found during parsing!".

(** The tokens of [{ if (true) x = 1; }], the body of an [if]. *)
Definition nested_if : TokenList :=
  [mkToken (str "{") OCurlyBrace; mkToken (str "if") if_;
   mkToken (str "(") OParen; mkToken (str "true") bool_literal;
   mkToken (str ")") CParen; mkToken (str "x") Identifier;
   mkToken (str "=") Equals; mkToken (str "1") integer_literal;
   mkToken (str ";") Semicolon; mkToken (str "}") CCurlyBrace; EOF_token].

(** ** More vocabulary: what the lexer does outside the cited places *)

(** The lexemes [buildIdentifier] settles before it looks at [lastType]
    or at [user_defined_classnames]: the two boolean literals, the
    keywords and the default types. *)
Definition reserved (id : text) : Prop :=
  id = str "false" ∨ id = str "true" ∨ is_Some (KEYWORDS !! id)
  ∨ id ∈ DEFAULT_TYPES.

(** The set [user_defined_classnames] holds when a call of [tokenize]
    is over, however it ends. *)
Definition classnames_after (o : Outcome) : option (gset text) :=
  match o with
  | Returned _ classnames | Thrown _ classnames => Some classnames
  | OutOfFuel => None
  end.

(** The characters [parseIdentifier] goes on with. *)
Definition ident_char (c : ascii) : bool :=
  isInt_char c || isAlpha_char c || bool_decide (c = "_"%char).

(** The text does not go on with a character accepted by [p]. *)
Definition stops (p : ascii → bool) (rest : text) : Prop :=
  match rest with
  | [] => True
  | c :: _ => p c = false
  end.

(** The [case]s of the [switch] that end in
    [nextCharacterIsSame() ? handleDoubleCharacter( d ) : handleSingleCharacter( s )],
    as (character, [d], [s]). *)
Definition double_operators : list (ascii * TokenType * TokenType) :=
  [ ("<"%char, ShiftLeft, LessThan); (">"%char, ShiftRight, GreaterThan);
    ("+"%char, PlusPlus, Plus); ("*"%char, Exponent, Multiply);
    (":"%char, ColonColon, Colon); ("&"%char, ANDAND, AND);
    ("|"%char, OROR, OR); ("="%char, EqualsEquals, Equals) ].

(** The lexer on [a = -b], at the sign. *)
Definition after_equals : State :=
  mkState (str "a = -b")
    [mkToken (str "a") Identifier; mkToken (str "=") Equals] 4 Equals ∅.

(** The lexer on [a =   b], after the [=]. *)
Definition before_blanks : State :=
  mkState (str "a =   b")
    [mkToken (str "a") Identifier; mkToken (str "=") Equals] 3 Equals ∅.

(** The text of the kinds that have one: the operators and punctuation
    as the comments of [enum Type] give them, the keywords as the table
    [KEYWORDS] does, and the empty text of [EOF_]. *)
Definition spelling (t : TokenType) : option text :=
  match t with
  | Equals => Some (str "=") | EqualsEquals => Some (str "==")
  | NotEquals => Some (str "!=") | GreaterThan => Some (str ">")
  | LessThan => Some (str "<") | ShiftLeft => Some (str "<<")
  | ShiftRight => Some (str ">>") | Plus => Some (str "+")
  | Minus => Some (str "-") | Divide => Some (str "/")
  | Multiply => Some (str "*") | Exponent => Some (str "**")
  | Modulus => Some (str "%") | AND => Some (str "&")
  | ANDAND => Some (str "&&") | OR => Some (str "|")
  | OROR => Some (str "||") | Dot => Some (str ".")
  | ColonColon => Some (str "::") | MinusMinus => Some (str "--")
  | Not => Some (str "!") | PlusPlus => Some (str "++")
  | Pointer => Some (str "->") | Reference => Some (str "~")
  | Semicolon => Some (str ";") | Colon => Some (str ":")
  | Comma => Some (str ",")
  | OParen => Some (str "(") | CParen => Some (str ")")
  | OCurlyBrace => Some (str "{") | CCurlyBrace => Some (str "}")
  | for_ => Some (str "for") | while_ => Some (str "while")
  | public_ => Some (str "public") | private_ => Some (str "private")
  | protected_ => Some (str "protected") | cast_ => Some (str "cast")
  | return_ => Some (str "return") | null_ => Some (str "null")
  | in_ => Some (str "in") | if_ => Some (str "if")
  | namespace_ => Some (str "namespace") | mutable_ => Some (str "mutable")
  | class_ => Some (str "class")
  | EOF_ => Some []
  | _ => None
  end.

(** A token whose kind and text agree. *)
Definition kind_fits (tk : Token) : Prop :=
  match spelling (type tk) with
  | Some s => value tk = s
  | None =>
      match type tk with
      | KeyWord | constexpr_ => False
      | bool_literal => value tk = str "false" ∨ value tk = str "true"
      | PrimitiveType => value tk ∈ DEFAULT_TYPES ∧ value tk ≠ str "String"
      | ClassType => value tk = str "String" ∨ ¬ reserved (value tk)
      | Identifier => ¬ reserved (value tk)
      | _ => True
      end
  end.

(** The lexer on [class Foo], at the name. *)
Definition after_class : State :=
  mkState (str "class Foo;") [mkToken (str "class") class_] 6 class_ ∅.

(** The node [parsePrimaryExpression] builds from a literal token. *)
Definition literal_of (tk : Token) : option ast.Expression :=
  match type tk with
  | negative_integer_literal =>
      Some (ast.NumericLiteral ast.int64_t (value tk))
  | integer_literal => Some (ast.NumericLiteral ast.uint64_t (value tk))
  | float_literal => Some (ast.NumericLiteral ast.double (value tk))
  | string_literal => Some (ast.StringLiteral (value tk))
  | char_literal => Some (ast.CharacterLiteral (value tk))
  | bool_literal =>
      Some (ast.BoolLiteral (bool_decide (value tk = str "true")))
  | _ => None
  end.

(** The test of the loop of [parseAdditiveExpression], which is on the
    text of the token. *)
Definition additive_text (tk : Token) : bool :=
  bool_decide (value tk = str "+") || bool_decide (value tk = str "-").

(** Which loop of the expression ladder, counted from
    [parseAdditiveExpression] inwards, takes a token that follows an
    operand as its operator; 0 when none of the four does. *)
Definition level (tk : Token) : nat :=
  if Parser.is_type tk Dot then 4
  else if Parser.is_type tk Exponent then 3
  else if isMultParseLevel tk then 2
  else if additive_text tk then 1
  else 0.

(** The tokens of [a = #], of [int32 x ;] and of [mutable int32 = 1 ;]. *)
Definition before_hash : State :=
  mkState (str "a = #")
    [mkToken (str "a") Identifier; mkToken (str "=") Equals] 4 Equals ∅.

Definition int32_x : TokenList :=
  [mkToken (str "int32") PrimitiveType; mkToken (str "x") Identifier;
   mkToken (str ";") Semicolon; EOF_token].

Definition mutable_int32_equals : TokenList :=
  [mkToken (str "mutable") mutable_; mkToken (str "int32") PrimitiveType;
   mkToken (str "=") Equals; mkToken (str "1") integer_literal;
   mkToken (str ";") Semicolon; EOF_token].

(** A chain of operators, each with the literal token to its right and
    the node of that token: its tokens, and the tree a loop of the
    expression ladder folds it into. *)
Definition chain_tokens (chain : list (Token * Token * ast.Expression))
  : TokenList :=
  flat_map (λ '(op, tk, _), [op; tk]) chain.

Definition chain_fold (left : ast.Expression)
  (chain : list (Token * Token * ast.Expression)) : ast.Expression :=
  fold_left (λ acc '(op, _, e), ast.BinaryExpression acc (value op) e)
    chain left.

(** The tree of [x op1 y op2 z] when the second operator binds first,
    and when the first does. *)
Definition right_nested (ex : ast.Expression) (op1 : Token)
  (ey : ast.Expression) (op2 : Token) (ez : ast.Expression)
  : ast.Expression :=
  ast.BinaryExpression ex (value op1)
    (ast.BinaryExpression ey (value op2) ez).

Definition left_nested (ex : ast.Expression) (op1 : Token)
  (ey : ast.Expression) (op2 : Token) (ez : ast.Expression)
  : ast.Expression :=
  ast.BinaryExpression (ast.BinaryExpression ex (value op1) ey)
    (value op2) ez.

(** The tokens of [1 - 2 * 3 ;] and of [2 ** 3 ** 4 ;]. *)
Definition one_minus_two_times_three : TokenList :=
  [mkToken (str "1") integer_literal; mkToken (str "-") Minus;
   mkToken (str "2") integer_literal; mkToken (str "*") Multiply;
   mkToken (str "3") integer_literal; mkToken (str ";") Semicolon;
   EOF_token].

Definition two_pow_three_pow_four : TokenList :=
  [mkToken (str "2") integer_literal; mkToken (str "**") Exponent;
   mkToken (str "3") integer_literal; mkToken (str "**") Exponent;
   mkToken (str "4") integer_literal; mkToken (str ";") Semicolon;
   EOF_token].

(** The arguments of a call: each a literal token with its node and
    the comma after it, if there is one. *)
Definition args_tokens (args : list (Token * ast.Expression * option Token))
  : TokenList :=
  flat_map (λ '(tk, _, sep), tk :: option_list sep) args.

Definition args_nodes (args : list (Token * ast.Expression * option Token))
  : list ast.Statement :=
  map (λ '(_, e, _), ast.StatementExpression e) args.

(** The tokens of [f(1 2,)], of [if (true) class], of [public: }] and of
    [namespace a {]. *)
Definition f_1_2_comma : TokenList :=
  [mkToken (str "f") Identifier; mkToken (str "(") OParen;
   mkToken (str "1") integer_literal; mkToken (str "2") integer_literal;
   mkToken (str ",") Comma; mkToken (str ")") CParen; EOF_token].

Definition if_true_class : TokenList :=
  [mkToken (str "if") if_; mkToken (str "(") OParen;
   mkToken (str "true") bool_literal; mkToken (str ")") CParen;
   mkToken (str "class") class_; EOF_token].

Definition public_colon_brace : TokenList :=
  [mkToken (str "public") public_; mkToken (str ":") Colon;
   mkToken (str "}") CCurlyBrace; EOF_token].

Definition namespace_a_open : TokenList :=
  [mkToken (str "namespace") namespace_; mkToken (str "a") Identifier;
   mkToken (str "{") OCurlyBrace; EOF_token].

Definition f_open_mutable : TokenList :=
  [mkToken (str "void") PrimitiveType; mkToken (str "f") Identifier;
   mkToken (str "(") OParen; mkToken (str "mutable") mutable_; EOF_token].

(** The operators the lexer produces and no method of the parser
    tests for. *)
Definition unparsed_operators : list TokenType :=
  [GreaterThan; LessThan; ShiftLeft; ShiftRight; AND; ANDAND; OR; OROR;
   ColonColon; MinusMinus; Not; PlusPlus].

(** The tokens of [1 < 2 ;] and of [return ; }]. *)
Definition one_less_two : TokenList :=
  [mkToken (str "1") integer_literal; mkToken (str "<") LessThan;
   mkToken (str "2") integer_literal; mkToken (str ";") Semicolon;
   EOF_token].

Definition return_semicolon : TokenList :=
  [mkToken (str "return") return_; mkToken (str ";") Semicolon;
   mkToken (str "}") CCurlyBrace; EOF_token].

(** A run of a parser method from index [k] that does not end for want
    of fuel and, when it returns, has moved the index forward without
    leaving the token vector; [advances] when it has eaten at least one
    token. *)
Definition proceeds {A} (tokens : TokenList) (m : Parser.M A) (k : nat)
  : Prop :=
  m k ≠ Parser.NoFuel
  ∧ ∀ a k', m k = Parser.Ok a k' → k ≤ k' ∧ k' ≤ length tokens.

Definition advances {A} (tokens : TokenList) (m : Parser.M A) (k : nat)
  : Prop :=
  m k ≠ Parser.NoFuel
  ∧ ∀ a k', m k = Parser.Ok a k' → k < k' ∧ k' ≤ length tokens.

(** The fuel that is enough for a statement or an expression, and for a
    variable declaration, at index [k]. *)
Definition enough (tokens : TokenList) (k : nat) : nat :=
  2 * (length tokens - k) + 2.

(** What the calls of a table do at the indices from [k0] on: those of
    the statement and expression methods behind [k0], that of
    [parseVariableDeclaration] from [k0] itself. *)
Record calls_advance (tokens : TokenList) (self : Parser.Calls) (k0 : nat)
  : Prop := mkCallsAdvance {
  adv_parseStatement :
    ∀ b k, k0 < k → advances tokens (Parser.call_parseStatement self b) k;
  adv_parseExpression :
    ∀ b k, k0 < k → advances tokens (Parser.call_parseExpression self b) k;
  adv_parseAssignmentExpression :
    ∀ b k, k0 < k →
           advances tokens (Parser.call_parseAssignmentExpression self b) k;
  adv_parseAdditiveExpression :
    ∀ k, k0 < k →
         advances tokens (Parser.call_parseAdditiveExpression self) k;
  adv_parseVariableDeclaration :
    ∀ k, k0 ≤ k →
         advances tokens (Parser.call_parseVariableDeclaration self) k
}.

(** A run that gives the same result as another unless it stops for
    want of fuel; and the same of two tables of calls. *)
Definition below {A} (m m' : Parser.M A) : Prop :=
  ∀ k, m k = Parser.NoFuel ∨ m k = m' k.

Record calls_below (self self' : Parser.Calls) : Prop := mkCallsBelow {
  below_call_parseStatement :
    ∀ b, below (Parser.call_parseStatement self b)
           (Parser.call_parseStatement self' b);
  below_call_parseExpression :
    ∀ b, below (Parser.call_parseExpression self b)
           (Parser.call_parseExpression self' b);
  below_call_parseAssignmentExpression :
    ∀ b, below (Parser.call_parseAssignmentExpression self b)
           (Parser.call_parseAssignmentExpression self' b);
  below_call_parseAdditiveExpression :
    below (Parser.call_parseAdditiveExpression self)
      (Parser.call_parseAdditiveExpression self');
  below_call_parseVariableDeclaration :
    below (Parser.call_parseVariableDeclaration self)
      (Parser.call_parseVariableDeclaration self')
}.

(** * Properties of the lexer *)

Module LexerFacts.

(** ** One pass of the loop *)

Lemma extends_refl st : extends st st.
Proof. repeat split; auto. Qed.

(** Reduces the fields of a lexer built by the setters. *)
Ltac simpl_state :=
  cbn [srctext tokens i lastType user_defined_classnames
       set_i push_back insert_classname fst snd] in *.

(** Closes [extends st st'] once [st'] is an explicit record built from
    [st]. *)
Ltac solve_extends :=
  unfold extends; simpl_state;
  split; [reflexivity|];
  split; [set_solver|];
  first [ left; split; reflexivity
        | right; eexists _, _; split; [reflexivity|];
          split; [reflexivity|]; first [ discriminate | eassumption ] ].

Lemma handleSingleCharacter_extends ty st :
  ty ≠ EOF_ → extends st (handleSingleCharacter ty st).
Proof. intros. unfold handleSingleCharacter, push_back. solve_extends. Qed.

Lemma handleDoubleCharacter_extends ty st :
  ty ≠ EOF_ → extends st (handleDoubleCharacter ty st).
Proof.
  intros. unfold handleDoubleCharacter, push_back, set_i. solve_extends.
Qed.

Lemma doubleOrSingle_extends d s st :
  d ≠ EOF_ → s ≠ EOF_ → extends st (doubleOrSingle d s st).
Proof.
  intros. unfold doubleOrSingle.
  destruct (nextCharacterIsSame st);
    auto using handleSingleCharacter_extends, handleDoubleCharacter_extends.
Qed.

Lemma skipComment_extends st : extends st (skipComment st).
Proof. unfold skipComment, while_append, set_i. solve_extends. Qed.

Lemma buildChar_extends st : extends st (buildChar st).
Proof. unfold buildChar, push_back, set_i. solve_extends. Qed.

Lemma buildNumber_extends neg st : extends st (buildNumber neg st).
Proof.
  unfold buildNumber, while_append, push_back, set_i.
  case_match; [destruct neg|]; solve_extends.
Qed.

Lemma KEYWORDS_not_EOF id kw : KEYWORDS !! id = Some kw → kw ≠ EOF_.
Proof.
  unfold KEYWORDS. intros H%elem_of_list_to_map_2.
  repeat (apply elem_of_cons in H as [H|H]; [by inversion H|]).
  by apply elem_of_nil in H.
Qed.

Lemma buildIdentifier_extends st : extends st (buildIdentifier st).
Proof.
  unfold buildIdentifier, parseIdentifier, while_append. simpl_state.
  destruct (_ || _); [solve_extends|].
  destruct (KEYWORDS !! _) eqn:Hk;
    [apply KEYWORDS_not_EOF in Hk; solve_extends|].
  repeat (destruct (bool_decide _); try solve_extends).
Qed.

Lemma buildString_extends st st' :
  buildString st = Continue st' → extends st st'.
Proof.
  unfold buildString. intros H.
  destruct (_ && _); [simplify_eq; solve_extends|].
  destruct (buildString_loop _ _ _) as [[s k]|]; [|done].
  destruct (_ && _); simplify_eq. solve_extends.
Qed.

(** The [if] chain of [tokenize_body], one test at a time. *)
Ltac view_branch :=
  match goal with
  | |- body_view _ (if ?b then _ else _) => destruct b eqn:?
  end.

Ltac view_leaf :=
  unfold doubleOrSingle;
  try match goal with
      | |- body_view _ (Continue (if ?b then _ else _)) => destruct b
      end;
  first [ by apply view_single | by apply view_double
        | by apply view_skip | apply view_negative | apply view_comment
        | apply view_char
        | by apply view_number | by apply view_identifier
        | first [ apply view_dot_number | apply view_string ];
          match goal with
          | H : bool_decide _ = true |- _ =>
              exact (proj1 (bool_decide_eq_true _) H)
          end ].

Lemma tokenize_body_view st : body_view st (tokenize_body st).
Proof.
  unfold tokenize_body. cbv zeta.
  do 11 (view_branch; [view_leaf|]).
  view_branch; [repeat (view_branch; [view_leaf|]); view_leaf|].
  view_branch; [view_leaf|].
  view_branch; [view_branch; view_leaf|].
  do 5 (view_branch; [view_leaf|]).
  view_branch; [view_branch; view_leaf|].
  view_branch; [view_branch; view_leaf|].
  do 4 (view_branch; [view_leaf|]).
  apply view_unrecognized.
  unfold recognized, switch_char, isSkippable, isInt, isAlpha in *.
  repeat match goal with H : _ = false |- _ => rewrite H; clear H end.
  reflexivity.
Qed.

Lemma tokenize_body_extends st st' :
  tokenize_body st = Continue st' → extends st st'.
Proof.
  destruct (tokenize_body_view st); intros; simplify_eq;
    eauto using extends_refl, handleSingleCharacter_extends,
      handleDoubleCharacter_extends, skipComment_extends,
      buildNumber_extends, buildChar_extends, buildIdentifier_extends,
      buildString_extends.
  pose proof (buildNumber_extends true (set_i (S (i st)) st)) as HX.
  revert HX. unfold extends. simpl_state. tauto.
Qed.

(** ** Every pass moves forward *)

Lemma drop_at st :
  i st < LENGTH st →
  drop (i st) (srctext st) = at_ st (i st) :: drop (S (i st)) (srctext st).
Proof.
  unfold LENGTH, at_. intros H.
  destruct (lookup_lt_is_Some_2 _ _ H) as [c Hc]. rewrite Hc.
  by apply drop_S.
Qed.

Lemma span_cons_true p c l : p c = true → span p (c :: l) = c :: span p l.
Proof. simpl. by intros ->. Qed.

Lemma span_cons_false p c l : p c = false → span p (c :: l) = [].
Proof. simpl. by intros ->. Qed.

Lemma span_all p l : forallb p l = true → span p l = l.
Proof.
  induction l as [|c l IH]; simpl; [done|].
  intros [-> ?]%andb_true_iff. by rewrite IH.
Qed.

Lemma span_app p l c r :
  forallb p l = true → p c = false → span p (l ++ c :: r) = l.
Proof.
  induction l as [|d l IH]; simpl; intros Hl Hc; [by rewrite Hc|].
  apply andb_true_iff in Hl as [-> ?]. by rewrite IH.
Qed.

Lemma buildNumber_i neg st : i st - 1 ≤ i (buildNumber neg st).
Proof.
  unfold buildNumber, while_append. simpl_state.
  case_match; simpl_state; lia.
Qed.

Lemma buildNumber_i_start st :
  i st < LENGTH st →
  at_ st (i st) = "."%char ∨ isInt st = true →
  i st ≤ i (buildNumber false st).
Proof.
  intros Hlt Hc. unfold buildNumber, while_append.
  rewrite drop_at by done. unfold isInt, at_, LENGTH in *. simpl_state.
  destruct Hc as [Hc|Hc].
  - rewrite Hc, span_cons_false by done. simpl length.
    replace (i st + 0) with (i st) by lia.
    rewrite Hc. rewrite (bool_decide_eq_false_2 (_ ≠ _)) by auto.
    rewrite andb_false_r. simpl_state. lia.
  - rewrite span_cons_true by done. simpl length.
    case_match; simpl_state; lia.
Qed.

Lemma buildIdentifier_i st :
  i st < LENGTH st → isAlpha st = true → i st ≤ i (buildIdentifier st).
Proof.
  intros Hlt Hc. unfold buildIdentifier, parseIdentifier, while_append.
  simpl_state. rewrite drop_at by done. unfold isAlpha in Hc.
  rewrite span_cons_true by (rewrite Hc; apply orb_true_r || by destruct isInt_char).
  simpl length.
  destruct (_ || _); [simpl_state; lia|].
  destruct (KEYWORDS !! _); [simpl_state; lia|].
  repeat (destruct (bool_decide _); try (simpl_state; lia)).
Qed.

Lemma buildString_loop_bounds rest k s s' k' :
  buildString_loop rest k s = Some (s', k') →
  k ≤ k' ∧ (k' = k + length rest ∨ rest !! (k' - k) = Some DQUOTE).
Proof.
  revert k s. induction rest as [|c rest IH]; simpl; intros k s H.
  - simplify_eq. split; [lia|]. left. lia.
  - case_bool_decide as Hq.
    + simplify_eq. split; [lia|]. right. by rewrite Nat.sub_diag.
    + destruct (_ || _); [done|].
      apply IH in H as [? [->|H]]; (split; [lia|]).
      * left. simpl. lia.
      * right. replace (k' - k) with (S (k' - S k)) by lia. done.
Qed.

Lemma buildString_i st st' :
  buildString st = Continue st' → i st ≤ i st'.
Proof.
  unfold buildString. intros H.
  destruct (_ && _); [by simplify_eq|].
  destruct (buildString_loop _ _ _) as [[s k]|] eqn:Hl; [|done].
  apply buildString_loop_bounds in Hl as [? _].
  destruct (_ && _); simplify_eq. simpl_state. lia.
Qed.

Lemma tokenize_body_progress st st' :
  i st < LENGTH st → tokenize_body st = Continue st' → i st ≤ i st'.
Proof.
  intros Hlt.
  destruct (tokenize_body_view st); intros; simplify_eq;
    try (unfold handleSingleCharacter, handleDoubleCharacter, skipComment,
           while_append, buildChar; simpl_state; lia).
  - pose proof (buildNumber_i true (set_i (S (i st)) st)).
    simpl_state. lia.
  - apply buildNumber_i_start; auto.
  - apply buildNumber_i_start; auto.
  - by apply buildString_i.
  - by apply buildIdentifier_i.
Qed.

(** ** The loop *)

Lemma tokenize_loop_step fuel st :
  i st < LENGTH st →
  tokenize_loop (S fuel) st =
    match tokenize_body st with
    | Continue st' => tokenize_loop fuel (next st')
    | ReturnEmpty st' => Returned [] (user_defined_classnames st')
    | Throw msg st' => Thrown msg (user_defined_classnames st')
    end.
Proof. intros. simpl. by rewrite bool_decide_eq_true_2. Qed.

Lemma tokenize_loop_done fuel st :
  ¬ i st < LENGTH st →
  tokenize_loop fuel st =
    Returned (tokens st ++ [mkToken [] EOF_]) (user_defined_classnames st).
Proof. intros. destruct fuel; simpl; by rewrite bool_decide_eq_false_2. Qed.

Lemma next_measure st st' :
  i st < LENGTH st → tokenize_body st = Continue st' →
  LENGTH (next st') - i (next st') < LENGTH st - i st.
Proof.
  intros Hlt Hb.
  pose proof (tokenize_body_progress _ _ Hlt Hb).
  apply tokenize_body_extends in Hb as [Hs _].
  unfold LENGTH, next in *. simpl_state. rewrite Hs. lia.
Qed.

(** [length src] passes are enough: the loop never runs out of fuel. *)
Lemma tokenize_loop_total fuel st :
  LENGTH st - i st ≤ fuel → tokenize_loop fuel st ≠ OutOfFuel.
Proof.
  revert st. induction fuel as [|fuel IH]; intros st Hf.
  - rewrite tokenize_loop_done by lia. done.
  - destruct (decide (i st < LENGTH st)) as [Hlt|Hge];
      [|by rewrite tokenize_loop_done].
    rewrite tokenize_loop_step by done.
    destruct (tokenize_body st) as [st'| |] eqn:Hb; try done.
    apply IH. pose proof (next_measure _ _ Hlt Hb). lia.
Qed.

(** More fuel than needed changes nothing. *)
Lemma tokenize_loop_fuel fuel fuel' st :
  LENGTH st - i st ≤ fuel → LENGTH st - i st ≤ fuel' →
  tokenize_loop fuel st = tokenize_loop fuel' st.
Proof.
  revert fuel' st. induction fuel as [|fuel IH]; intros fuel' st Hf Hf'.
  - rewrite !tokenize_loop_done by lia. done.
  - destruct (decide (i st < LENGTH st)) as [Hlt|Hge];
      [|by rewrite !tokenize_loop_done].
    destruct fuel' as [|fuel']; [lia|].
    rewrite !tokenize_loop_step by done.
    destruct (tokenize_body st) as [st'| |] eqn:Hb; try done.
    pose proof (next_measure _ _ Hlt Hb). apply IH; lia.
Qed.

Lemma tokenize_total classnames src : tokenize classnames src ≠ OutOfFuel.
Proof. apply tokenize_loop_total. unfold LENGTH. simpl. lia. Qed.

(** From a state the loop reaches, the loop goes on as [tokenize] does. *)
Lemma passes_loop n st st' fuel :
  passes n st = Some st' → LENGTH st - i st ≤ fuel →
  tokenize_loop fuel st = tokenize_loop (LENGTH st' - i st') st'.
Proof.
  revert st fuel. induction n as [|n IH]; simpl; intros st fuel Hp Hf.
  - simplify_eq. by apply tokenize_loop_fuel.
  - case_bool_decide as Hlt; [|done].
    destruct (tokenize_body st) as [st1| |] eqn:Hb; try done.
    destruct fuel as [|fuel]; [lia|].
    rewrite tokenize_loop_step, Hb by done.
    apply IH; [done|]. pose proof (next_measure _ _ Hlt Hb). lia.
Qed.

Lemma reaches_tokenize classnames src st :
  reaches classnames src st →
  tokenize classnames src = tokenize_loop (LENGTH st - i st) st.
Proof.
  intros [n Hn]. unfold tokenize.
  eapply passes_loop; [done|]. unfold LENGTH. simpl. lia.
Qed.

Lemma extends_next st st' : extends st st' → extends st (next st').
Proof. unfold extends, next. by simpl_state. Qed.

Lemma extends_inv classnames src st st' :
  reached_inv classnames src st → extends st st' →
  reached_inv classnames src st'.
Proof.
  intros [Hs Hc Ht Hl] (Hs' & Hc' & Ht'). split.
  - congruence.
  - by transitivity (user_defined_classnames st).
  - destruct Ht' as [[-> _]|(v & ty & -> & _ & ?)]; [done|].
    apply Forall_app. split; [done|]. by apply Forall_singleton.
  - destruct Ht' as [[-> ->]|(v & ty & -> & -> & ?)]; [done|].
    by rewrite last_snoc.
Qed.

Lemma passes_inv classnames src n st st' :
  reached_inv classnames src st → passes n st = Some st' →
  reached_inv classnames src st'.
Proof.
  revert st. induction n as [|n IH]; simpl; intros st Hinv Hp.
  - by simplify_eq.
  - case_bool_decide; [|done].
    destruct (tokenize_body st) as [st1| |] eqn:Hb; try done.
    apply (IH (next st1)); [|done].
    eapply extends_inv; [done|].
    by apply extends_next, tokenize_body_extends.
Qed.

Lemma reaches_inv classnames src st :
  reaches classnames src st → reached_inv classnames src st.
Proof.
  intros [n Hn]. eapply passes_inv; [|done].
  split; simpl; auto.
Qed.

(** ** Reading the source at the index *)

Lemma drop_cons_inv st c r :
  drop (i st) (srctext st) = c :: r →
  i st < LENGTH st ∧ at_ st (i st) = c ∧ drop (S (i st)) (srctext st) = r.
Proof.
  intros H. assert (srctext st !! i st = Some c) as Hc.
  { rewrite <- (Nat.add_0_r (i st)), <- lookup_drop, H. done. }
  split; [by eapply lookup_lt_Some|]. split; [unfold at_; by rewrite Hc|].
  rewrite <- Nat.add_1_r, <- drop_drop, H. done.
Qed.

Lemma at_drop st k c r :
  drop k (srctext st) = c :: r → at_ st k = c.
Proof.
  intros H. unfold at_.
  by rewrite <- (Nat.add_0_r k), <- lookup_drop, H.
Qed.

Lemma at_end st k : LENGTH st ≤ k → at_ st k = NUL.
Proof. intros. unfold at_. by rewrite lookup_ge_None_2. Qed.

Lemma isInt_char_not_special c :
  isInt_char c = true →
  isSkippable_char c = false ∧ switch_char c = false.
Proof.
  destruct c as [[] [] [] [] [] [] [] []]; vm_compute; intros; by simplify_eq.
Qed.

(** The [default] case of the [switch]. *)
Lemma tokenize_body_default st :
  isSkippable st = false → switch_char (at_ st (i st)) = false →
  tokenize_body st =
    if isInt st then Continue (buildNumber false st)
    else if isAlpha st then Continue (buildIdentifier st)
    else ReturnEmpty st.
Proof.
  unfold switch_char. intros Hs H.
  repeat (apply orb_false_iff in H as [H ?]).
  unfold tokenize_body. cbv zeta. rewrite Hs.
  repeat match goal with H : _ = false |- _ => rewrite H; clear H end.
  done.
Qed.

Lemma tokenize_body_unrecognized st :
  recognized (at_ st (i st)) = false → tokenize_body st = ReturnEmpty st.
Proof.
  unfold recognized. intros H.
  do 3 (apply orb_false_iff in H as [H ?]).
  rewrite tokenize_body_default by assumption.
  unfold isInt, isAlpha.
  by repeat match goal with H : _ = false |- _ => rewrite H; clear H end.
Qed.

Lemma buildString_not_ReturnEmpty st st' : buildString st ≠ ReturnEmpty st'.
Proof.
  unfold buildString. destruct (_ && _); [done|].
  destruct (buildString_loop _ _ _) as [[s k]|]; [|done].
  by destruct (_ && _).
Qed.

Lemma tokenize_body_ReturnEmpty st st' :
  tokenize_body st = ReturnEmpty st' →
  st' = st ∧ recognized (at_ st (i st)) = false.
Proof.
  destruct (tokenize_body_view st); intros; simplify_eq; auto.
  by destruct (buildString_not_ReturnEmpty st st').
Qed.

End LexerFacts.

Import LexerFacts.

(** * Theorems about the lexer *)

Lemma tokenize_loop_EOF fuel st :
  Forall (λ tk, type tk ≠ EOF_) (tokens st) →
  match tokenize_loop fuel st with
  | Returned toks _ =>
      (toks = [] ∧ ∃ c, c ∈ srctext st ∧ recognized c = false)
      ∨ EOF_terminated toks
  | _ => True
  end.
Proof.
  revert st. induction fuel as [|fuel IH]; intros st Htoks.
  - simpl. case_bool_decide; [done|]. right. by exists (tokens st).
  - destruct (decide (i st < LENGTH st)) as [Hlt|Hge].
    + rewrite tokenize_loop_step by done.
      destruct (tokenize_body st) as [st'|st'|] eqn:Hb; [| |done].
      * pose proof (tokenize_body_extends _ _ Hb) as Hext.
        specialize (IH (next st')).
        replace (srctext (next st')) with (srctext st) in IH
          by (symmetry; apply Hext).
        apply IH. unfold next. simpl_state. destruct Hext as (_ & _ & [[-> _]|(v & ty & -> & _ & ?)]);
          [done|].
        apply Forall_app. split; [done|]. by apply Forall_singleton.
      * apply tokenize_body_ReturnEmpty in Hb as [-> Hc].
        left. split; [done|]. exists (at_ st (i st)). split; [|done].
        apply (list_elem_of_lookup_2 _ (i st)).
        destruct (lookup_lt_is_Some_2 (srctext st) (i st) Hlt) as [c Hx].
        unfold at_. by rewrite Hx.
    + rewrite tokenize_loop_done by done. right. by exists (tokens st).
Qed.

(** C1, as the code has it.  Whenever [tokenize] returns, the token list
    is either empty, which happens only when the source holds a character
    the lexer has no rule for, or it ends with the [EOF_] token and holds
    no other token of kind [EOF_]; and [tokenize] always terminates. *)
Theorem tokenize_EOF_terminated_or_empty classnames src :
  match tokenize classnames src with
  | Returned toks _ =>
      (toks = [] ∧ ∃ c, c ∈ src ∧ recognized c = false)
      ∨ EOF_terminated toks
  | Thrown _ _ => True
  | OutOfFuel => False
  end.
Proof.
  pose proof (tokenize_total classnames src) as Htot.
  pose proof (tokenize_loop_EOF (length src) (init classnames src)) as H.
  unfold tokenize in *.
  destruct (tokenize_loop _ _); [|done|done].
  apply H. constructor.
Qed.

(** C1 fails as stated: on a source with a character the lexer does not
    recognize, the returned list is empty and so has no last token. *)
Lemma tokenize_EOF_counterexample :
  tokenize ∅ (str "x @") = Returned [] ∅
  ∧ ¬ (∃ tk, last ([] : TokenList) = Some tk ∧ type tk = EOF_).
Proof. split; [by vm_compute|]. by intros (tk & ? & _). Qed.

(** ** Errors *)

Lemma buildString_loop_None rest k s :
  buildString_loop rest k s = None →
  ∃ n, (rest !! n = Some LF ∨ rest !! n = Some CR)
       ∧ ∀ m, m < n → rest !! m ≠ Some DQUOTE.
Proof.
  revert k s. induction rest as [|c rest IH]; simpl; intros k s H; [done|].
  case_bool_decide as Hq; [done|].
  destruct (_ || _) eqn:Hnl.
  - exists 0. split; [|lia].
    apply orb_true_iff in Hnl as [Hc|Hc]; apply bool_decide_eq_true in Hc;
      subst; auto.
  - apply IH in H as (n & Hn & Hm). exists (S n). split; [done|].
    intros [|m] ?; simpl; [congruence|]. apply Hm. lia.
Qed.


Lemma buildString_Throw st msg st' :
  i st < LENGTH st → at_ st (i st) = DQUOTE →
  buildString st = Throw msg st' →
  msg = invalid_string
  ∧ user_defined_classnames st' = user_defined_classnames st
  ∧ raw_newline_in_string (srctext st).
Proof.
  intros Hlt Hq. unfold buildString.
  destruct (_ && _); [done|].
  destruct (buildString_loop _ _ _) as [[s k]|] eqn:Hl.
  - apply buildString_loop_bounds in Hl as [? Hk]. simpl_state.
    rewrite length_drop in Hk.
    destruct (_ && _) eqn:Hc; [|done].
    apply andb_true_iff in Hc as [Hc1%bool_decide_eq_true Hc2%bool_decide_eq_true].
    unfold LENGTH, at_ in *. simpl_state.
    destruct Hk as [->|Hk]; [lia|].
    rewrite lookup_drop in Hk. destruct Hc2.
    replace (S (i st) + (k - S (i st))) with k in Hk by lia. by rewrite Hk.
  - intros [= <- <-]. split; [done|]. split; [done|].
    apply buildString_loop_None in Hl as (n & Hn & Hm).
    exists (i st), (S (i st) + n). rewrite <- !lookup_drop.
    split; [lia|]. split.
    { unfold at_, LENGTH in *.
      destruct (lookup_lt_is_Some_2 (srctext st) (i st) Hlt) as [c Hc].
      rewrite Hc in Hq. by simplify_eq/=. }
    split; [done|]. intros m ?.
    replace m with (S (i st) + (m - S (i st))) by lia.
    rewrite <- lookup_drop. apply Hm. lia.
Qed.

Lemma tokenize_body_Throw st msg st' :
  i st < LENGTH st → tokenize_body st = Throw msg st' →
  msg = invalid_string
  ∧ user_defined_classnames st' = user_defined_classnames st
  ∧ raw_newline_in_string (srctext st).
Proof.
  intros Hlt. destruct (tokenize_body_view st); intros; simplify_eq.
  by apply buildString_Throw.
Qed.


(** The double quote's [case] of the [switch]. *)
Lemma tokenize_body_string st :
  at_ st (i st) = DQUOTE → tokenize_body st = buildString st.
Proof.
  intros H. unfold tokenize_body, isSkippable. cbv zeta. by rewrite !H.
Qed.








(** ** Numbers *)

Lemma drop_app_inv (src : text) k l r :
  drop k src = l ++ r → drop (k + length l) src = r.
Proof. intros H. by rewrite <- drop_drop, H, drop_app_length. Qed.

Lemma drop_length_inv (src : text) k l :
  drop k src = l → k ≤ length src → length src = k + length l.
Proof. intros <- ?. rewrite length_drop. lia. Qed.

Lemma drop_cons_length (src : text) k c r :
  drop k src = c :: r → length src = k + S (length r).
Proof.
  intros H. assert (k < length src).
  { apply (lookup_lt_Some src k c).
    by rewrite <- (Nat.add_0_r k), <- lookup_drop, H. }
  apply (f_equal length) in H. rewrite length_drop in H. simpl in H. lia.
Qed.

(** Digits followed by a character that is neither a digit nor a dot. *)
Lemma buildNumber_integer neg st digits c rest :
  drop (i st) (srctext st) = digits ++ c :: rest →
  forallb isInt_char digits = true → isInt_char c = false → c ≠ "."%char →
  buildNumber neg st
  = set_i (i st + length digits - 1)
      (push_back (sign neg ++ digits) (integer_kind neg) st).
Proof.
  intros Hd Hds Hc Hdot. unfold buildNumber, while_append.
  rewrite Hd, span_app by done. simpl_state.
  pose proof (drop_app_inv _ _ _ _ Hd) as Hd'.
  pose proof (drop_cons_length _ _ _ _ Hd').
  unfold LENGTH, at_. simpl_state.
  rewrite bool_decide_eq_true_2 by lia.
  rewrite <- (Nat.add_0_r (i st + _)), <- lookup_drop, Hd'. simpl.
  rewrite bool_decide_eq_true_2 by done. simpl.
  by destruct neg.
Qed.

(** Digits followed by a dot. *)
Lemma buildNumber_float neg st digits rest :
  drop (i st) (srctext st) = digits ++ "."%char :: rest →
  forallb isInt_char digits = true →
  buildNumber neg st
  = set_i (i st + length digits + length (span isInt_char rest))
      (push_back (sign neg ++ digits ++ "."%char :: span isInt_char rest)
         float_literal st).
Proof.
  intros Hd Hds. unfold buildNumber, while_append.
  rewrite Hd, span_app by done. simpl_state.
  pose proof (drop_app_inv _ _ _ _ Hd) as Hd'.
  pose proof Hd' as (_ & _ & Hd'')%(drop_cons_inv (set_i _ st)).
  simpl_state.
  rewrite (at_drop (set_i (i st + length digits) st) _ _ _ Hd').
  rewrite (bool_decide_eq_false_2 (_ ≠ _)) by auto.
  rewrite andb_false_r, Hd''. unfold set_i, push_back. simpl_state.
  f_equal; [|lia]. f_equal. by rewrite <- !app_assoc.
Qed.

(** Digits up to the end of the source: the test [i < LENGTH] of the
    integer branch fails, and the terminating NUL is appended. *)
Lemma buildNumber_at_end neg st digits :
  drop (i st) (srctext st) = digits → i st ≤ LENGTH st →
  forallb isInt_char digits = true →
  buildNumber neg st
  = set_i (LENGTH st)
      (push_back (sign neg ++ digits ++ [NUL]) float_literal st).
Proof.
  intros Hd Hi Hds. unfold buildNumber, while_append.
  rewrite Hd, span_all by done. simpl_state.
  pose proof (drop_length_inv _ _ _ Hd Hi) as HL.
  unfold LENGTH, at_ in *. simpl_state. rewrite <- HL.
  rewrite bool_decide_eq_false_2 by lia. simpl.
  rewrite lookup_ge_None_2 by lia. rewrite drop_ge by lia. simpl.
  unfold set_i, push_back. simpl_state.
  f_equal; [|lia]. f_equal. by rewrite <- !app_assoc.
Qed.

Lemma tokenize_body_digit st c r :
  drop (i st) (srctext st) = c :: r → isInt_char c = true →
  tokenize_body st = Continue (buildNumber false st).
Proof.
  intros (_ & Hc & _)%drop_cons_inv Hd.
  destruct (isInt_char_not_special _ Hd).
  rewrite tokenize_body_default; unfold isSkippable, isInt; rewrite Hc; try done.
  by rewrite Hd.
Qed.

(** C10.  When the loop stands at a run of digits that extends to the
    end of the source, [tokenize] returns the tokens so far, then a
    [float_literal] (whose text is the digits and the terminating NUL)
    and [EOF_]; when the same digits are followed by a character that is
    neither a dot nor a digit, the pass pushes an [integer_literal] with
    the digits as text and leaves [i] on the last digit. *)
Theorem trailing_integer_is_float classnames src st digits :
  reaches classnames src st →
  digits ≠ [] → forallb isInt_char digits = true →
  (drop (i st) src = digits →
   tokenize classnames src
   = Returned (tokens st ++ [mkToken (digits ++ [NUL]) float_literal;
                             EOF_token])
       (user_defined_classnames st))
  ∧ (∀ c rest,
       drop (i st) src = digits ++ c :: rest →
       c ≠ "."%char → isInt_char c = false →
       tokenize_body st
       = Continue (set_i (i st + length digits - 1)
                     (push_back digits integer_literal st))).
Proof.
  intros Hr Hne Hds.
  destruct (reaches_inv _ _ _ Hr) as [Hs _ _ _]. rewrite <- Hs.
  destruct digits as [|d digits]; [done|]. clear Hne.
  pose proof Hds as [Hd _]%andb_true_iff.
  split.
  - intros Hdrop. rewrite Hs, (reaches_tokenize _ _ _ Hr).
    pose proof Hdrop as (Hlt & _ & _)%drop_cons_inv.
    destruct (LENGTH st - i st) as [|fuel] eqn:Hf; [lia|].
    rewrite tokenize_loop_step by done.
    rewrite (tokenize_body_digit _ _ _ Hdrop Hd).
    rewrite (buildNumber_at_end false _ _ Hdrop) by (done || lia).
    rewrite tokenize_loop_done by (unfold next, LENGTH; simpl_state; lia).
    unfold next. simpl_state. by rewrite <- app_assoc.
  - intros c rest Hdrop Hdot Hc.
    rewrite (tokenize_body_digit st d (digits ++ c :: rest)) by done.
    by rewrite (buildNumber_integer false _ _ _ _ Hdrop).
Qed.

Lemma trailing_integer_is_float_witness :
  tokenize ∅ (str "x = 42")
  = Returned [mkToken (str "x") Identifier; mkToken (str "=") Equals;
              mkToken (str "42" ++ [NUL]) float_literal; EOF_token] ∅
  ∧ tokenize_body before_42_semicolon
    = Continue (set_i 5 (push_back (str "42") integer_literal
                           before_42_semicolon)).
Proof.
  split.
  - apply (proj1 (trailing_integer_is_float ∅ (str "x = 42") before_42
                    (str "42") ltac:(by exists 4) ltac:(done) ltac:(done))).
    done.
  - apply (proj2 (trailing_integer_is_float ∅ (str "x = 42;")
                    before_42_semicolon
                    (str "42") ltac:(by exists 4) ltac:(done) ltac:(done))
             ";"%char []); done.
Defined.

(** ** The minus sign *)

(** The ['-'] case of the [switch]. *)
Lemma tokenize_body_minus st :
  at_ st (i st) = "-"%char →
  tokenize_body st =
    if nextCharacterIs ">"%char st
    then Continue (handleDoubleCharacter Pointer st)
    else if signContext (lastType st)
    then Continue (buildNumber true (set_i (S (i st)) st))
    else Continue (doubleOrSingle MinusMinus Minus st).
Proof.
  intros H. unfold tokenize_body, isSkippable. cbv zeta. by rewrite !H.
Qed.

Lemma digit_not_gt d : isInt_char d = true → d ≠ ">"%char.
Proof. by intros ? ->. Qed.

Lemma digit_not_minus d : isInt_char d = true → d ≠ "-"%char.
Proof. by intros ? ->. Qed.

Lemma buildNumber_tokens neg st digits c rest :
  drop (i st) (srctext st) = digits ++ c :: rest →
  forallb isInt_char digits = true → isInt_char c = false →
  tokens (buildNumber neg st)
  = tokens st ++ [number_token neg digits c rest].
Proof.
  intros Hd Hds Hc. unfold number_token. case_bool_decide as Hdot.
  - subst c. by rewrite (buildNumber_float neg _ _ _ Hd).
  - by rewrite (buildNumber_integer neg _ _ _ _ Hd).
Qed.

(** C4, as the code has it.  At a ['-'] followed by digits and then by a
    character [c] that is not a digit: after a binary operator, [=], [(]
    or [,] one pass pushes one token whose text starts with ['-'], a
    [negative_integer_literal], or a [float_literal] when [c] is a dot;
    after anything else the pass pushes [Minus] and the next pass pushes
    the number, an [integer_literal], or a [float_literal] when [c] is a
    dot.  The three numeric kinds are distinct. *)
Theorem minus_before_digits classnames src st digits c rest :
  reaches classnames src st →
  drop (i st) src = "-"%char :: digits ++ c :: rest →
  digits ≠ [] → forallb isInt_char digits = true → isInt_char c = false →
  (if signContext (from_option type EOF_ (last (tokens st)))
   then ∃ st1,
     tokenize_body st = Continue st1
     ∧ tokens st1 = tokens st ++ [number_token true digits c rest]
   else ∃ st1 st2,
     tokenize_body st = Continue st1
     ∧ tokenize_body (next st1) = Continue st2
     ∧ tokens st2 = tokens st ++ [mkToken (str "-") Minus;
                                  number_token false digits c rest])
  ∧ NoDup [integer_literal; negative_integer_literal; float_literal].
Proof.
  intros Hr Hdrop Hne Hds Hc.
  destruct (reaches_inv _ _ _ Hr) as [Hs _ _ Hl]. rewrite <- Hs in Hdrop.
  rewrite <- Hl. split; [|by apply (bool_decide_unpack _)].
  pose proof Hdrop as (Hlt & Hm & Hd')%drop_cons_inv.
  destruct digits as [|d digits]; [done|]. clear Hne.
  pose proof Hds as [Hd _]%andb_true_iff.
  pose proof (drop_cons_length _ _ _ _ Hd') as HL.
  assert (at_ st (i st + 1) = d) as Hd1.
  { rewrite Nat.add_1_r. by eapply at_drop. }
  rewrite (tokenize_body_minus _ Hm).
  unfold nextCharacterIs. rewrite Hd1.
  rewrite (bool_decide_eq_false_2 (d = _)) by by apply digit_not_gt.
  rewrite andb_false_r.
  destruct (signContext (lastType st)).
  - eexists. split; [done|].
    by rewrite (buildNumber_tokens true (set_i (S (i st)) st)
                  (d :: digits) c rest).
  - unfold doubleOrSingle, nextCharacterIsSame. rewrite Hm, Hd1.
    rewrite (bool_decide_eq_false_2 (_ = d))
      by (intros ?; by eapply digit_not_minus).
    rewrite andb_false_r.
    eexists _, _. split; [done|].
    rewrite (tokenize_body_digit _ d (digits ++ c :: rest)) by done.
    split; [done|].
    rewrite (buildNumber_tokens false _ (d :: digits) c rest) by done.
    unfold next, handleSingleCharacter, substr. simpl_state.
    by rewrite Hdrop, <- app_assoc.
Qed.

Lemma minus_before_digits_witness :
  (∃ st1,
     tokenize_body after_comma = Continue st1
     ∧ tokens st1
       = tokens after_comma ++ [mkToken (str "-2") negative_integer_literal])
  ∧ NoDup [integer_literal; negative_integer_literal; float_literal].
Proof.
  apply (minus_before_digits ∅ (str "f(1, -2, 3)") after_comma
           (str "2") ","%char (str " 3)")); try done.
  by exists 5.
Defined.

(** C4 fails as stated: outside a sign context, a ['-'] followed by
    digits, a dot and more digits gives [Minus] and a [float_literal],
    not an [integer_literal]. *)
Lemma minus_before_digits_counterexample :
  tokenize ∅ (str "a -3.5;")
  = Returned [mkToken (str "a") Identifier; mkToken (str "-") Minus;
              mkToken (str "3.5") float_literal;
              mkToken (str ";") Semicolon; EOF_token] ∅
  ∧ float_literal ≠ integer_literal.
Proof. split; by vm_compute. Qed.

(** ** String and character literals *)

(** A string literal with at least one character between its quotes is
    read as one token, and [i] is left on the closing quote. *)
Lemma buildString_loop_closed body rest k s :
  Forall (λ c, c ≠ DQUOTE ∧ c ≠ LF ∧ c ≠ CR) body →
  buildString_loop (body ++ DQUOTE :: rest) k s
  = Some (s ++ body, k + length body).
Proof.
  intros Hb. revert k s.
  induction Hb as [|c body (Hq & Hl & Hr) _ IH]; simpl; intros k s.
  - by rewrite app_nil_r, Nat.add_0_r.
  - rewrite !bool_decide_eq_false_2 by done. simpl.
    rewrite IH, <- app_assoc. do 2 f_equal. lia.
Qed.

Lemma buildString_closed st c body rest :
  drop (i st) (srctext st) = DQUOTE :: (c :: body) ++ DQUOTE :: rest →
  Forall (λ c, c ≠ DQUOTE ∧ c ≠ LF ∧ c ≠ CR) (c :: body) →
  buildString st
  = Continue (push_back (c :: body) string_literal
                (set_i (i st + S (S (length body))) st)).
Proof.
  intros Hd Hb. pose proof Hd as (Hlt & _ & Hd')%drop_cons_inv.
  unfold buildString.
  rewrite Nat.add_1_r, (at_drop _ _ _ _ Hd').
  rewrite (bool_decide_eq_false_2 (c = _)) by (inversion Hb; tauto).
  rewrite andb_false_r, Hd', buildString_loop_closed by done.
  simpl_state.
  pose proof (drop_app_inv _ _ _ _ Hd') as Hq.
  rewrite (at_drop (set_i (S (i st) + length (c :: body)) st) _ _ _ Hq).
  rewrite (bool_decide_eq_false_2 (_ ≠ _)) by auto.
  rewrite andb_false_r. simpl. do 3 f_equal. lia.
Qed.

(** C7: what the code does on an empty string literal.  [buildString]
    pushes the empty token but leaves [i] on the opening quote, so the
    next pass takes the closing quote for the start of another string:
    the two characters of an empty literal give two [string_literal]
    tokens, and the text after them is swallowed by the second. *)
Theorem empty_string_literal_rescanned :
  (∀ st rest,
     drop (i st) (srctext st) = DQUOTE :: DQUOTE :: rest →
     tokenize_body st = Continue (push_back [] string_literal st)
     ∧ at_ (next (push_back [] string_literal st))
           (i (next (push_back [] string_literal st))) = DQUOTE)
  ∧ tokenize ∅ [DQUOTE; DQUOTE]
    = Returned [mkToken [] string_literal; mkToken [] string_literal;
                EOF_token] ∅
  ∧ tokenize ∅ (str "s = " ++ [DQUOTE; DQUOTE] ++ str ";")
    = Returned [mkToken (str "s") Identifier; mkToken (str "=") Equals;
                mkToken [] string_literal; mkToken (str ";") string_literal;
                EOF_token] ∅.
Proof.
  split; [|split; by vm_compute].
  intros st rest Hd. pose proof Hd as (Hlt & Hq & Hd')%drop_cons_inv.
  rewrite (tokenize_body_string _ Hq). unfold buildString.
  rewrite Nat.add_1_r, (at_drop _ _ _ _ Hd').
  rewrite !bool_decide_eq_true_2 by done. split; [done|].
  unfold next. simpl_state. by apply (at_drop st _ _ _ Hd').
Qed.

Lemma empty_string_literal_rescanned_witness :
  tokenize_body (init ∅ [DQUOTE; DQUOTE])
  = Continue (push_back [] string_literal (init ∅ [DQUOTE; DQUOTE]))
  ∧ at_ (next (push_back [] string_literal (init ∅ [DQUOTE; DQUOTE]))) 1
    = DQUOTE.
Proof.
  apply (proj1 empty_string_literal_rescanned (init ∅ [DQUOTE; DQUOTE]) []).
  reflexivity.
Defined.

(** C8: what the code does on an escaped character.  After a backslash
    [buildChar] appends [srctext[ i ]] without moving [i], that is, the
    backslash again and not the character that follows it. *)
Theorem escaped_char_literal_text :
  (∀ st c rest,
     drop (i st) (srctext st) = SQUOTE :: "\"%char :: c :: rest →
     tokens (buildChar st) = tokens st ++ [mkToken (str "\\") char_literal])
  ∧ tokenize ∅ (str "'\n'")
    = Returned [mkToken (str "\\") char_literal; mkToken [] char_literal;
                EOF_token] ∅
  ∧ tokenize ∅ (str "'a'")
    = Returned [mkToken (str "a") char_literal; EOF_token] ∅.
Proof.
  split; [|split; by vm_compute].
  intros st c rest Hd. pose proof Hd as (_ & _ & Hd')%drop_cons_inv.
  unfold buildChar, substr. simpl_state.
  rewrite (at_drop (set_i (S (i st)) st) _ _ _ Hd'), Hd'.
  by rewrite bool_decide_eq_true_2.
Qed.

Lemma escaped_char_literal_text_witness :
  tokens (buildChar (init ∅ (str "'\n'")))
  = [mkToken (str "\\") char_literal].
Proof.
  apply (proj1 escaped_char_literal_text (init ∅ (str "'\n'"))
           "n"%char (str "'")).
  reflexivity.
Defined.

(** ** The class-name set *)

Lemma kind_sim_refl t : kind_sim t t.
Proof. by left. Qed.

Lemma kind_sim_signContext t t' :
  kind_sim t t' → signContext t = signContext t'.
Proof.
  intros [->|[[-> | ->] [-> | ->]]]; reflexivity.
Qed.

Lemma kind_sim_class t t' :
  kind_sim t t' → bool_decide (t = class_) = bool_decide (t' = class_).
Proof.
  intros [->|[[-> | ->] [-> | ->]]]; reflexivity.
Qed.

Lemma token_sim_snoc l l' v ty ty' :
  Forall2 token_sim l l' → kind_sim ty ty' →
  Forall2 token_sim (l ++ [mkToken v ty]) (l' ++ [mkToken v ty']).
Proof.
  intros. apply Forall2_app; [done|].
  constructor; [by split|constructor].
Qed.

Lemma state_sim_push v ty ty' st st' :
  srctext st = srctext st' → i st = i st' →
  Forall2 token_sim (tokens st) (tokens st') → kind_sim ty ty' →
  state_sim (push_back v ty st) (push_back v ty' st').
Proof.
  intros ? ? Ht Hk. split; [done|]. split; [done|].
  split; [|done]. by apply token_sim_snoc.
Qed.

(** Closes [state_sim] between two runs of the same helper on two
    records that share the source and the index. *)
Ltac solve_sim :=
  repeat match goal with
         | |- state_sim (if ?b then _ else _) (if ?b then _ else _) =>
             destruct b
         end;
  first [ apply state_sim_push; simpl_state;
          first [ done | apply kind_sim_refl
                | right; split; first [ by left | by right ] ]
        | repeat split; simpl_state; done ].

Section sim.

Context (src : text) (k : nat) (toks toks' : TokenList)
  (lt lt' : TokenType) (cn cn' : gset text).
Context (Htoks : Forall2 token_sim toks toks') (Hlast : kind_sim lt lt').

Let st := mkState src toks k lt cn.
Let st' := mkState src toks' k lt' cn'.

Lemma state_sim_intro : state_sim st st'.
Proof. by repeat split. Qed.

Lemma handleSingleCharacter_sim ty :
  state_sim (handleSingleCharacter ty st) (handleSingleCharacter ty st').
Proof. subst st st'. unfold handleSingleCharacter, substr. solve_sim. Qed.

Lemma handleDoubleCharacter_sim ty :
  state_sim (handleDoubleCharacter ty st) (handleDoubleCharacter ty st').
Proof.
  subst st st'. unfold handleDoubleCharacter, substr, push_back, set_i.
  simpl_state. split; [done|]. split; [done|].
  split; [|apply kind_sim_refl]. apply token_sim_snoc; [done|].
  apply kind_sim_refl.
Qed.

Lemma doubleOrSingle_sim d s :
  state_sim (doubleOrSingle d s st) (doubleOrSingle d s st').
Proof.
  unfold doubleOrSingle.
  change (nextCharacterIsSame st') with (nextCharacterIsSame st).
  destruct (nextCharacterIsSame st);
    [apply handleDoubleCharacter_sim | apply handleSingleCharacter_sim].
Qed.

Lemma skipComment_sim : state_sim (skipComment st) (skipComment st').
Proof. subst st st'. unfold skipComment, while_append. by repeat split. Qed.

Lemma buildChar_sim : state_sim (buildChar st) (buildChar st').
Proof.
  subst st st'. unfold buildChar, substr, at_. simpl_state. solve_sim.
Qed.

Lemma buildNumber_sim neg j :
  state_sim (buildNumber neg (set_i j st)) (buildNumber neg (set_i j st')).
Proof.
  subst st st'. unfold buildNumber, while_append, LENGTH, at_. simpl_state.
  destruct (_ && _).
  - unfold set_i. simpl_state. split; [done|]. split; [done|].
    split; [|apply kind_sim_refl]. apply token_sim_snoc; [done|].
    apply kind_sim_refl.
  - solve_sim.
Qed.

Lemma buildString_sim : step_sim (buildString st) (buildString st').
Proof.
  subst st st'. unfold buildString, LENGTH, at_. simpl_state.
  destruct (_ && _); [simpl; solve_sim|].
  destruct (buildString_loop _ _ _) as [[s j]|]; [|done].
  destruct (_ && _); [done|]. simpl. solve_sim.
Qed.

Lemma buildIdentifier_sim :
  state_sim (buildIdentifier st) (buildIdentifier st').
Proof.
  subst st st'. unfold buildIdentifier, parseIdentifier, while_append.
  simpl_state. rewrite (kind_sim_class _ _ Hlast).
  destruct (_ || _); [solve_sim|].
  destruct (KEYWORDS !! _); [solve_sim|].
  destruct (bool_decide (_ ∈ DEFAULT_TYPES)); [solve_sim|].
  destruct (bool_decide (lt' = class_)); [solve_sim|].
  destruct (bool_decide (_ ∈ cn)), (bool_decide (_ ∈ cn')); solve_sim.
Qed.

Lemma tokenize_body_sim : step_sim (tokenize_body st) (tokenize_body st').
Proof.
  unfold tokenize_body. cbv zeta.
  rewrite <- (kind_sim_signContext _ _ Hlast : signContext (lastType st)
                                              = signContext (lastType st')).
  change (isSkippable st') with (isSkippable st).
  change (at_ st' (i st')) with (at_ st (i st)).
  change (nextCharacterIs ">" st') with (nextCharacterIs ">" st).
  change (nextCharacterIs "=" st') with (nextCharacterIs "=" st).
  change (nextCharacterIsSame st') with (nextCharacterIsSame st).
  change (LENGTH st') with (LENGTH st).
  change (i st') with (i st).
  change (isInt (set_i (S (i st)) st')) with (isInt (set_i (S (i st)) st)).
  change (isInt st') with (isInt st).
  change (isAlpha st') with (isAlpha st).
  repeat match goal with
         | |- step_sim (if ?b then _ else _) (if ?b then _ else _) =>
             destruct b
         end;
    first [ apply state_sim_intro
          | apply handleSingleCharacter_sim
          | apply handleDoubleCharacter_sim
          | apply doubleOrSingle_sim
          | apply skipComment_sim
          | apply buildChar_sim
          | apply buildString_sim
          | apply buildIdentifier_sim
          | apply (buildNumber_sim true (S k))
          | apply (buildNumber_sim false k)
          | exact I ].
Qed.

End sim.

Lemma step_sim_body st st' :
  state_sim st st' → step_sim (tokenize_body st) (tokenize_body st').
Proof.
  destruct st, st'. intros (? & ? & ? & ?). simplify_eq/=.
  by apply tokenize_body_sim.
Qed.

Lemma tokenize_loop_sim fuel st st' :
  state_sim st st' →
  LENGTH st - i st ≤ fuel →
  outcome_sim (tokenize_loop fuel st) (tokenize_loop fuel st').
Proof.
  revert st st'. induction fuel as [|fuel IH]; intros st st' Hsim Hf;
    pose proof Hsim as (Hs & Hi & Ht & Hl).
  - rewrite !tokenize_loop_done by (unfold LENGTH in *; rewrite <- ?Hs; lia).
    simpl. apply token_sim_snoc; [done|apply kind_sim_refl].
  - destruct (decide (i st < LENGTH st)) as [Hlt|Hge].
    + rewrite !tokenize_loop_step
        by (unfold LENGTH in *; rewrite <- ?Hs, <- ?Hi; lia).
      pose proof (step_sim_body _ _ Hsim) as Hb.
      destruct (tokenize_body st) as [st1| |] eqn:Hb1,
               (tokenize_body st') as [st1'| |]; try done.
      * apply IH.
        -- destruct Hb as (? & ? & ? & ?). unfold next.
           repeat split; simpl_state; auto.
        -- pose proof (next_measure _ _ Hlt Hb1). lia.
      * simpl. constructor.
    + rewrite !tokenize_loop_done
        by (unfold LENGTH in *; rewrite <- ?Hs, <- ?Hi; lia).
      simpl. apply token_sim_snoc; [done|apply kind_sim_refl].
Qed.

(** C3, as the code has it.  [tokenize] reads the process-wide set
    [user_defined_classnames], so its result is a function of the source
    and of that set.  Whatever two sets it starts from, the two calls end
    the same way, and the token lists they return have the same length
    and the same texts, and the same kinds except that a name can be
    [Identifier] in one and [ClassType] in the other. *)
Theorem tokenize_up_to_classnames classnames classnames' src :
  outcome_sim (tokenize classnames src) (tokenize classnames' src).
Proof.
  apply tokenize_loop_sim; [|unfold LENGTH; simpl; lia].
  repeat split; simpl; auto. apply kind_sim_refl.
Qed.

(** C3 fails as stated: a second tokenization of the same source, in the
    same process, classifies [Foo] differently from the first, because
    the first has recorded it as a class name. *)
Lemma tokenize_twice_counterexample :
  tokenize ∅ (str "Foo class Foo")
  = Returned [mkToken (str "Foo") Identifier; mkToken (str "class") class_;
              mkToken (str "Foo") ClassType; EOF_token] {[ str "Foo" ]}
  ∧ tokenize {[ str "Foo" ]} (str "Foo class Foo")
    = Returned [mkToken (str "Foo") ClassType; mkToken (str "class") class_;
                mkToken (str "Foo") ClassType; EOF_token] {[ str "Foo" ]}
  ∧ Identifier ≠ ClassType.
Proof. repeat split; by vm_compute. Qed.

(** * Properties of the parser *)

Module ParserFacts.

Import Parser Parser.Methods.

Section inversion.

Context (tokens : TokenList).

Lemma bind_Ok {A B} (m : M A) (f : A → M B) k b k' :
  bind m f k = Ok b k' → ∃ a j, m k = Ok a j ∧ f a j = Ok b k'.
Proof. unfold bind. destruct (m k); naive_solver. Qed.

Lemma peek_Ok k tk k' :
  peek tokens k = Ok tk k' → tokens !! k = Some tk ∧ k' = k.
Proof. unfold peek. destruct (tokens !! k); naive_solver. Qed.

Lemma eat_Ok k tk k' :
  eat tokens k = Ok tk k' → tokens !! k = Some tk ∧ k' = S k.
Proof. unfold eat. destruct (tokens !! k); naive_solver. Qed.

Lemma expect_Ok ty err k tk k' :
  expect tokens ty err k = Ok tk k' →
  tokens !! k = Some tk ∧ k' = S k ∧ type tk = ty.
Proof.
  unfold expect. intros (a & j & [Ha ->]%eat_Ok & H)%bind_Ok.
  case_bool_decide as Hty; [done|].
  unfold ret in H. by simplify_eq.
Qed.

Lemma expect2_Ok type1 type2 err k tk k' :
  expect2 tokens type1 type2 err k = Ok tk k' →
  tokens !! k = Some tk ∧ k' = S k ∧ (type tk = type1 ∨ type tk = type2).
Proof.
  unfold expect2. intros (a & j & [Ha ->]%eat_Ok & H)%bind_Ok.
  destruct (_ && _) eqn:Hc; [done|]. unfold ret in H. simplify_eq.
  split; [done|]. split; [done|].
  apply andb_false_iff in Hc as [Hc|Hc]; apply bool_decide_eq_false in Hc;
    apply dec_stable in Hc; auto.
Qed.

Lemma eatIfMutable_Ok k b k' :
  eatIfMutable tokens k = Ok b k' →
  ∃ tk, tokens !! k = Some tk ∧ b = is_type tk mutable_
        ∧ k' = if b then S k else k.
Proof.
  unfold eatIfMutable. intros (tk & j & [Htk ->]%peek_Ok & H)%bind_Ok.
  exists tk. split; [done|]. destruct (is_type tk mutable_).
  - apply bind_Ok in H as (? & ? & [_ ->]%eat_Ok & H).
    unfold ret in H. by simplify_eq.
  - unfold ret in H. by simplify_eq.
Qed.

Lemma eatIfRefOrPtr_Ok k isRef isPtr k' :
  eatIfRefOrPtr tokens k = Ok (isRef, isPtr) k' →
  ∃ tk, tokens !! k = Some tk
        ∧ k' = (if isRefOrPtr tk then S k else k)
        ∧ ∀ name isMutable j,
            new_TypeName name isMutable isRef isPtr j
            = Ok (ast.mkTypeName name isMutable (sigil_of tk)) j.
Proof.
  unfold eatIfRefOrPtr. intros (tk & j & [Htk ->]%peek_Ok & H)%bind_Ok.
  exists tk. split; [done|]. unfold isRefOrPtr, sigil_of, is_type in *.
  case_bool_decide as Hr.
  - apply bind_Ok in H as (? & ? & [_ ->]%eat_Ok & H).
    unfold ret in H. by simplify_eq.
  - case_bool_decide as Hp.
    + apply bind_Ok in H as (? & ? & [_ ->]%eat_Ok & H).
      unfold ret in H. by simplify_eq.
    + unfold ret in H. by simplify_eq.
Qed.

(** The same methods, run forward on tokens that are there. *)

Lemma bind_eq {A B} (m : M A) (f : A → M B) k a j :
  m k = Ok a j → bind m f k = f a j.
Proof. unfold bind. by intros ->. Qed.

Lemma peek_eq k tk : tokens !! k = Some tk → peek tokens k = Ok tk k.
Proof. unfold peek. by intros ->. Qed.

Lemma eat_eq k tk : tokens !! k = Some tk → eat tokens k = Ok tk (S k).
Proof. unfold eat. by intros ->. Qed.

Lemma expect_eq ty err k tk :
  tokens !! k = Some tk → type tk = ty →
  expect tokens ty err k = Ok tk (S k).
Proof.
  intros Htk Hty. unfold expect. rewrite (bind_eq _ _ _ _ _ (eat_eq _ _ Htk)).
  by rewrite bool_decide_eq_false_2 by auto.
Qed.

Lemma eatIfMutable_eq k tk :
  tokens !! k = Some tk →
  eatIfMutable tokens k
  = Ok (is_type tk mutable_) (if is_type tk mutable_ then S k else k).
Proof.
  intros Htk. unfold eatIfMutable.
  rewrite (bind_eq _ _ _ _ _ (peek_eq _ _ Htk)).
  destruct (is_type tk mutable_); [|done].
  by rewrite (bind_eq _ _ _ _ _ (eat_eq _ _ Htk)).
Qed.

Lemma eatIfRefOrPtr_eq k tk :
  tokens !! k = Some tk →
  ∃ isRef isPtr,
    eatIfRefOrPtr tokens k
    = Ok (isRef, isPtr) (if isRefOrPtr tk then S k else k)
    ∧ ∀ name isMutable j,
        new_TypeName name isMutable isRef isPtr j
        = Ok (ast.mkTypeName name isMutable (sigil_of tk)) j.
Proof.
  intros Htk. unfold eatIfRefOrPtr, isRefOrPtr, sigil_of, is_type.
  rewrite (bind_eq _ _ _ _ _ (peek_eq _ _ Htk)).
  destruct (bool_decide (type tk = Reference)).
  - exists true, false. by rewrite (bind_eq _ _ _ _ _ (eat_eq _ _ Htk)).
  - destruct (bool_decide (type tk = Pointer)).
    + exists false, true. by rewrite (bind_eq _ _ _ _ _ (eat_eq _ _ Htk)).
    + by exists false, false.
Qed.

End inversion.

End ParserFacts.

Import ParserFacts.

(** * Theorems about the parser *)

(** C5.  [VariableDeclaration] nodes are built by
    [parseVariableDeclaration] only.  Whatever node it returns, from any
    caller: when the token after the declarator is a [Semicolon] the node
    has [isMutable = false] and no value, with or without a [mutable]
    prefix; otherwise that token is [Equals], [isMutable] tells whether
    the declaration started with [mutable], and the value is present. *)
Theorem variable_declaration_mutable tokens fuel self k v k' :
  Parser.Methods.parseVariableDeclaration tokens fuel self k
  = Parser.Ok v k' →
  ∃ first after,
    tokens !! k = Some first
    ∧ tokens !! after_declarator tokens k = Some after
    ∧ if Parser.is_type after Semicolon
      then ast.isMutableVar v = false ∧ ast.getValue v = None
           ∧ k' = S (after_declarator tokens k)
      else type after = Equals
           ∧ ast.isMutableVar v = Parser.is_type first mutable_
           ∧ is_Some (ast.getValue v).
Proof.
  unfold Parser.Methods.parseVariableDeclaration.
  intros (m & k1 & (first & Hfirst & -> & ->)%eatIfMutable_Ok & H)%bind_Ok.
  apply bind_Ok in H as (tyTok & k2 & (Hty & -> & _)%expect2_Ok & H).
  apply bind_Ok in H as ([isRef isPtr] & k3 & (sg & Hsg & -> & Hnew)%eatIfRefOrPtr_Ok & H).
  apply bind_Ok in H as (ty & ? & Hty' & H). rewrite Hnew in Hty'.
  injection Hty' as <- <-.
  apply bind_Ok in H as (name & k4 & (Hname & -> & _)%expect_Ok & H).
  apply bind_Ok in H as (after & ? & [Hafter ->]%peek_Ok & H).
  exists first, after. split; [done|].
  assert (after_declarator tokens k
          = S (if isRefOrPtr sg
               then S (S (if Parser.is_type first mutable_ then S k else k))
               else S (if Parser.is_type first mutable_ then S k else k)))
    as ->.
  { unfold after_declarator. by rewrite Hfirst, Hsg. }
  split; [done|].
  destruct (Parser.is_type after Semicolon).
  - apply bind_Ok in H as (? & ? & [_ ->]%eat_Ok & H).
    unfold Parser.ret in H. by simplify_eq.
  - apply bind_Ok in H as (? & ? & (Heq & -> & Hty2)%expect_Ok & H).
    apply bind_Ok in H as (expr & ? & _ & H).
    unfold Parser.ret in H. simplify_eq. simpl. eauto.
Qed.

Lemma variable_declaration_mutable_witness :
  (∃ first after,
     mutable_y !! 0 = Some first
     ∧ mutable_y !! after_declarator mutable_y 0 = Some after
     ∧ if Parser.is_type after Semicolon
       then ast.isMutableVar y_node = false ∧ ast.getValue y_node = None
            ∧ 4 = S (after_declarator mutable_y 0)
       else type after = Equals
            ∧ ast.isMutableVar y_node = Parser.is_type first mutable_
            ∧ is_Some (ast.getValue y_node))
  ∧ (∃ first after,
       mutable_x_1 !! 0 = Some first
       ∧ mutable_x_1 !! after_declarator mutable_x_1 0 = Some after
       ∧ if Parser.is_type after Semicolon
         then ast.isMutableVar x_node = false ∧ ast.getValue x_node = None
              ∧ 6 = S (after_declarator mutable_x_1 0)
         else type after = Equals
              ∧ ast.isMutableVar x_node = Parser.is_type first mutable_
              ∧ is_Some (ast.getValue x_node)).
Proof.
  split.
  - apply (variable_declaration_mutable mutable_y 5
             (Parser.calls mutable_y 5) 0 y_node 4).
    by vm_compute.
  - apply (variable_declaration_mutable mutable_x_1 10
             (Parser.calls mutable_x_1 10) 0 x_node 6).
    by vm_compute.
Defined.

(** ** Parameter lists *)

(** C9, as the code has it.  After a parameter (an optional [mutable],
    the type, an optional sigil and the name) the loop of
    [parseFunctionDeclaration] looks at the next token: on a [Comma] it
    eats it and goes on, on a [CParen] it stops, and on anything else it
    raises an error that names the function.  A [Comma] followed at once
    by [CParen] is accepted: the loop ends there with the parameters read
    so far. *)
Theorem parameter_list_separator tokens fuel f_name acc k
    first tyTok sg nameTok sep :
  tokens !! k = Some first →
  Parser.is_type first ClassType || Parser.is_type first PrimitiveType
  || Parser.is_type first mutable_ = true →
  let k1 := if Parser.is_type first mutable_ then S k else k in
  tokens !! k1 = Some tyTok →
  tokens !! S k1 = Some sg →
  let k2 := if isRefOrPtr sg then S (S k1) else S k1 in
  tokens !! k2 = Some nameTok → type nameTok = Identifier →
  tokens !! S k2 = Some sep →
  let p := ast.mkParameter
             (ast.mkTypeName (value tyTok) (Parser.is_type first mutable_)
                (sigil_of sg))
             (ast.mkIdentifier (value nameTok)) in
  Parser.Methods.parameterList tokens (S fuel) f_name acc k
  = (if Parser.is_type sep Comma
     then Parser.Methods.parameterList tokens fuel f_name (acc ++ [p])
            (S (S k2))
     else if Parser.is_type sep CParen
     then Parser.Ok (acc ++ [p]) (S k2)
     else Parser.Err (str "invalid parameter list for function " ++ f_name))
  ∧ (Parser.is_type sep Comma = true →
     ∀ cp, tokens !! S (S k2) = Some cp → type cp = CParen →
     Parser.Methods.parameterList tokens (S fuel) f_name acc k
     = Parser.Ok (acc ++ [p]) (S (S k2))).
Proof.
  intros Hfirst Hloop k1 Hty Hsg k2 Hname Hid Hsep p.
  assert (Parser.Methods.parameterList tokens (S fuel) f_name acc k
          = if Parser.is_type sep Comma
            then Parser.Methods.parameterList tokens fuel f_name (acc ++ [p])
                   (S (S k2))
            else if Parser.is_type sep CParen
            then Parser.Ok (acc ++ [p]) (S k2)
            else Parser.Err (str "invalid parameter list for function "
                             ++ f_name)) as Heq.
  { subst p. cbn [Parser.Methods.parameterList].
    rewrite (bind_eq _ _ _ _ _ (peek_eq _ _ _ Hfirst)), Hloop.
    rewrite (bind_eq _ _ _ _ _ (eatIfMutable_eq _ _ _ Hfirst)). fold k1.
    rewrite (bind_eq _ _ _ _ _ (eat_eq _ _ _ Hty)).
    destruct (eatIfRefOrPtr_eq _ _ _ Hsg) as (isRef & isPtr & Hrp & Hnew).
    rewrite (bind_eq _ _ _ _ _ Hrp). fold k2.
    rewrite (bind_eq _ _ _ _ _ (expect_eq _ _ _ _ _ Hname Hid)).
    rewrite (bind_eq _ _ _ _ _ (peek_eq _ _ _ Hsep)).
    assert (∀ j, Parser.Methods.new_Parameter
                   (Parser.is_type first mutable_) (value tyTok) isRef isPtr
                   (value nameTok) j
                 = Parser.Ok
                     (ast.mkParameter
                        (ast.mkTypeName (value tyTok)
                           (Parser.is_type first mutable_) (sigil_of sg))
                        (ast.mkIdentifier (value nameTok))) j) as Hparam.
    { intros j. unfold Parser.Methods.new_Parameter.
      by rewrite (bind_eq _ _ _ _ _ (Hnew _ _ _)). }
    destruct (Parser.is_type sep Comma).
    - rewrite (bind_eq _ _ _ tt (S (S k2)))
        by by rewrite (bind_eq _ _ _ _ _ (eat_eq _ _ _ Hsep)).
      by rewrite (bind_eq _ _ _ _ _ (Hparam _)).
    - destruct (Parser.is_type sep CParen) eqn:Hcp; [|done].
      rewrite (bind_eq _ _ _ tt (S k2)) by done.
      rewrite (bind_eq _ _ _ _ _ (Hparam _)).
      unfold Parser.is_type in Hcp. apply bool_decide_eq_true in Hcp.
      destruct fuel; cbn [Parser.Methods.parameterList];
        rewrite (bind_eq _ _ _ _ _ (peek_eq _ _ _ Hsep));
        unfold Parser.is_type; by rewrite Hcp. }
  split; [done|].
  intros Hcomma cp Hcp Hty'. rewrite Heq, Hcomma.
  destruct fuel; cbn [Parser.Methods.parameterList];
    rewrite (bind_eq _ _ _ _ _ (peek_eq _ _ _ Hcp)); unfold Parser.is_type;
    by rewrite Hty'.
Qed.

Lemma parameter_list_separator_witness :
  Parser.Methods.parameterList trailing_comma 4 (str "f") [] 3
  = Parser.Methods.parameterList trailing_comma 3 (str "f") [int32_a] 6
  ∧ (true = true →
     ∀ cp, trailing_comma !! 6 = Some cp → type cp = CParen →
     Parser.Methods.parameterList trailing_comma 4 (str "f") [] 3
     = Parser.Ok [int32_a] 6).
Proof.
  apply (parameter_list_separator trailing_comma 3 (str "f") [] 3
           (mkToken (str "int32") PrimitiveType)
           (mkToken (str "int32") PrimitiveType)
           (mkToken (str "a") Identifier)
           (mkToken (str "a") Identifier)
           (mkToken (str ",") Comma)); reflexivity.
Defined.

(** C9 fails as stated: a parameter list that ends in a comma is parsed,
    and gives the same function as without the comma. *)
Lemma trailing_comma_counterexample :
  tokenize ∅ (str "void f(int32 a,) { }") = Returned trailing_comma ∅
  ∧ Parser.produceAST trailing_comma 50
    = Parser.Ok
        (ast.mkProgram
           [ast.StatementExpression
              (ast.FunctionDeclarationExpr
                 (ast.mkFunctionDeclaration
                    (ast.mkTypeName (str "void") false [])
                    (ast.mkIdentifier (str "f")) [int32_a] []))]) 9.
Proof. split; by vm_compute. Qed.

(** ** If statements *)

Lemma parsePrimaryExpression_if tokens fuel self k tk :
  tokens !! k = Some tk → type tk = if_ →
  Parser.Methods.parsePrimaryExpression tokens fuel self k
  = Parser.Err unexpected_token.
Proof.
  intros Htk Hty. unfold Parser.Methods.parsePrimaryExpression.
  rewrite (bind_eq _ _ _ _ _ (peek_eq _ _ _ Htk)).
  unfold Parser.is_type. by rewrite Hty.
Qed.

Lemma bind_Err {A B} (m : Parser.M A) (f : A → Parser.M B) k msg :
  m k = Parser.Err msg → Parser.bind m f k = Parser.Err msg.
Proof. unfold Parser.bind. by intros ->. Qed.

(** C6: what the code does in a braced [if] body.  The loop over the
    body calls [parseExpression], not [parseStatement]: a statement that
    starts with [if (] falls through the expression ladder to
    [parsePrimaryExpression] and is rejected, whatever follows.  The same
    nested [if] is accepted after an [if] without braces. *)
Theorem braced_if_body_rejects_if :
  (∀ tokens fuel self n stmts k tk next,
     tokens !! k = Some tk → type tk = if_ →
     tokens !! (k + 1) = Some next → type next = OParen →
     Parser.Methods.ifStatementBody tokens fuel self (S n) stmts k
     = Parser.Err unexpected_token)
  ∧ Parser.parse 50 (str "if (true) { if (true) x = 1; }")
    = Some (Parser.Err unexpected_token)
  ∧ Parser.parse 50 (str "if (true) if (true) x = 1;")
    = Some (Parser.Ok
              (ast.mkProgram
                 [ast.StatementExpression
                    (ast.IfStatement (ast.BoolLiteral true)
                       [ast.StatementExpression
                          (ast.IfStatement (ast.BoolLiteral true)
                             [ast.StatementExpression
                                (ast.AssignmentExpression
                                   (ast.IdentifierExpr
                                      (ast.mkIdentifier (str "x")))
                                   (ast.NumericLiteral ast.uint64_t
                                      (str "1")))])])]) 12).
Proof.
  split; [|split; by vm_compute].
  intros tokens fuel self n stmts k tk next Htk Hty Hnext Hnty.
  cbn [Parser.Methods.ifStatementBody].
  rewrite (bind_eq _ _ _ _ _ (peek_eq _ _ _ Htk)).
  unfold Parser.is_type at 1. rewrite Hty. simpl negb. cbv iota.
  apply bind_Err.
  unfold Parser.Methods.parseExpression,
    Parser.Methods.parseAssignmentExpression.
  assert (Parser.Methods.peekNext tokens k = Parser.Ok next k) as Hpn
    by (unfold Parser.Methods.peekNext; by rewrite Hnext).
  rewrite (bind_eq _ _ _ false k)
    by (rewrite (bind_eq _ _ _ _ _ Hpn); unfold Parser.is_type;
        by rewrite Hnty).
  cbv iota. apply bind_Err.
  unfold Parser.Methods.parseBooleanExpression. apply bind_Err.
  unfold Parser.Methods.parseAdditiveExpression. apply bind_Err.
  unfold Parser.Methods.parseMultiplicativeExpression. apply bind_Err.
  unfold Parser.Methods.parseExponentialExpression. apply bind_Err.
  unfold Parser.Methods.parseDotExpression. apply bind_Err.
  by apply (parsePrimaryExpression_if _ _ _ _ tk).
Qed.

Lemma braced_if_body_rejects_if_witness :
  Parser.Methods.ifStatementBody nested_if 20 (Parser.calls nested_if 20)
    1 [] 1 = Parser.Err unexpected_token.
Proof.
  apply (proj1 braced_if_body_rejects_if nested_if 20
           (Parser.calls nested_if 20) 0 [] 1
           (mkToken (str "if") if_) (mkToken (str "(") OParen));
    reflexivity.
Defined.

(** * More properties of the lexer *)

(** ** The class-name set *)

Lemma tokenize_body_classnames st st' :
  tokenize_body st = Continue st' →
  user_defined_classnames st' = user_defined_classnames st
  ∨ ∃ id, ¬ reserved id ∧ lastType st = class_
          ∧ user_defined_classnames st'
            = {[ id ]} ∪ user_defined_classnames st.
Proof.
  destruct (tokenize_body_view st); intros Hb; simplify_eq; auto;
    try (left; unfold handleSingleCharacter, handleDoubleCharacter,
           skipComment, buildChar, buildNumber, while_append;
         repeat case_match; reflexivity).
  - left. unfold buildString in Hb.
    destruct (_ && _); [by simplify_eq|].
    destruct (buildString_loop _ _ _) as [[s k]|]; [|done].
    destruct (_ && _); by simplify_eq.
  - unfold buildIdentifier, parseIdentifier, while_append. simpl_state.
    set (id := _ ++ _).
    destruct (_ || _) eqn:Hbool; [by left|].
    destruct (KEYWORDS !! id) eqn:Hk; [by left|].
    destruct (bool_decide (id ∈ DEFAULT_TYPES)) eqn:Hd;
      [by destruct (bool_decide (id = str "String")); left|].
    destruct (bool_decide (lastType st = class_)) eqn:Hc;
      [|by destruct (bool_decide (id ∈ user_defined_classnames st)); left].
    apply bool_decide_eq_false in Hd. apply bool_decide_eq_true in Hc.
    right. exists id. split; [|done].
    apply orb_false_iff in Hbool as [Hf%bool_decide_eq_false Ht%bool_decide_eq_false].
    intros [?|[?|[[? ?]|?]]]; congruence.
Qed.

Lemma tokenize_loop_classnames fuel st classnames :
  classnames_after (tokenize_loop fuel st) = Some classnames →
  user_defined_classnames st ⊆ classnames
  ∧ ∀ id, id ∈ classnames →
          id ∈ user_defined_classnames st ∨ ¬ reserved id.
Proof.
  revert st. induction fuel as [|fuel IH]; intros st.
  - simpl. case_bool_decide; [done|]. intros [= <-]. auto.
  - destruct (decide (i st < LENGTH st)) as [Hlt|Hge];
      [|rewrite tokenize_loop_done by done; intros [= <-]; auto].
    rewrite tokenize_loop_step by done.
    destruct (tokenize_body st) as [st'|st'|msg st'] eqn:Hb.
    + intros [Hsub Hnew]%IH. unfold next in *. simpl_state.
      destruct (tokenize_body_classnames _ _ Hb) as [Heq|(id & Hid & _ & Heq)];
        rewrite Heq in Hsub, Hnew.
      * auto.
      * split; [by transitivity ({[id]} ∪ user_defined_classnames st);
                  [apply union_subseteq_r|]|].
        intros x Hx.
        destruct (Hnew x Hx) as [[->%elem_of_singleton|?]%elem_of_union|?];
          auto.
    + apply tokenize_body_ReturnEmpty in Hb as [-> _]. intros [= <-]. auto.
    + apply tokenize_body_Throw in Hb as (_ & -> & _); [|done].
      intros [= <-]. auto.
Qed.

(** X1.  Whatever [tokenize] does, normal return or exception, the
    process-wide set it leaves holds every name it found, and every name
    it added is none of [true], [false], a keyword or a default type:
    these are settled before the test of [lastType == class_]. *)
Theorem classnames_grow_with_unreserved_names classnames src classnames' :
  classnames_after (tokenize classnames src) = Some classnames' →
  classnames ⊆ classnames'
  ∧ ∀ id, id ∈ classnames' → id ∈ classnames ∨ ¬ reserved id.
Proof. apply tokenize_loop_classnames. Qed.

Lemma classnames_grow_with_unreserved_names_witness :
  ∅ ⊆ ({[ str "Foo" ]} : gset text)
  ∧ ∀ id, id ∈ ({[ str "Foo" ]} : gset text) → id ∈ (∅ : gset text) ∨ ¬ reserved id.
Proof.
  apply (classnames_grow_with_unreserved_names ∅
           (str "class int32 class Foo")).
  vm_compute. reflexivity.
Defined.

(** ** The register [lastType] *)

(** X2.  At the head of every pass, [lastType] is the kind of the token
    pushed last, and [EOF_] (the default [TokenType]) as long as none was
    pushed: white space and comments leave it alone.  This is the
    register the ['-'] case and [buildIdentifier] read. *)
Theorem lastType_is_last_token classnames src st :
  reaches classnames src st →
  lastType st = from_option type EOF_ (last (tokens st)).
Proof. intros Hr. by destruct (reaches_inv _ _ _ Hr). Qed.

Lemma lastType_is_last_token_witness :
  lastType after_equals = from_option type EOF_ (last (tokens after_equals)).
Proof.
  apply (lastType_is_last_token ∅ (str "a = -b")). exists 4. reflexivity.
Defined.

(** ** White space and comments *)

Lemma tokenize_body_skip st :
  isSkippable st = true → tokenize_body st = Continue st.
Proof. unfold tokenize_body. cbv zeta. by intros ->. Qed.

Lemma passes_app n m st st' st'' :
  passes n st = Some st' → passes m st' = Some st'' →
  passes (n + m) st = Some st''.
Proof.
  revert st. induction n as [|n IH]; simpl; intros st Hn Hm.
  - by simplify_eq.
  - case_bool_decide; [|done]. destruct (tokenize_body st); try done. eauto.
Qed.

Lemma passes_one st st' :
  i st < LENGTH st → tokenize_body st = Continue st' →
  passes 1 st = Some (next st').
Proof. intros Hlt Hb. simpl. by rewrite bool_decide_eq_true_2, Hb. Qed.

Lemma set_i_same st : set_i (i st) st = st.
Proof. by destruct st. Qed.

Lemma passes_blanks ws rest st :
  drop (i st) (srctext st) = ws ++ rest →
  forallb isSkippable_char ws = true →
  passes (length ws) st = Some (set_i (i st + length ws) st).
Proof.
  revert st. induction ws as [|c ws IH]; simpl; intros st Hd Hws.
  - by rewrite Nat.add_0_r, set_i_same.
  - apply andb_true_iff in Hws as [Hc Hws].
    pose proof Hd as (Hlt & Hat & Hd')%drop_cons_inv.
    rewrite bool_decide_eq_true_2 by done.
    rewrite tokenize_body_skip by (unfold isSkippable; by rewrite Hat).
    rewrite (IH (set_i (S (i st)) st)) by done.
    unfold set_i. simpl_state. do 2 f_equal. lia.
Qed.

(** X3.  Blanks, tabs, line feeds and carriage returns are passed over
    one by one: they push no token and leave [lastType] and the class
    names as they are.  A source made of them alone, the empty source
    included, gives the [EOF_] token and nothing else. *)
Theorem white_space_is_skipped classnames src :
  (∀ st ws rest,
     reaches classnames src st →
     drop (i st) src = ws ++ rest → forallb isSkippable_char ws = true →
     reaches classnames src (set_i (i st + length ws) st))
  ∧ (forallb isSkippable_char src = true →
     tokenize classnames src = Returned [EOF_token] classnames).
Proof.
  split.
  - intros st ws rest [n Hn] Hd Hws. exists (n + length ws).
    eapply passes_app; [done|]. eapply passes_blanks; [|done].
    destruct (reaches_inv _ _ _ (ex_intro _ n Hn)) as [-> _ _ _]. done.
  - intros Hws.
    assert (reaches classnames src
              (set_i (0 + length src) (init classnames src))) as Hr.
    { exists (length src). apply (passes_blanks src []); [|done].
      simpl. by rewrite app_nil_r. }
    rewrite (reaches_tokenize _ _ _ Hr).
    by rewrite tokenize_loop_done by (unfold LENGTH; simpl; lia).
Qed.

Lemma white_space_is_skipped_witness :
  reaches ∅ (str "a =   b") (set_i (3 + 3) before_blanks)
  ∧ tokenize ∅ (str "  " ++ [TAB; LF; CR]) = Returned [EOF_token] ∅.
Proof.
  split.
  - apply (proj1 (white_space_is_skipped ∅ (str "a =   b")) before_blanks
             (str "   ") (str "b")); [by exists 3|done|done].
  - by apply (proj2 (white_space_is_skipped ∅ _)).
Defined.

(** The ['/'] case of the [switch]. *)
Lemma tokenize_body_slash st :
  at_ st (i st) = "/"%char →
  tokenize_body st =
    if nextCharacterIsSame st then Continue (skipComment st)
    else Continue (handleSingleCharacter Divide st).
Proof.
  intros H. unfold tokenize_body, isSkippable. cbv zeta. by rewrite !H.
Qed.

Lemma span_stops p l rest :
  forallb p l = true → stops p rest → span p (l ++ rest) = l.
Proof.
  intros Hl Hr. destruct rest as [|c rest].
  - rewrite app_nil_r. by apply span_all.
  - by apply span_app.
Qed.

(** X4.  Two slashes start a comment: the pass pushes no token and moves
    [i] to the next line feed, or to the end of the source when there is
    none, whatever the comment holds (quotes and characters the lexer
    has no rule for included).  A single slash is [Divide]. *)
Theorem line_comment_is_skipped st body rest :
  drop (i st) (srctext st) = "/"%char :: "/"%char :: body ++ rest →
  Forall (λ c, c ≠ LF) body → rest = [] ∨ head rest = Some LF →
  tokenize_body st = Continue (set_i (i st + 2 + length body) st).
Proof.
  intros Hd Hb Hrest. pose proof Hd as (Hlt & Hat & Hd')%drop_cons_inv.
  pose proof (drop_cons_length _ _ _ _ Hd') as HL.
  rewrite (tokenize_body_slash _ Hat).
  unfold nextCharacterIsSame. rewrite Hat, Nat.add_1_r, (at_drop _ _ _ _ Hd').
  rewrite !bool_decide_eq_true_2 by (done || lia). simpl.
  unfold skipComment, while_append. cbv zeta. rewrite Hd. simpl snd.
  rewrite (span_stops _ body rest).
  - do 2 f_equal. lia.
  - apply forallb_forall. intros c Hc.
    apply bool_decide_eq_true. rewrite Forall_forall in Hb.
    apply Hb. by apply list_elem_of_In.
  - destruct Hrest as [->|Hh]; [done|].
    destruct rest as [|c rest]; [done|]. simpl in *. by simplify_eq.
Qed.

Lemma line_comment_is_skipped_witness :
  tokenize_body (init ∅ (str "// a @ b" ++ [LF] ++ str "x"))
  = Continue (set_i (0 + 2 + 6) (init ∅ (str "// a @ b" ++ [LF] ++ str "x"))).
Proof.
  apply (line_comment_is_skipped (init ∅ (str "// a @ b" ++ [LF] ++ str "x"))
           (str " a @ b") (LF :: str "x")).
  - reflexivity.
  - repeat constructor; by vm_compute.
  - by right.
Defined.

(** ** Operators *)

(** X5.  The eight characters that double: when the character at [i] is
    followed by itself, one pass pushes the two characters with the
    double kind and moves [i] onto the second; otherwise it pushes the
    one character with the single kind.  Three in a row therefore give
    the double operator and then the single one. *)
Theorem double_operators_lexed st c d s rest :
  (c, d, s) ∈ double_operators →
  drop (i st) (srctext st) = c :: rest →
  tokenize_body st
  = Continue (if bool_decide (head rest = Some c)
              then set_i (S (i st)) (push_back [c; c] d st)
              else push_back [c] s st).
Proof.
  intros Hin Hd. pose proof Hd as (Hlt & Hat & Hd')%drop_cons_inv.
  assert (tokenize_body st = Continue (doubleOrSingle d s st)) as ->.
  { unfold double_operators in Hin.
    repeat (apply elem_of_cons in Hin as [Hin|Hin];
            [injection Hin as -> -> ->;
             unfold tokenize_body, isSkippable; cbv zeta; by rewrite !Hat|]).
    by apply elem_of_nil in Hin. }
  unfold doubleOrSingle, nextCharacterIsSame, handleDoubleCharacter,
    handleSingleCharacter, substr.
  rewrite Hat, Hd, Nat.add_1_r.
  pose proof (drop_cons_length _ _ _ _ Hd) as HL.
  destruct rest as [|c' rest].
  - rewrite (bool_decide_eq_false_2 (_ < _)) by (simpl in HL; lia).
    by rewrite (bool_decide_eq_false_2 (head _ = _)).
  - rewrite (at_drop _ _ _ _ Hd').
    rewrite (bool_decide_eq_true_2 (_ < _)) by (simpl in HL; lia).
    simpl. case_bool_decide as Hc.
    + subst c'. by rewrite bool_decide_eq_true_2.
    + rewrite bool_decide_eq_false_2; [done|]. intros [= ->]. done.
Qed.

Lemma double_operators_lexed_witness :
  tokenize_body (init ∅ (str "===;"))
  = Continue (set_i 1 (push_back (str "==") EqualsEquals
                         (init ∅ (str "===;")))).
Proof.
  apply (double_operators_lexed (init ∅ (str "===;")) "="%char EqualsEquals
           Equals (str "==;")).
  - unfold double_operators. set_solver.
  - reflexivity.
Defined.

(** ** Literals *)

(** X6.  A string literal with at least one character between its quotes
    and no line break in it is read in one pass as one [string_literal]
    holding the characters as they stand (a backslash is an ordinary
    character), and the next pass starts after the closing quote. *)
Theorem string_literal_read_verbatim classnames src st c body rest :
  reaches classnames src st →
  drop (i st) src = DQUOTE :: (c :: body) ++ DQUOTE :: rest →
  Forall (λ c, c ≠ DQUOTE ∧ c ≠ LF ∧ c ≠ CR) (c :: body) →
  reaches classnames src
    (set_i (i st + length (c :: body) + 2)
       (push_back (c :: body) string_literal st))
  ∧ drop (i st + length (c :: body) + 2) src = rest.
Proof.
  intros Hr Hd Hb.
  destruct (reaches_inv _ _ _ Hr) as [Hs _ _ _]. rewrite <- Hs in *.
  pose proof Hd as (Hlt & Hq & Hd')%drop_cons_inv.
  split.
  - destruct Hr as [n Hn]. exists (n + 1).
    eapply passes_app; [done|].
    pose proof (buildString_closed st c body rest Hd Hb) as Hbs.
    rewrite <- (tokenize_body_string _ Hq) in Hbs.
    rewrite (passes_one st _ Hlt Hbs).
    unfold next, push_back, set_i. simpl_state. do 2 f_equal.
    simpl. lia.
  - apply drop_app_inv in Hd'. simpl in Hd'.
    apply (drop_cons_inv (set_i (S (i st + S (length body))) st)) in Hd'
      as (_ & _ & Hd').
    simpl_state. rewrite <- Hd'. f_equal. simpl. lia.
Qed.

Lemma string_literal_read_verbatim_witness :
  reaches ∅ (DQUOTE :: str "a\n" ++ [DQUOTE; ";"%char])
    (set_i (0 + 3 + 2)
       (push_back (str "a\n") string_literal
          (init ∅ (DQUOTE :: str "a\n" ++ [DQUOTE; ";"%char]))))
  ∧ drop (0 + 3 + 2) (DQUOTE :: str "a\n" ++ [DQUOTE; ";"%char]) = str ";".
Proof.
  apply (string_literal_read_verbatim ∅
           (DQUOTE :: str "a\n" ++ [DQUOTE; ";"%char])
           (init ∅ (DQUOTE :: str "a\n" ++ [DQUOTE; ";"%char]))
           "a"%char (str "\n") (str ";")).
  - by exists 0.
  - reflexivity.
  - repeat constructor; by vm_compute.
Defined.

(** X7.  A character literal never looks at its closing quote.  After
    the opening quote and a character [c] other than a backslash the
    pass pushes [c] as a [char_literal], and the loop resumes three
    characters on: whatever stands where the closing quote should be is
    skipped.  An opening quote at the very end of the source gives a
    [char_literal] with an empty text. *)
Theorem char_literal_skips_third classnames src st :
  reaches classnames src st →
  (∀ c rest,
     drop (i st) src = SQUOTE :: c :: rest → c ≠ "\"%char →
     reaches classnames src
       (set_i (i st + 3) (push_back [c] char_literal st)))
  ∧ (drop (i st) src = [SQUOTE] →
     tokenize classnames src
     = Returned (tokens st ++ [mkToken [] char_literal; EOF_token])
         (user_defined_classnames st)).
Proof.
  intros Hr.
  destruct (reaches_inv _ _ _ Hr) as [Hs _ _ _]. rewrite <- Hs in *.
  assert (∀ r, drop (i st) (srctext st) = SQUOTE :: r →
               tokenize_body st = Continue (buildChar st)) as Hbody.
  { intros r (_ & Hat & _)%drop_cons_inv.
    unfold tokenize_body, isSkippable. cbv zeta. by rewrite !Hat. }
  split.
  - intros c rest Hd Hc. pose proof Hd as (Hlt & _ & Hd')%drop_cons_inv.
    destruct Hr as [n Hn]. exists (n + 1).
    eapply passes_app; [done|].
    rewrite (passes_one st _ Hlt (Hbody _ Hd)).
    unfold buildChar, substr. simpl_state.
    rewrite (at_drop (set_i (S (i st)) st) _ _ _ Hd'), Hd'.
    rewrite bool_decide_eq_false_2 by done.
    unfold next, push_back, set_i. simpl_state. do 2 f_equal. lia.
  - intros Hd. pose proof Hd as (Hlt & _ & Hd')%drop_cons_inv.
    pose proof (drop_cons_length _ _ _ _ Hd) as HL. simpl in HL.
    rewrite (reaches_tokenize _ _ _ Hr).
    destruct (LENGTH st - i st) as [|fuel] eqn:Hf; [lia|].
    rewrite tokenize_loop_step, (Hbody _ Hd) by done.
    rewrite tokenize_loop_done
      by (unfold next, buildChar, LENGTH; simpl_state; lia).
    unfold next, buildChar, substr. simpl_state.
    rewrite Hd', (at_end (set_i (S (i st)) st))
      by (unfold LENGTH; simpl_state; lia).
    rewrite bool_decide_eq_false_2 by done.
    simpl_state. by rewrite <- app_assoc.
Qed.

Lemma char_literal_skips_third_witness :
  reaches ∅ (str "'ab") (set_i (0 + 3) (push_back (str "a") char_literal
                                          (init ∅ (str "'ab"))))
  ∧ tokenize ∅ (str "'")
    = Returned ([] ++ [mkToken [] char_literal; EOF_token]) ∅.
Proof.
  split.
  - apply (proj1 (char_literal_skips_third ∅ (str "'ab") (init ∅ (str "'ab"))
                    ltac:(by exists 0)) "a"%char (str "b")); done.
  - apply (proj2 (char_literal_skips_third ∅ (str "'") (init ∅ (str "'"))
                    ltac:(by exists 0))); done.
Defined.

(** The ['.'] case of the [switch]. *)
Lemma tokenize_body_dot st :
  at_ st (i st) = "."%char →
  tokenize_body st =
    if bool_decide (i st + 1 < LENGTH st) && isInt (set_i (S (i st)) st)
    then Continue (buildNumber false st)
    else Continue (handleSingleCharacter Dot st).
Proof.
  intros H. unfold tokenize_body, isSkippable. cbv zeta. by rewrite !H.
Qed.

(** X8.  A dot followed by a digit starts a number: the pass pushes one
    [float_literal] made of the dot and the digits after it and leaves
    [i] on the last digit.  Any other dot is the [Dot] operator. *)
Theorem leading_dot_is_float st :
  (∀ digits rest,
     drop (i st) (srctext st) = "."%char :: digits ++ rest →
     digits ≠ [] → forallb isInt_char digits = true → stops isInt_char rest →
     tokenize_body st
     = Continue (set_i (i st + length digits)
                   (push_back ("."%char :: digits) float_literal st)))
  ∧ (∀ rest,
       drop (i st) (srctext st) = "."%char :: rest → stops isInt_char rest →
       tokenize_body st = Continue (push_back (str ".") Dot st)).
Proof.
  split.
  - intros digits rest Hd Hne Hds Hrest.
    pose proof Hd as (Hlt & Hat & Hd')%drop_cons_inv.
    pose proof (drop_cons_length _ _ _ _ Hd) as HL.
    destruct digits as [|d digits]; [done|].
    pose proof Hds as [Hd1 _]%andb_true_iff.
    rewrite (tokenize_body_dot _ Hat). unfold isInt. simpl_state.
    rewrite (at_drop (set_i (S (i st)) st) _ _ _ Hd'), Hd1.
    rewrite bool_decide_eq_true_2 by (unfold LENGTH; simpl in HL; lia).
    simpl andb. cbv iota.
    rewrite (buildNumber_float false st [] ((d :: digits) ++ rest))
      by done.
    rewrite (span_stops _ _ _ Hds Hrest). simpl. do 2 f_equal. lia.
  - intros rest Hd Hrest.
    pose proof Hd as (Hlt & Hat & Hd')%drop_cons_inv.
    pose proof (drop_cons_length _ _ _ _ Hd) as HL.
    rewrite (tokenize_body_dot _ Hat). unfold isInt. simpl_state.
    unfold handleSingleCharacter, substr. rewrite Hd.
    destruct rest as [|c rest].
    + by rewrite bool_decide_eq_false_2 by (unfold LENGTH; simpl in HL; lia).
    + rewrite (at_drop (set_i (S (i st)) st) _ _ _ Hd').
      simpl in Hrest. by rewrite Hrest, andb_false_r.
Qed.

Lemma leading_dot_is_float_witness :
  tokenize_body (init ∅ (str ".5.x"))
  = Continue (set_i (0 + 1) (push_back (str ".5") float_literal
                               (init ∅ (str ".5.x"))))
  ∧ tokenize_body (mkState (str ".5.x") [mkToken (str ".5") float_literal]
                     2 float_literal ∅)
    = Continue (push_back (str ".") Dot
                  (mkState (str ".5.x") [mkToken (str ".5") float_literal]
                     2 float_literal ∅)).
Proof.
  split.
  - apply (proj1 (leading_dot_is_float (init ∅ (str ".5.x")))
             (str "5") (str ".x")); done.
  - apply (proj2 (leading_dot_is_float
                    (mkState (str ".5.x") [mkToken (str ".5") float_literal]
                       2 float_literal ∅)) (str "x")); done.
Defined.

(** X9.  In a sign context (after a binary operator, [=], [(] or [,]) a
    ['-'] that no digit, dot or ['>'] follows still goes through
    [buildNumber]: the pass pushes a [negative_integer_literal] whose
    text is the sign alone and leaves [i] where it was, and a ['-'] that
    ends the source gives a [float_literal] made of the sign and the
    terminating NUL. *)
Theorem lone_minus_in_sign_context classnames src st :
  reaches classnames src st →
  signContext (lastType st) = true →
  (∀ c rest,
     drop (i st) src = "-"%char :: c :: rest →
     isInt_char c = false → c ≠ "."%char → c ≠ ">"%char →
     tokenize_body st
     = Continue (push_back (str "-") negative_integer_literal st))
  ∧ (drop (i st) src = str "-" →
     tokenize classnames src
     = Returned (tokens st ++ [mkToken ("-"%char :: [NUL]) float_literal;
                               EOF_token])
         (user_defined_classnames st)).
Proof.
  intros Hr Hsign.
  destruct (reaches_inv _ _ _ Hr) as [Hs _ _ _]. rewrite <- Hs in *.
  split.
  - intros c rest Hd Hc Hdot Hgt.
    pose proof Hd as (Hlt & Hat & Hd')%drop_cons_inv.
    rewrite (tokenize_body_minus _ Hat). unfold nextCharacterIs.
    rewrite Nat.add_1_r, (at_drop _ _ _ _ Hd').
    rewrite (bool_decide_eq_false_2 (c = _)), andb_false_r, Hsign by done.
    rewrite (buildNumber_integer true (set_i (S (i st)) st) [] c rest)
      by done.
    unfold push_back, set_i. simpl_state. simpl length.
    by rewrite Nat.add_0_r, Nat.sub_1_r.
  - intros Hd. pose proof Hd as (Hlt & Hat & Hd')%drop_cons_inv.
    pose proof (drop_cons_length _ _ _ _ Hd) as HL. simpl in HL.
    rewrite (reaches_tokenize _ _ _ Hr).
    destruct (LENGTH st - i st) as [|fuel] eqn:Hf; [lia|].
    rewrite tokenize_loop_step, (tokenize_body_minus _ Hat) by done.
    unfold nextCharacterIs.
    rewrite (bool_decide_eq_false_2 (_ < _)), Hsign by lia. simpl andb.
    cbv iota.
    rewrite (buildNumber_at_end true (set_i (S (i st)) st) [])
      by (done || unfold LENGTH; simpl_state; lia).
    rewrite tokenize_loop_done by (unfold next, LENGTH; simpl_state; lia).
    unfold next. simpl_state. by rewrite <- app_assoc.
Qed.

Lemma lone_minus_in_sign_context_witness :
  tokenize_body after_equals
  = Continue (push_back (str "-") negative_integer_literal after_equals)
  ∧ tokenize ∅ (str "a = -")
    = Returned [mkToken (str "a") Identifier; mkToken (str "=") Equals;
                mkToken ("-"%char :: [NUL]) float_literal; EOF_token] ∅.
Proof.
  split.
  - apply (proj1 (lone_minus_in_sign_context ∅ (str "a = -b") after_equals
                    ltac:(by exists 4) ltac:(done)) "b"%char []); done.
  - apply (proj2 (lone_minus_in_sign_context ∅ (str "a = -")
                    (mkState (str "a = -")
                       [mkToken (str "a") Identifier;
                        mkToken (str "=") Equals] 4 Equals ∅)
                    ltac:(by exists 4) ltac:(done))); done.
Defined.

(** ** Identifiers *)

Lemma isAlpha_char_not_special c :
  isAlpha_char c = true →
  isSkippable_char c = false ∧ switch_char c = false ∧ isInt_char c = false.
Proof.
  destruct c as [[] [] [] [] [] [] [] []]; vm_compute; intros; by simplify_eq.
Qed.

Lemma tokenize_body_alpha st :
  isAlpha st = true → tokenize_body st = Continue (buildIdentifier st).
Proof.
  intros Ha. pose proof Ha as (Hs & Hw & Hi)%isAlpha_char_not_special.
  rewrite tokenize_body_default by done. unfold isInt. by rewrite Hi, Ha.
Qed.

Lemma parseIdentifier_eq st a tail rest :
  drop (i st) (srctext st) = (a :: tail) ++ rest →
  isAlpha_char a = true → forallb ident_char tail = true →
  stops ident_char rest →
  parseIdentifier st = (a :: tail, set_i (i st + length tail) st).
Proof.
  intros Hd Ha Ht Hrest. unfold parseIdentifier, while_append.
  change (λ c, isInt_char c || isAlpha_char c || bool_decide (c = "_"%char))
    with ident_char.
  rewrite Hd, span_stops; [|simpl; unfold ident_char at 1|done].
  - simpl_state. simpl. f_equal. unfold set_i. simpl_state. f_equal. lia.
  - rewrite Ha, orb_true_r. done.
Qed.

(** X10.  A name that is not reserved (a letter, then letters, digits
    and underscores, up to the first other character) is pushed as one
    token.  It is a [ClassType] exactly when the token before it was
    [class] or the name is already in the class-name set, and an
    [Identifier] otherwise; it enters the set exactly when the token
    before it was [class].  A name cannot begin with an underscore: the
    lexer has no rule for it there. *)
Theorem identifier_classified st :
  (∀ a tail rest,
     drop (i st) (srctext st) = (a :: tail) ++ rest →
     isAlpha_char a = true → forallb ident_char tail = true →
     stops ident_char rest → ¬ reserved (a :: tail) →
     ∃ st',
       tokenize_body st = Continue st'
       ∧ i st' = i st + length tail
       ∧ tokens st'
         = tokens st ++
           [mkToken (a :: tail)
              (if bool_decide (lastType st = class_
                               ∨ a :: tail ∈ user_defined_classnames st)
               then ClassType else Identifier)]
       ∧ user_defined_classnames st'
         = if bool_decide (lastType st = class_)
           then {[ a :: tail ]} ∪ user_defined_classnames st
           else user_defined_classnames st)
  ∧ (∀ rest, drop (i st) (srctext st) = "_"%char :: rest →
             tokenize_body st = ReturnEmpty st).
Proof.
  split.
  - intros a tail rest Hd Ha Ht Hrest Hres.
    pose proof Hd as (_ & Hat & _)%drop_cons_inv.
    rewrite tokenize_body_alpha by (unfold isAlpha; by rewrite Hat).
    eexists. split; [done|].
    unfold buildIdentifier. rewrite (parseIdentifier_eq _ _ _ _ Hd) by done.
    unfold reserved in Hres.
    rewrite !(bool_decide_eq_false_2 (_ = str _)) by tauto. simpl orb.
    cbv iota.
    destruct (KEYWORDS !! (a :: tail)) eqn:Hk; [by destruct Hres; eauto 6|].
    rewrite (bool_decide_eq_false_2 (_ ∈ DEFAULT_TYPES)) by tauto.
    destruct (decide (lastType st = class_)) as [Hc|Hc].
    + simpl_state. rewrite !bool_decide_eq_true_2 by auto. done.
    + simpl_state. rewrite (bool_decide_eq_false_2 (_ = class_)) by done.
      destruct (decide (a :: tail ∈ user_defined_classnames st)).
      * by rewrite !bool_decide_eq_true_2 by auto.
      * by rewrite !bool_decide_eq_false_2 by tauto.
  - intros rest (_ & Hat & _)%drop_cons_inv.
    apply tokenize_body_unrecognized. by rewrite Hat.
Qed.

Lemma identifier_classified_witness :
  ∃ st',
    tokenize_body after_class = Continue st'
    ∧ i st' = 6 + 2
    ∧ tokens st' = [mkToken (str "class") class_] ++
                   [mkToken (str "Foo") ClassType]
    ∧ user_defined_classnames st' = {[ str "Foo" ]} ∪ ∅.
Proof.
  apply (proj1 (identifier_classified after_class)
           "F"%char (str "oo") (str ";")); try done.
  unfold reserved. intros [?|[?|[[? ?]|Hin]]]; [done|done|done|].
  revert Hin. apply (bool_decide_unpack _). by vm_compute.
Defined.

(** ** Kinds and texts *)

Lemma single_fits st c ty :
  i st < LENGTH st → at_ st (i st) = c → spelling ty = Some [c] →
  kind_fits (mkToken (substr st (i st) 1) ty).
Proof.
  intros Hlt Hat Hty. unfold kind_fits, substr. simpl.
  by rewrite Hty, drop_at, Hat.
Qed.

Lemma double_fits st c c' ty :
  i st < LENGTH st → at_ st (i st) = c → nextCharacterIs c' st = true →
  spelling ty = Some [c; c'] →
  kind_fits (mkToken (substr st (i st) 2) ty).
Proof.
  intros Hlt Hat [Hn Hc%bool_decide_eq_true]%andb_true_iff Hty.
  apply bool_decide_eq_true in Hn.
  unfold kind_fits, substr. simpl. rewrite Hty, drop_at, Hat by done.
  rewrite Nat.add_1_r in *.
  pose proof (drop_at (set_i (S (i st)) st) Hn) as Hd. simpl_state.
  change (at_ (set_i (S (i st)) st)) with (at_ st) in Hd.
  by rewrite Hd, Hc.
Qed.

Lemma nextCharacterIsSame_Is st :
  nextCharacterIsSame st = nextCharacterIs (at_ st (i st)) st.
Proof.
  unfold nextCharacterIsSame, nextCharacterIs. f_equal.
  apply bool_decide_ext. naive_solver.
Qed.

Lemma doubleOrSingle_fits st c d s :
  i st < LENGTH st → at_ st (i st) = c →
  spelling d = Some [c; c] → spelling s = Some [c] →
  ∃ tk, tokens (doubleOrSingle d s st) = tokens st ++ [tk] ∧ kind_fits tk.
Proof.
  intros Hlt Hat Hd Hs. unfold doubleOrSingle.
  destruct (nextCharacterIsSame st) eqn:Hn.
  - eexists. split; [done|]. rewrite nextCharacterIsSame_Is, Hat in Hn.
    by eapply double_fits.
  - eexists. split; [done|]. by eapply single_fits.
Qed.

Lemma buildNumber_fits neg st :
  ∃ tk, tokens (buildNumber neg st) = tokens st ++ [tk] ∧ kind_fits tk.
Proof.
  unfold buildNumber, while_append.
  case_match; [destruct neg|]; by eexists.
Qed.

Lemma buildString_fits st st' :
  buildString st = Continue st' →
  ∃ tk, tokens st' = tokens st ++ [tk] ∧ kind_fits tk.
Proof.
  unfold buildString. intros H.
  destruct (_ && _); [simplify_eq; by eexists|].
  destruct (buildString_loop _ _ _) as [[s k]|]; [|done].
  destruct (_ && _); simplify_eq. by eexists.
Qed.

Lemma KEYWORDS_spelling id kw : KEYWORDS !! id = Some kw → spelling kw = Some id.
Proof.
  unfold KEYWORDS. intros H%elem_of_list_to_map_2.
  repeat (apply elem_of_cons in H as [H|H]; [by injection H as -> ->|]).
  by apply elem_of_nil in H.
Qed.

Lemma buildIdentifier_fits st :
  ∃ tk, tokens (buildIdentifier st) = tokens st ++ [tk] ∧ kind_fits tk.
Proof.
  unfold buildIdentifier, parseIdentifier, while_append. simpl_state.
  set (id := _ ++ _).
  destruct (_ || _) eqn:Hbool.
  { eexists. split; [done|]. unfold kind_fits. simpl.
    apply orb_true_iff in Hbool as [?%bool_decide_eq_true|?%bool_decide_eq_true];
      auto. }
  apply orb_false_iff in Hbool
    as [Hf%bool_decide_eq_false Ht%bool_decide_eq_false].
  destruct (KEYWORDS !! id) eqn:Hk.
  { eexists. split; [done|]. unfold kind_fits. simpl.
    by rewrite (KEYWORDS_spelling _ _ Hk). }
  destruct (bool_decide (id ∈ DEFAULT_TYPES)) eqn:Hd.
  { apply bool_decide_eq_true in Hd.
    destruct (bool_decide (id = str "String")) eqn:Hs.
    - apply bool_decide_eq_true in Hs. eexists. split; [done|]. by left.
    - apply bool_decide_eq_false in Hs. eexists. split; [done|].
      split; assumption. }
  apply bool_decide_eq_false in Hd.
  assert (¬ reserved id) as Hres.
  { intros [?|[?|[[? ?]|?]]]; congruence. }
  destruct (bool_decide (lastType st = class_));
    [|destruct (bool_decide (id ∈ user_defined_classnames st))];
    eexists; (split; [done|]); unfold kind_fits; simpl; auto.
Qed.

(** On the equation of one pass, splits the [if] chain of the loop body
    at its first test. *)
Ltac chain_test :=
  match goal with
  | |- (if ?b then _ else _) = _ → _ =>
      let H := fresh "Hc" in
      destruct b eqn:H; [try apply bool_decide_eq_true in H|clear H]
  end.

Ltac chain_branch := chain_test; [intros [= <-]|].

Ltac fits_single :=
  right; eexists; split; [reflexivity|]; by eapply single_fits.

Ltac fits_double :=
  right; by eapply doubleOrSingle_fits.

Lemma tokenize_body_fits st st' :
  i st < LENGTH st → tokenize_body st = Continue st' →
  tokens st' = tokens st
  ∨ ∃ tk, tokens st' = tokens st ++ [tk] ∧ kind_fits tk.
Proof.
  intros Hlt. unfold tokenize_body. cbv zeta.
  chain_branch; [by left|].
  do 6 (chain_branch; [fits_single|]).
  do 3 (chain_branch; [fits_double|]).
  chain_branch; [fits_single|].
  chain_test.
  { destruct (nextCharacterIs _ st) eqn:Hn; [|destruct (signContext _)];
      intros [= <-].
    - right. eexists. split; [done|]. by eapply double_fits.
    - right. apply (buildNumber_fits true (set_i (S (i st)) st)).
    - fits_double. }
  chain_branch; [fits_double|].
  chain_test.
  { destruct (nextCharacterIsSame st); intros [= <-]; [by left|fits_single]. }
  chain_branch; [fits_single|].
  do 4 (chain_branch; [fits_double|]).
  chain_test.
  { destruct (nextCharacterIs _ st) eqn:Hn; intros [= <-]; [|fits_single].
    right. eexists. split; [done|]. by eapply double_fits. }
  chain_test.
  { destruct (_ && _); intros [= <-];
      [right; apply buildNumber_fits|fits_single]. }
  chain_test; [intros ?; right; by apply buildString_fits|].
  chain_branch; [right; by eexists|].
  chain_branch; [right; apply buildNumber_fits|].
  chain_branch; [right; apply buildIdentifier_fits|].
  done.
Qed.

Lemma tokenize_loop_fits fuel st toks classnames :
  Forall kind_fits (tokens st) →
  tokenize_loop fuel st = Returned toks classnames →
  Forall kind_fits toks.
Proof.
  revert st. induction fuel as [|fuel IH]; intros st Htoks.
  - simpl. case_bool_decide; [done|]. intros [= <- _].
    apply Forall_app. split; [done|]. by apply Forall_singleton.
  - destruct (decide (i st < LENGTH st)) as [Hlt|Hge].
    + rewrite tokenize_loop_step by done.
      destruct (tokenize_body st) as [st'|st'|] eqn:Hb; [| |done].
      * apply IH. unfold next. simpl_state.
        destruct (tokenize_body_fits _ _ Hlt Hb) as [->|(tk & -> & Htk)];
          [done|].
        apply Forall_app. split; [done|]. by apply Forall_singleton.
      * intros [= <- _]. constructor.
    + rewrite tokenize_loop_done by done. intros [= <- _].
      apply Forall_app. split; [done|]. by apply Forall_singleton.
Qed.

(** X11.  In every token list [tokenize] returns, kind and text agree:
    an operator, punctuation or keyword kind comes with the spelling
    the [enum] and [KEYWORDS] give it, [bool_literal] with [true] or
    [false], [PrimitiveType] with a default type other than [String],
    [Identifier] with a name that is not reserved, [ClassType] with
    [String] or such a name; and no token has the kind [KeyWord] or
    [constexpr_], which the lexer never produces. *)
Theorem token_kinds_fit_texts classnames src toks classnames' :
  tokenize classnames src = Returned toks classnames' →
  Forall kind_fits toks.
Proof. apply tokenize_loop_fits. constructor. Qed.

Lemma token_kinds_fit_texts_witness :
  Forall kind_fits
    [mkToken (str "if") if_; mkToken (str "(") OParen;
     mkToken (str "a") Identifier; mkToken (str "==") EqualsEquals;
     mkToken (str "true") bool_literal; mkToken (str ")") CParen;
     EOF_token].
Proof.
  apply (token_kinds_fit_texts ∅ (str "if (a == true)") _ ∅).
  vm_compute. reflexivity.
Defined.

(** * More properties of the parser *)

(** ** The pipeline of [main] *)

Lemma produceAST_empty fuel : Parser.produceAST [] fuel = Parser.Undefined.
Proof. by destruct fuel. Qed.

(** X12.  When the loop of the lexer arrives at a character it has no
    rule for, [tokenize] returns the empty list and [produceAST] reads
    [tokens[ 0 ]] of an empty vector: the behaviour of the program is
    undefined, whatever came before that character.  On a source of
    white space alone the parser returns the empty [Program]. *)
Theorem degenerate_sources fuel src :
  (∀ st c rest,
     reaches ∅ src st → drop (i st) src = c :: rest → recognized c = false →
     Parser.parse fuel src = Some Parser.Undefined)
  ∧ (forallb isSkippable_char src = true →
     Parser.parse fuel src = Some (Parser.Ok (ast.mkProgram []) 0)).
Proof.
  split.
  - intros st c rest Hr Hd Hc.
    destruct (reaches_inv _ _ _ Hr) as [Hs _ _ _]. rewrite <- Hs in Hd.
    pose proof Hd as (Hlt & Hat & _)%drop_cons_inv.
    unfold Parser.parse. rewrite (reaches_tokenize _ _ _ Hr).
    destruct (LENGTH st - i st) as [|n] eqn:Hf; [lia|].
    rewrite tokenize_loop_step by done.
    rewrite tokenize_body_unrecognized by by rewrite Hat.
    by rewrite produceAST_empty.
  - intros Hws. unfold Parser.parse.
    assert (reaches ∅ src (set_i (0 + length src) (init ∅ src))) as Hr.
    { exists (length src). apply (passes_blanks src []); [|done].
      simpl. by rewrite app_nil_r. }
    rewrite (reaches_tokenize _ _ _ Hr).
    rewrite tokenize_loop_done by (unfold LENGTH; simpl; lia).
    by destruct fuel.
Qed.

Lemma degenerate_sources_witness :
  Parser.parse 10 (str "a = #") = Some Parser.Undefined
  ∧ Parser.parse 0 (str "  ") = Some (Parser.Ok (ast.mkProgram []) 0).
Proof.
  split.
  - apply (proj1 (degenerate_sources 10 (str "a = #")) before_hash
             "#"%char []); [by exists 4|done|done].
  - by apply (proj2 (degenerate_sources 0 (str "  "))).
Defined.

(** ** Statements that start with a type *)

Section forward.

Import Parser Parser.Methods.

Context (tokens : TokenList).

Lemma peekNext_eq k tk :
  tokens !! (k + 1) = Some tk → peekNext tokens k = Ok tk k.
Proof. unfold peekNext. by intros ->. Qed.

Lemma peekTo_eq j tk k :
  tokens !! j = Some tk → peekTo tokens j k = Ok tk k.
Proof.
  intros Htk. unfold peekTo.
  rewrite bool_decide_eq_false_2, Htk; [done|].
  apply lookup_lt_Some in Htk. lia.
Qed.

Lemma expect_Err ty err k tk :
  tokens !! k = Some tk → type tk ≠ ty →
  expect tokens ty err k = Err (unexpected err).
Proof.
  intros Htk Hty. unfold expect. rewrite (bind_eq _ _ _ _ _ (eat_eq _ _ _ Htk)).
  by rewrite bool_decide_eq_true_2.
Qed.

Lemma expect2_eq type1 type2 err k tk :
  tokens !! k = Some tk → type tk = type1 ∨ type tk = type2 →
  expect2 tokens type1 type2 err k = Ok tk (S k).
Proof.
  intros Htk Hty. unfold expect2.
  rewrite (bind_eq _ _ _ _ _ (eat_eq _ _ _ Htk)).
  destruct Hty as [Hty|Hty].
  - by rewrite (bool_decide_eq_false_2 (_ ≠ type1)) by auto.
  - rewrite (bool_decide_eq_false_2 (_ ≠ type2)) by auto.
    by rewrite andb_false_r.
Qed.

End forward.

(** X13.  A statement that starts with a type and a name is a variable
    declaration only when [=] comes next; in every other case
    [handleType] takes it for a function, so that a declaration without
    an initial value, [T x;], is rejected for its missing parameter
    list, though [parseVariableDeclaration] has a case for it. *)
Theorem uninitialized_declaration_rejected
    tokens fuel self allow k ty name tk :
  tokens !! k = Some ty → type ty = PrimitiveType ∨ type ty = ClassType →
  tokens !! (k + 1) = Some name → type name = Identifier →
  tokens !! (k + 2) = Some tk → type tk ≠ Equals → type tk ≠ OParen →
  Parser.Methods.parseStatement tokens fuel self allow k
  = Parser.Err (Parser.Methods.unexpected
                  (str "missing open paren to start parameter list")).
Proof.
  intros Hty Hkind Hname Hid Htk Hne Hnp.
  assert (type ty ≠ mutable_ ∧ type ty ≠ if_ ∧ type ty ≠ namespace_
          ∧ type ty ≠ Identifier) as (Hm & Hi & Hn & Hd)
    by (destruct Hkind as [-> | ->]; done).
  assert (isRefOrPtr name = false) as Hrp
    by (unfold isRefOrPtr; by rewrite Hid).
  unfold Parser.Methods.parseStatement.
  rewrite (bind_eq _ _ _ _ _ (peek_eq _ _ _ Hty)).
  unfold Parser.is_type at 1 2 3.
  rewrite !bool_decide_eq_false_2 by done.
  replace (Parser.is_type ty PrimitiveType || Parser.is_type ty ClassType)
    with true
    by (unfold Parser.is_type; destruct Hkind as [-> | ->]; done).
  unfold Parser.Methods.handleType.
  rewrite (bind_eq _ _ _ _ _ (peekNext_eq _ _ _ Hname)).
  rewrite (bind_eq _ _ _ k k) by done.
  rewrite Hrp. rewrite (bind_eq _ _ _ (name, 0) k) by done.
  unfold Parser.is_type at 1. rewrite Hid.
  rewrite bool_decide_eq_true_2 by done.
  change (negb true) with false. cbv iota.
  rewrite Nat.add_0_r, (bind_eq _ _ _ _ _ (peekTo_eq _ _ _ k Htk)).
  unfold Parser.is_type at 1. rewrite bool_decide_eq_false_2 by done.
  apply bind_Err. unfold Parser.Methods.parseFunctionDeclaration.
  rewrite (bind_eq _ _ _ _ _ (eatIfMutable_eq _ _ _ Hty)).
  unfold Parser.is_type at 1 2. rewrite (bool_decide_eq_false_2 _ Hm).
  rewrite (bind_eq _ _ _ _ _ (expect2_eq tokens ClassType PrimitiveType
                                 _ k ty Hty ltac:(tauto))).
  rewrite <- Nat.add_1_r.
  destruct (eatIfRefOrPtr_eq _ _ _ Hname) as (isRef & isPtr & Hrp' & Hnew).
  rewrite Hrp in Hrp'. rewrite (bind_eq _ _ _ _ _ Hrp').
  rewrite (bind_eq _ _ _ _ _ (Hnew _ _ _)).
  rewrite (bind_eq _ _ _ _ _ (expect_eq _ _ _ _ _ Hname Hid)).
  replace (S (k + 1)) with (k + 2) by lia.
  apply bind_Err. by apply (expect_Err _ _ _ _ tk).
Qed.

Lemma uninitialized_declaration_rejected_witness :
  Parser.Methods.parseStatement int32_x 10 (Parser.calls int32_x 10) true 0
  = Parser.Err (Parser.Methods.unexpected
                  (str "missing open paren to start parameter list")).
Proof.
  apply (uninitialized_declaration_rejected int32_x 10 _ true 0
           (mkToken (str "int32") PrimitiveType)
           (mkToken (str "x") Identifier)
           (mkToken (str ";") Semicolon)); try done.
  by left.
Defined.

Lemma parseVariableDeclaration_no_name tokens fuel self k m ty t2 eq :
  tokens !! k = Some m → type m = mutable_ →
  tokens !! (k + 1) = Some ty → type ty = PrimitiveType ∨ type ty = ClassType →
  tokens !! (k + 2) = Some t2 →
  tokens !! (if isRefOrPtr t2 then k + 3 else k + 2) = Some eq →
  type eq = Equals →
  Parser.Methods.parseVariableDeclaration tokens fuel self k
  = Parser.Err (Parser.Methods.unexpected
                  (str "Expected an identifier for a variable")).
Proof.
  intros Hm Hmut Hty Hkind Ht2 Heq Hequals.
  unfold Parser.Methods.parseVariableDeclaration.
  assert (Parser.is_type m mutable_ = true) as Him
    by (unfold Parser.is_type; by rewrite Hmut).
  pose proof (eatIfMutable_eq _ _ _ Hm) as Hem. rewrite Him in Hem.
  rewrite (bind_eq _ _ _ _ _ Hem).
  replace (S k) with (k + 1) by lia.
  rewrite (bind_eq _ _ _ _ _ (expect2_eq tokens ClassType PrimitiveType
                                 _ (k + 1) ty Hty ltac:(tauto))).
  replace (S (k + 1)) with (k + 2) by lia.
  destruct (eatIfRefOrPtr_eq _ _ _ Ht2) as (isRef & isPtr & Hrp & Hnew).
  rewrite (bind_eq _ _ _ _ _ Hrp).
  rewrite (bind_eq _ _ _ _ _ (Hnew _ _ _)).
  replace (S (k + 2)) with (k + 3) by lia.
  apply bind_Err. apply (expect_Err _ _ _ _ eq); [done|by rewrite Hequals].
Qed.

(** X14.  The branch of [handleMutable] for [mutable T =] (with or
    without a sigil after the type) can only fail: it calls
    [parseAssignmentExpression], which sees the type after [mutable]
    and hands over to [parseVariableDeclaration], and that one finds
    [=] where it expects the name. *)
Theorem mutable_without_name_rejected tokens fuel allow k m ty t2 eq :
  tokens !! k = Some m → type m = mutable_ →
  tokens !! (k + 1) = Some ty → type ty = PrimitiveType ∨ type ty = ClassType →
  tokens !! (k + 2) = Some t2 →
  tokens !! (if isRefOrPtr t2 then k + 3 else k + 2) = Some eq →
  type eq = Equals →
  Parser.parseStatement tokens (S fuel) allow k
  = Parser.Err (Parser.Methods.unexpected
                  (str "Expected an identifier for a variable")).
Proof.
  intros Hm Hmut Hty Hkind Ht2 Heq Hequals.
  unfold Parser.parseStatement, Parser.Methods.parseStatement.
  rewrite (bind_eq _ _ _ _ _ (peek_eq _ _ _ Hm)).
  unfold Parser.is_type at 1 2 3 4 5 6. rewrite Hmut.
  rewrite !(bool_decide_eq_false_2 (mutable_ = _)) by done.
  rewrite bool_decide_eq_true_2 by done.
  change (false || false) with false. cbv iota.
  assert (Parser.is_type ty ClassType || Parser.is_type ty PrimitiveType
          = true) as Htype
    by (unfold Parser.is_type; destruct Hkind as [-> | ->]; done).
  unfold Parser.Methods.handleMutable.
  rewrite (bind_eq _ _ _ _ _ (peekNext_eq _ _ _ Hty)).
  apply orb_true_iff in Htype as Htype'.
  replace (negb (Parser.is_type ty ClassType)
           && negb (Parser.is_type ty PrimitiveType)) with false
    by (destruct Htype' as [-> | ->]; by rewrite ?andb_false_r).
  rewrite (bind_eq _ _ _ k k) by done.
  rewrite (bind_eq _ _ _ _ _ (peekTo_eq _ _ _ k Ht2)).
  rewrite (bind_eq _ _ _ (eq, if isRefOrPtr t2 then 1 else 0) k); cycle 1.
  { destruct (isRefOrPtr t2) eqn:Hrp.
    - by rewrite (bind_eq _ _ _ _ _ (peekTo_eq _ _ _ k Heq)).
    - by simplify_eq. }
  unfold Parser.is_type at 1. rewrite Hequals.
  rewrite bool_decide_eq_true_2 by done.
  apply bind_Err. unfold Parser.Methods.parseAssignmentExpression.
  rewrite (bind_eq _ _ _ true k); cycle 1.
  { rewrite (bind_eq _ _ _ _ _ (peekNext_eq _ _ _ Hty)).
    unfold Parser.ret. f_equal.
    destruct Htype' as [-> | ->]; by rewrite ?orb_true_r. }
  apply bind_Err. simpl.
  by apply (parseVariableDeclaration_no_name _ _ _ _ m ty t2 eq).
Qed.

Lemma mutable_without_name_rejected_witness :
  Parser.parseStatement mutable_int32_equals 1 true 0
  = Parser.Err (Parser.Methods.unexpected
                  (str "Expected an identifier for a variable")).
Proof.
  apply (mutable_without_name_rejected mutable_int32_equals 0 true 0
           (mkToken (str "mutable") mutable_)
           (mkToken (str "int32") PrimitiveType)
           (mkToken (str "=") Equals) (mkToken (str "=") Equals));
    try done.
  by left.
Defined.

(** ** The expression ladder *)

Lemma level_cases tk :
  (level tk = 4 ∧ Parser.is_type tk Dot = true)
  ∨ (level tk = 3 ∧ Parser.is_type tk Dot = false
     ∧ Parser.is_type tk Exponent = true)
  ∨ (level tk = 2 ∧ Parser.is_type tk Dot = false
     ∧ Parser.is_type tk Exponent = false ∧ isMultParseLevel tk = true)
  ∨ (level tk = 1 ∧ Parser.is_type tk Dot = false
     ∧ Parser.is_type tk Exponent = false ∧ isMultParseLevel tk = false
     ∧ additive_text tk = true)
  ∨ (level tk = 0 ∧ Parser.is_type tk Dot = false
     ∧ Parser.is_type tk Exponent = false ∧ isMultParseLevel tk = false
     ∧ additive_text tk = false).
Proof.
  unfold level.
  destruct (Parser.is_type tk Dot); [tauto|].
  destruct (Parser.is_type tk Exponent); [tauto|].
  destruct (isMultParseLevel tk); [tauto|].
  destruct (additive_text tk); tauto.
Qed.

Ltac level_solve tk :=
  destruct (level_cases tk)
    as [[? ?]|[(? & ? & ?)|[(? & ? & ? & ?)|[(? & ? & ? & ? & ?)
                                            |(? & ? & ? & ? & ?)]]]];
  first [assumption | lia].

Lemma drop_lookup {A} (l : list A) k a r :
  drop k l = a :: r → l !! k = Some a ∧ drop (S k) l = r.
Proof.
  intros H. split.
  - by rewrite <- (Nat.add_0_r k), <- lookup_drop, H.
  - by rewrite <- Nat.add_1_r, <- drop_drop, H.
Qed.

Lemma drop_app_drop {A} (l : list A) k a r :
  drop k l = a ++ r → drop (k + length a) l = r.
Proof. intros H. by rewrite <- drop_drop, H, drop_app_length. Qed.

Section ladder.

Import Parser Parser.Methods.

Context (tokens : TokenList) (fuel : nat) (self : Calls).

Lemma parsePrimary_literal k tk e :
  tokens !! k = Some tk → literal_of tk = Some e →
  parsePrimaryExpression tokens fuel self k = Ok e (S k).
Proof.
  intros Htk He. unfold parsePrimaryExpression.
  rewrite (bind_eq _ _ _ _ _ (peek_eq _ _ _ Htk)).
  unfold literal_of in He. unfold is_type.
  destruct (type tk); simplify_eq;
    rewrite ?bool_decide_eq_false_2 by done;
    rewrite bool_decide_eq_true_2 by done;
    by rewrite (bind_eq _ _ _ _ _ (eat_eq _ _ _ Htk)).
Qed.

Lemma dotLoop_stop n left k tk :
  tokens !! k = Some tk → level tk < 4 →
  dotLoop tokens fuel self n left k = Ok left k.
Proof.
  intros Htk Hl.
  assert (is_type tk Dot = false) as H
    by level_solve tk.
  destruct n; cbn [dotLoop];
    by rewrite (bind_eq _ _ _ _ _ (peek_eq _ _ _ Htk)), H.
Qed.

Lemma exponentialLoop_stop n left k tk :
  tokens !! k = Some tk → level tk < 3 →
  exponentialLoop tokens fuel self n left k = Ok left k.
Proof.
  intros Htk Hl.
  assert (is_type tk Exponent = false) as H
    by level_solve tk.
  destruct n; cbn [exponentialLoop];
    by rewrite (bind_eq _ _ _ _ _ (peek_eq _ _ _ Htk)), H.
Qed.

Lemma multiplicativeLoop_stop n left k tk :
  tokens !! k = Some tk → level tk < 2 →
  multiplicativeLoop tokens fuel self n left k = Ok left k.
Proof.
  intros Htk Hl.
  assert (isMultParseLevel tk = false) as H
    by level_solve tk.
  destruct n; cbn [multiplicativeLoop];
    by rewrite (bind_eq _ _ _ _ _ (peek_eq _ _ _ Htk)), H.
Qed.

Lemma additiveLoop_stop n left k tk :
  tokens !! k = Some tk → level tk < 1 →
  additiveLoop tokens fuel self n left k = Ok left k.
Proof.
  intros Htk Hl.
  assert (additive_text tk = false) as H
    by level_solve tk.
  unfold additive_text in H.
  destruct n; cbn [additiveLoop];
    by rewrite (bind_eq _ _ _ _ _ (peek_eq _ _ _ Htk)), H.
Qed.

Lemma exponentialLoop_step n left k op r j :
  tokens !! k = Some op → level op = 3 →
  parseDotExpression tokens fuel self (S k) = Ok r j →
  exponentialLoop tokens fuel self (S n) left k
  = exponentialLoop tokens fuel self n
      (ast.BinaryExpression left (value op) r) j.
Proof.
  intros Hop Hl Hr.
  assert (is_type op Exponent = true) as H
    by level_solve op.
  cbn [exponentialLoop].
  rewrite (bind_eq _ _ _ _ _ (peek_eq _ _ _ Hop)), H.
  rewrite (bind_eq _ _ _ _ _ (eat_eq _ _ _ Hop)).
  by rewrite (bind_eq _ _ _ _ _ Hr).
Qed.

Lemma multiplicativeLoop_step n left k op r j :
  tokens !! k = Some op → level op = 2 →
  parseExponentialExpression tokens fuel self (S k) = Ok r j →
  multiplicativeLoop tokens fuel self (S n) left k
  = multiplicativeLoop tokens fuel self n
      (ast.BinaryExpression left (value op) r) j.
Proof.
  intros Hop Hl Hr.
  assert (isMultParseLevel op = true) as H
    by level_solve op.
  cbn [multiplicativeLoop].
  rewrite (bind_eq _ _ _ _ _ (peek_eq _ _ _ Hop)), H.
  rewrite (bind_eq _ _ _ _ _ (eat_eq _ _ _ Hop)).
  by rewrite (bind_eq _ _ _ _ _ Hr).
Qed.

Lemma additiveLoop_step n left k op r j :
  tokens !! k = Some op → level op = 1 →
  parseMultiplicativeExpression tokens fuel self (S k) = Ok r j →
  additiveLoop tokens fuel self (S n) left k
  = additiveLoop tokens fuel self n
      (ast.BinaryExpression left (value op) r) j.
Proof.
  intros Hop Hl Hr.
  assert (additive_text op = true) as H
    by level_solve op.
  unfold additive_text in H. cbn [additiveLoop].
  rewrite (bind_eq _ _ _ _ _ (peek_eq _ _ _ Hop)), H.
  rewrite (bind_eq _ _ _ _ _ (eat_eq _ _ _ Hop)).
  by rewrite (bind_eq _ _ _ _ _ Hr).
Qed.

(** A literal followed by a token that no loop from the given one
    inwards takes. *)
Lemma parseDot_atom k tk e nxt :
  tokens !! k = Some tk → literal_of tk = Some e →
  tokens !! S k = Some nxt → level nxt < 4 →
  parseDotExpression tokens fuel self k = Ok e (S k).
Proof.
  intros Htk He Hn Hl. unfold parseDotExpression.
  rewrite (bind_eq _ _ _ _ _ (parsePrimary_literal _ _ _ Htk He)).
  by apply (dotLoop_stop _ _ _ nxt).
Qed.

Lemma parseExponential_atom k tk e nxt :
  tokens !! k = Some tk → literal_of tk = Some e →
  tokens !! S k = Some nxt → level nxt < 3 →
  parseExponentialExpression tokens fuel self k = Ok e (S k).
Proof.
  intros Htk He Hn Hl. unfold parseExponentialExpression.
  rewrite (bind_eq _ _ _ _ _ (parseDot_atom _ _ _ nxt Htk He Hn
                                 ltac:(lia))).
  by apply (exponentialLoop_stop _ _ _ nxt).
Qed.

Lemma parseMultiplicative_atom k tk e nxt :
  tokens !! k = Some tk → literal_of tk = Some e →
  tokens !! S k = Some nxt → level nxt < 2 →
  parseMultiplicativeExpression tokens fuel self k = Ok e (S k).
Proof.
  intros Htk He Hn Hl. unfold parseMultiplicativeExpression.
  rewrite (bind_eq _ _ _ _ _ (parseExponential_atom _ _ _ nxt Htk He Hn
                                 ltac:(lia))).
  by apply (multiplicativeLoop_stop _ _ _ nxt).
Qed.

Lemma parseAdditive_atom k tk e nxt :
  tokens !! k = Some tk → literal_of tk = Some e →
  tokens !! S k = Some nxt → level nxt < 1 →
  parseAdditiveExpression tokens fuel self k = Ok e (S k).
Proof.
  intros Htk He Hn Hl. unfold parseAdditiveExpression.
  rewrite (bind_eq _ _ _ _ _ (parseMultiplicative_atom _ _ _ nxt Htk He Hn
                                 ltac:(lia))).
  by apply (additiveLoop_stop _ _ _ nxt).
Qed.

(** The loop of [parseExponentialExpression] on a chain of [**]. *)
Lemma exponentialLoop_chain chain :
  ∀ n left k stop rest,
    drop k tokens = chain_tokens chain ++ stop :: rest →
    Forall (λ '(op, tk, e), level op = 3 ∧ literal_of tk = Some e) chain →
    level stop < 3 → length chain ≤ n →
    exponentialLoop tokens fuel self n left k
    = Ok (chain_fold left chain) (k + 2 * length chain).
Proof.
  induction chain as [|[[op tk] e] chain IH];
    intros n left k stop rest Hd Hc Hs Hn.
  - simpl in Hd. apply drop_lookup in Hd as [Hstop _].
    rewrite Nat.add_0_r. by apply (exponentialLoop_stop _ _ _ stop).
  - simpl in Hd. apply drop_lookup in Hd as [Hop Hd].
    apply drop_lookup in Hd as [Htk Hd].
    apply Forall_cons in Hc as [[Hl He] Hc].
    destruct n as [|n]; [simpl in Hn; lia|].
    assert (∃ nxt, tokens !! S (S k) = Some nxt ∧ level nxt < 4)
      as (nxt & Hnxt & Hlt).
    { destruct chain as [|[[op' tk'] e'] chain'].
      - apply drop_lookup in Hd as [Hstop _]. exists stop. split; [done|lia].
      - apply drop_lookup in Hd as [Hop' _]. exists op'. split; [done|].
        apply Forall_cons in Hc as [[-> _] _]. lia. }
    rewrite (exponentialLoop_step _ _ _ op e (S (S k))) by
      (done || by eapply (parseDot_atom _ tk _ nxt)).
    rewrite (IH _ _ _ stop rest) by (done || simpl in Hn; lia).
    simpl. f_equal. lia.
Qed.

End ladder.

Lemma parseMultiplicative_pair tokens fuel self k x op y nxt ex ey :
  tokens !! k = Some x → literal_of x = Some ex →
  tokens !! S k = Some op → level op = 2 →
  tokens !! S (S k) = Some y → literal_of y = Some ey →
  tokens !! S (S (S k)) = Some nxt → level nxt < 2 →
  Parser.Methods.parseMultiplicativeExpression tokens (S fuel) self k
  = Parser.Ok (ast.BinaryExpression ex (value op) ey) (S (S (S k))).
Proof.
  intros Hx Hex Hop Hl Hy Hey Hnxt Hlt.
  unfold Parser.Methods.parseMultiplicativeExpression.
  rewrite (bind_eq _ _ _ _ _
             (parseExponential_atom _ _ _ _ _ _ op Hx Hex Hop ltac:(lia))).
  rewrite (multiplicativeLoop_step _ _ _ _ _ _ op ey (S (S (S k))))
    by (done || by eapply (parseExponential_atom _ _ _ _ _ _ nxt);
                [| | |lia]).
  by apply (multiplicativeLoop_stop _ _ _ _ _ _ nxt).
Qed.

(** X15.  Of two operators at the additive and multiplicative levels,
    [x op1 y op2 z], the second binds its operands first only when it is
    the multiplicative one after an additive one; in the three other
    cases the tree leans to the left.  The additive operators are
    recognised by their text, [+] or [-], whatever the kind of the
    token, the multiplicative ones by their kind. *)
Theorem additive_and_multiplicative tokens fuel self k
    x op1 y op2 z stop ex ey ez :
  tokens !! k = Some x → literal_of x = Some ex →
  tokens !! (k + 1) = Some op1 → level op1 = 1 ∨ level op1 = 2 →
  tokens !! (k + 2) = Some y → literal_of y = Some ey →
  tokens !! (k + 3) = Some op2 → level op2 = 1 ∨ level op2 = 2 →
  tokens !! (k + 4) = Some z → literal_of z = Some ez →
  tokens !! (k + 5) = Some stop → level stop = 0 →
  Parser.Methods.parseAdditiveExpression tokens (S (S fuel)) self k
  = Parser.Ok (if bool_decide (level op1 < level op2)
               then right_nested ex op1 ey op2 ez
               else left_nested ex op1 ey op2 ez) (k + 5).
Proof.
  intros Hx Hex Hop1 Hl1 Hy Hey Hop2 Hl2 Hz Hez Hstop Hl0.
  replace (k + 1) with (S k) in Hop1 by lia.
  replace (k + 2) with (S (S k)) in Hy by lia.
  replace (k + 3) with (S (S (S k))) in Hop2 by lia.
  replace (k + 4) with (S (S (S (S k)))) in Hz by lia.
  replace (k + 5) with (S (S (S (S (S k))))) in * by lia.
  unfold Parser.Methods.parseAdditiveExpression.
  assert (level stop < 1) as Hs1 by lia.
  assert (level stop < 2) as Hs2 by lia.
  pose proof (parseMultiplicative_atom tokens (S (S fuel)) self _ _ _ stop
                Hz Hez Hstop Hs2) as Hmz.
  destruct Hl1 as [Hl1|Hl1], Hl2 as [Hl2|Hl2]; rewrite Hl1, Hl2;
    [rewrite bool_decide_eq_false_2 by lia
    |rewrite bool_decide_eq_true_2 by lia
    |rewrite bool_decide_eq_false_2 by lia
    |rewrite bool_decide_eq_false_2 by lia].
  - (* additive, additive *)
    rewrite (bind_eq _ _ _ _ _
               (parseMultiplicative_atom _ _ _ _ _ _ op1 Hx Hex Hop1
                  ltac:(lia))).
    rewrite (additiveLoop_step _ _ _ _ _ _ op1 ey (S (S (S k))))
      by (done || by eapply (parseMultiplicative_atom _ _ _ _ _ _ op2);
                  [| | |lia]).
    rewrite (additiveLoop_step _ _ _ _ _ _ op2 ez (S (S (S (S (S k))))))
      by done.
    by apply (additiveLoop_stop _ _ _ _ _ _ stop).
  - (* additive, multiplicative *)
    rewrite (bind_eq _ _ _ _ _
               (parseMultiplicative_atom _ _ _ _ _ _ op1 Hx Hex Hop1
                  ltac:(lia))).
    rewrite (additiveLoop_step _ _ _ _ _ _ op1
               (ast.BinaryExpression ey (value op2) ez)
               (S (S (S (S (S k))))))
      by (done || by apply (parseMultiplicative_pair _ _ _ _ y op2 z stop)).
    by apply (additiveLoop_stop _ _ _ _ _ _ stop).
  - (* multiplicative, additive *)
    rewrite (bind_eq _ _ _ _ _
               (parseMultiplicative_pair _ _ _ _ x op1 y op2 _ _
                  Hx Hex Hop1 Hl1 Hy Hey Hop2 ltac:(lia))).
    rewrite (additiveLoop_step _ _ _ _ _ _ op2 ez (S (S (S (S (S k))))))
      by done.
    by apply (additiveLoop_stop _ _ _ _ _ _ stop).
  - (* multiplicative, multiplicative *)
    rewrite (bind_eq _ _ _ (left_nested ex op1 ey op2 ez)
               (S (S (S (S (S k)))))); cycle 1.
    { unfold Parser.Methods.parseMultiplicativeExpression.
      rewrite (bind_eq _ _ _ _ _
                 (parseExponential_atom _ _ _ _ _ _ op1 Hx Hex Hop1
                    ltac:(lia))).
      rewrite (multiplicativeLoop_step _ _ _ _ _ _ op1 ey (S (S (S k))))
        by (done || by eapply (parseExponential_atom _ _ _ _ _ _ op2);
                    [| | |lia]).
      rewrite (multiplicativeLoop_step _ _ _ _ _ _ op2 ez
                 (S (S (S (S (S k))))))
        by (done || by eapply (parseExponential_atom _ _ _ _ _ _ stop);
                    [| | |lia]).
      by apply (multiplicativeLoop_stop _ _ _ _ _ _ stop). }
    by apply (additiveLoop_stop _ _ _ _ _ _ stop).
Qed.

Lemma additive_and_multiplicative_witness :
  Parser.Methods.parseAdditiveExpression one_minus_two_times_three 2
    (Parser.calls one_minus_two_times_three 0) 0
  = Parser.Ok
      (right_nested (ast.NumericLiteral ast.uint64_t (str "1"))
         (mkToken (str "-") Minus)
         (ast.NumericLiteral ast.uint64_t (str "2"))
         (mkToken (str "*") Multiply)
         (ast.NumericLiteral ast.uint64_t (str "3"))) (0 + 5).
Proof.
  apply (additive_and_multiplicative one_minus_two_times_three 0 _ 0
           (mkToken (str "1") integer_literal) (mkToken (str "-") Minus)
           (mkToken (str "2") integer_literal)
           (mkToken (str "*") Multiply)
           (mkToken (str "3") integer_literal)
           (mkToken (str ";") Semicolon)); try done.
  - by left.
  - by right.
Defined.

(** X16.  A chain of [**] operators of any length associates to the
    left: [a ** b ** c] is [(a ** b) ** c].  The loop takes one unit of
    fuel for each operator. *)
Theorem exponent_chain_leans_left tokens fuel self k x ex chain stop rest :
  drop k tokens = x :: chain_tokens chain ++ stop :: rest →
  literal_of x = Some ex →
  Forall (λ '(op, tk, e), level op = 3 ∧ literal_of tk = Some e) chain →
  level stop < 3 → length chain ≤ fuel →
  Parser.Methods.parseExponentialExpression tokens fuel self k
  = Parser.Ok (chain_fold ex chain) (k + 1 + 2 * length chain).
Proof.
  intros Hd Hex Hc Hs Hn. apply drop_lookup in Hd as [Hx Hd].
  assert (∃ nxt, tokens !! S k = Some nxt ∧ level nxt < 4)
    as (nxt & Hnxt & Hlt).
  { destruct chain as [|[[op' tk'] e'] chain'].
    - apply drop_lookup in Hd as [Hstop _]. exists stop. split; [done|lia].
    - apply drop_lookup in Hd as [Hop' _]. exists op'. split; [done|].
      apply Forall_cons in Hc as [[-> _] _]. lia. }
  unfold Parser.Methods.parseExponentialExpression.
  rewrite (bind_eq _ _ _ _ _ (parseDot_atom _ _ _ _ _ _ nxt Hx Hex Hnxt Hlt)).
  rewrite (exponentialLoop_chain _ _ _ chain _ _ _ stop rest) by done.
  f_equal. lia.
Qed.

Lemma exponent_chain_leans_left_witness :
  Parser.Methods.parseExponentialExpression two_pow_three_pow_four 2
    (Parser.calls two_pow_three_pow_four 0) 0
  = Parser.Ok
      (left_nested (ast.NumericLiteral ast.uint64_t (str "2"))
         (mkToken (str "**") Exponent)
         (ast.NumericLiteral ast.uint64_t (str "3"))
         (mkToken (str "**") Exponent)
         (ast.NumericLiteral ast.uint64_t (str "4"))) (0 + 1 + 2 * 2).
Proof.
  apply (exponent_chain_leans_left two_pow_three_pow_four 2 _ 0
           (mkToken (str "2") integer_literal) _
           [(mkToken (str "**") Exponent, mkToken (str "3") integer_literal,
             ast.NumericLiteral ast.uint64_t (str "3"));
            (mkToken (str "**") Exponent, mkToken (str "4") integer_literal,
             ast.NumericLiteral ast.uint64_t (str "4"))]
           (mkToken (str ";") Semicolon) [EOF_token]); try done.
  - repeat constructor.
  - vm_compute. lia.
Defined.

(** ** Calls *)

Lemma literal_of_kind tk e :
  literal_of tk = Some e → type tk ≠ CParen ∧ type tk ≠ Comma.
Proof. unfold literal_of. by destruct (type tk). Qed.

Lemma functionCallArguments_list tokens m args :
  ∀ n params k close rest,
    drop k tokens = args_tokens args ++ close :: rest →
    Forall (λ '(tk, e, sep),
              literal_of tk = Some e ∧ level tk = 0
              ∧ ∀ c, sep = Some c → type c = Comma ∧ level c = 0) args →
    type close = CParen → level close = 0 → length args ≤ n →
    Parser.Methods.functionCallArguments tokens
      (Parser.calls tokens (S m)) n params k
    = Parser.Ok (params ++ args_nodes args) (k + length (args_tokens args)).
Proof.
  induction args as [|[[tk e] sep] args IH];
    intros n params k close rest Hd Hargs Hcp Hl0 Hn.
  - simpl in Hd. apply drop_lookup in Hd as [Hclose _].
    simpl. rewrite app_nil_r, Nat.add_0_r.
    destruct n; cbn [Parser.Methods.functionCallArguments];
      rewrite (bind_eq _ _ _ _ _ (peek_eq _ _ _ Hclose));
      unfold Parser.is_type; by rewrite Hcp.
  - apply Forall_cons in Hargs as [(He & Hl & Hsep) Hargs].
    destruct n as [|n]; [simpl in Hn; lia|].
    cbn [args_tokens flat_map] in Hd. rewrite <- app_assoc in Hd.
    simpl in Hd. apply drop_lookup in Hd as [Htk Hd].
    destruct (literal_of_kind _ _ He) as [Hncp Hncomma].
    cbn [Parser.Methods.functionCallArguments].
    rewrite (bind_eq _ _ _ _ _ (peek_eq _ _ _ Htk)).
    unfold Parser.is_type at 1. rewrite bool_decide_eq_false_2 by done.
    change (negb false) with true. cbv iota.
    assert (∃ nxt, tokens !! S k = Some nxt ∧ level nxt = 0
                   ∧ (is_Some sep → sep = Some nxt)
                   ∧ (sep = None → type nxt ≠ Comma))
      as (nxt & Hnxt & Hlnxt & Hsome & Hnone).
    { destruct sep as [c|]; simpl in Hd.
      - apply drop_lookup in Hd as [Hc _]. exists c.
        destruct (Hsep c eq_refl). by repeat split.
      - destruct args as [|[[tk' e'] sep'] args'].
        + apply drop_lookup in Hd as [Hclose _]. exists close.
          repeat split; [done..|by intros []|by rewrite Hcp].
        + cbn [args_tokens flat_map] in Hd. rewrite <- app_assoc in Hd.
          simpl in Hd. apply drop_lookup in Hd as [Htk' _]. exists tk'.
          apply Forall_cons in Hargs as [(He' & Hl' & _) _].
          destruct (literal_of_kind _ _ He').
          repeat split; [done..|by intros []|done]. }
    change (Parser.call_parseAdditiveExpression (Parser.calls tokens (S m)))
      with (Parser.Methods.parseAdditiveExpression tokens m
              (Parser.calls tokens m)).
    rewrite (bind_eq _ _ _ _ _
               (parseAdditive_atom _ _ _ _ _ _ nxt Htk He Hnxt ltac:(lia))).
    rewrite (bind_eq _ _ _ _ _ (peek_eq _ _ _ Hnxt)).
    destruct sep as [c|].
    + destruct (Hsep c eq_refl) as [Hcomma _].
      assert (c = nxt) as -> by (specialize (Hsome ltac:(eauto)); congruence).
      unfold Parser.is_type at 1. rewrite Hcomma.
      rewrite bool_decide_eq_true_2 by done.
      rewrite (bind_eq _ _ _ tt (S (S k)))
        by by rewrite (bind_eq _ _ _ _ _ (eat_eq _ _ _ Hnxt)).
      simpl in Hd. apply drop_lookup in Hd as [_ Hd].
      rewrite (IH _ _ _ close rest) by (done || simpl in Hn; lia).
      simpl. rewrite <- app_assoc. f_equal. lia.
    + unfold Parser.is_type at 1.
      rewrite bool_decide_eq_false_2 by auto.
      rewrite (bind_eq _ _ _ tt (S k)) by done.
      simpl in Hd.
      rewrite (IH _ _ _ close rest) by (done || simpl in Hn; lia).
      simpl. rewrite <- app_assoc. f_equal. lia.
Qed.

(** X17.  The commas between the arguments of a call are optional, and
    one may follow the last argument: after each argument the loop of
    [parseFunctionCall] eats a comma if there is one and goes on either
    way. *)
Theorem call_commas_optional tokens fuel m k f open args close rest :
  drop k tokens = f :: open :: args_tokens args ++ close :: rest →
  type f = Identifier → type open = OParen →
  Forall (λ '(tk, e, sep),
            literal_of tk = Some e ∧ level tk = 0
            ∧ ∀ c, sep = Some c → type c = Comma ∧ level c = 0) args →
  type close = CParen → level close = 0 → length args ≤ fuel →
  Parser.Methods.parseFunctionCall tokens fuel (Parser.calls tokens (S m))
    false k
  = Parser.Ok (ast.FunctionCall (ast.mkIdentifier (value f))
                 (args_nodes args))
      (k + 3 + length (args_tokens args)).
Proof.
  intros Hd Hf Hopen Hargs Hcp Hl0 Hn.
  apply drop_lookup in Hd as [Htkf Hd].
  pose proof Hd as [Htko Hd']%drop_lookup.
  unfold Parser.Methods.parseFunctionCall.
  rewrite (bind_eq _ _ _ _ _ (expect_eq _ _ _ _ _ Htkf Hf)).
  rewrite (bind_eq _ _ _ _ _ (expect_eq _ _ _ _ _ Htko Hopen)).
  rewrite (bind_eq _ _ _ _ _
             (functionCallArguments_list _ _ _ _ _ _ _ _ Hd' Hargs Hcp Hl0
                Hn)).
  apply drop_app_drop in Hd'. apply drop_lookup in Hd' as [Hclose _].
  rewrite (bind_eq _ _ _ _ _ (expect_eq _ _ _ _ _ Hclose Hcp)).
  rewrite (bind_eq _ _ _ tt (S (S (S k) + length (args_tokens args))))
    by done.
  unfold Parser.ret. f_equal. lia.
Qed.

Lemma call_commas_optional_witness :
  Parser.Methods.parseFunctionCall f_1_2_comma 2
    (Parser.calls f_1_2_comma 1) false 0
  = Parser.Ok
      (ast.FunctionCall (ast.mkIdentifier (str "f"))
         [ast.StatementExpression (ast.NumericLiteral ast.uint64_t (str "1"));
          ast.StatementExpression (ast.NumericLiteral ast.uint64_t (str "2"))])
      (0 + 3 + 3).
Proof.
  apply (call_commas_optional f_1_2_comma 2 0 0
           (mkToken (str "f") Identifier) (mkToken (str "(") OParen)
           [(mkToken (str "1") integer_literal,
             ast.NumericLiteral ast.uint64_t (str "1"), None);
            (mkToken (str "2") integer_literal,
             ast.NumericLiteral ast.uint64_t (str "2"),
             Some (mkToken (str ",") Comma))]
           (mkToken (str ")") CParen) [EOF_token]); try done.
  apply Forall_cons. split; [by repeat split|].
  apply Forall_cons. split; [|constructor].
  split; [done|]. split; [done|]. intros ? [= <-]. by split.
Defined.

(** ** If statements and declarations *)

(** X18.  Whatever [IfStatement] node [parseIfStatement] returns, its
    condition is a binary expression, a [bool] literal or a numeric
    literal that ends at a closing parenthesis; an identifier or a call
    alone is no condition.  Without a brace after the parenthesis the
    body is one statement. *)
Theorem if_statement_shape tokens fuel self k s k' :
  Parser.Methods.parseIfStatement tokens fuel self k = Parser.Ok s k' →
  ∃ c body j cp after,
    s = ast.StatementExpression (ast.IfStatement c body)
    ∧ Parser.Methods.valid_if_condition c = true
    ∧ Parser.Methods.parseExpression tokens fuel self false (S (S k))
      = Parser.Ok c j
    ∧ tokens !! j = Some cp ∧ type cp = CParen
    ∧ tokens !! S j = Some after
    ∧ (type after ≠ OCurlyBrace → length body = 1).
Proof.
  unfold Parser.Methods.parseIfStatement.
  intros (? & ? & [_ ->]%eat_Ok & H)%bind_Ok.
  apply bind_Ok in H as (? & ? & (_ & -> & _)%expect_Ok & H).
  apply bind_Ok in H as (c & j & Hc & H).
  destruct (Parser.Methods.valid_if_condition c) eqn:Hvalid; [|done].
  change (negb true) with false in H. cbv iota in H.
  apply bind_Ok in H as (cp & ? & (Hcp & -> & Hty)%expect_Ok & H).
  apply bind_Ok in H as (after & ? & [Hafter ->]%peek_Ok & H).
  apply bind_Ok in H as (body & j' & Hbody & H).
  unfold Parser.ret in H. simplify_eq.
  exists c, body, j, cp, after. repeat split; try done.
  intros Hnb. unfold Parser.is_type in Hbody.
  rewrite bool_decide_eq_false_2 in Hbody by done.
  apply bind_Ok in Hbody as (? & ? & _ & Hbody).
  unfold Parser.ret in Hbody. by simplify_eq.
Qed.

Lemma if_statement_shape_witness :
  ∃ c body j cp after,
    ast.StatementExpression
      (ast.IfStatement (ast.BoolLiteral true)
         [ast.StatementExpression
            (ast.AssignmentExpression
               (ast.IdentifierExpr (ast.mkIdentifier (str "x")))
               (ast.NumericLiteral ast.uint64_t (str "1")))])
    = ast.StatementExpression (ast.IfStatement c body)
    ∧ Parser.Methods.valid_if_condition c = true
    ∧ Parser.Methods.parseExpression nested_if 5 (Parser.calls nested_if 5)
        false 3 = Parser.Ok c j
    ∧ nested_if !! j = Some cp ∧ type cp = CParen
    ∧ nested_if !! S j = Some after
    ∧ (type after ≠ OCurlyBrace → length body = 1).
Proof.
  apply (if_statement_shape nested_if 5 (Parser.calls nested_if 5) 1 _ 9).
  vm_compute. reflexivity.
Defined.

(** X19.  An [if] without braces takes one statement through
    [parseStatement< false >], which rejects a namespace and a class,
    each with a message of its own, and nothing else: every other
    statement, a variable or function declaration included, is parsed
    as [parseStatement< true >] parses it. *)
Theorem if_body_declarations tokens fuel k :
  (∀ open c j cp tk,
     tokens !! S k = Some open → type open = OParen →
     Parser.parseExpression tokens (S fuel) false (S (S k)) = Parser.Ok c j →
     Parser.Methods.valid_if_condition c = true →
     tokens !! j = Some cp → type cp = CParen →
     tokens !! S j = Some tk → type tk = namespace_ ∨ type tk = class_ →
     Parser.parseIfStatement tokens (S fuel) k
     = Parser.Err
         (if bool_decide (type tk = namespace_)
          then str "cannot create namespace inside of if statement"
          else str "cannot create class inside of if statement"))
  ∧ (∀ self tk,
       tokens !! k = Some tk → type tk ≠ namespace_ → type tk ≠ class_ →
       Parser.Methods.parseStatement tokens fuel self false k
       = Parser.Methods.parseStatement tokens fuel self true k).
Proof.
  split.
  - intros open c j cp tk Hopen Hty Hc Hvalid Hcp Htycp Htk Hkind.
    assert (∃ first, tokens !! k = Some first) as [first Hfirst].
    { apply lookup_lt_is_Some. apply lookup_lt_Some in Hopen. lia. }
    unfold Parser.parseIfStatement, Parser.Methods.parseIfStatement.
    rewrite (bind_eq _ _ _ _ _ (eat_eq _ _ _ Hfirst)).
    rewrite (bind_eq _ _ _ _ _ (expect_eq _ _ _ _ _ Hopen Hty)).
    rewrite (bind_eq _ _ _ _ _ Hc), Hvalid.
    change (negb true) with false. cbv iota.
    rewrite (bind_eq _ _ _ _ _ (expect_eq _ _ _ _ _ Hcp Htycp)).
    rewrite (bind_eq _ _ _ _ _ (peek_eq _ _ _ Htk)).
    apply bind_Err. unfold Parser.is_type at 1.
    rewrite bool_decide_eq_false_2 by (destruct Hkind as [-> | ->]; done).
    apply bind_Err.
    change (Parser.call_parseStatement (Parser.calls tokens (S fuel)))
      with (Parser.Methods.parseStatement tokens fuel
              (Parser.calls tokens fuel)).
    unfold Parser.Methods.parseStatement.
    rewrite (bind_eq _ _ _ _ _ (peek_eq _ _ _ Htk)).
    unfold Parser.is_type.
    destruct Hkind as [-> | ->]; by rewrite ?bool_decide_eq_false_2 by done.
  - intros self tk Htk Hn Hc. unfold Parser.Methods.parseStatement.
    rewrite !(bind_eq _ _ _ _ _ (peek_eq _ _ _ Htk)).
    unfold Parser.is_type.
    by rewrite (bool_decide_eq_false_2 (_ = namespace_)),
      (bool_decide_eq_false_2 (_ = class_)).
Qed.

Lemma if_body_declarations_witness :
  Parser.parseIfStatement if_true_class 1 0
  = Parser.Err (str "cannot create class inside of if statement").
Proof.
  apply (proj1 (if_body_declarations if_true_class 0 0)
           (mkToken (str "(") OParen) (ast.BoolLiteral true) 3
           (mkToken (str ")") CParen) (mkToken (str "class") class_));
    try done.
  by right.
Defined.

(** ** Classes *)

(** X20.  In a class body an access specifier and its colon must be
    followed at once by the type of a member: [mutable], another
    specifier or the closing brace there are rejected, so that a section
    can neither be empty nor start with a mutable member. *)
Theorem member_after_access_specifier
    tokens fuel self n fields methods spec k a colon tk :
  tokens !! k = Some a → isAccessSpecifier (type a) = true →
  tokens !! S k = Some colon → type colon = Colon →
  tokens !! S (S k) = Some tk →
  type tk ≠ ClassType → type tk ≠ PrimitiveType →
  Parser.Methods.classBody tokens fuel self (S n) fields methods spec k
  = Parser.Err (str "Inner class definition requires type name").
Proof.
  intros Ha Hspec Hcolon Hty Htk Hnc Hnp.
  assert (type a ≠ CCurlyBrace ∧ type a ≠ mutable_) as [Hnb Hnm]
    by (split; intros Heq; by rewrite Heq in Hspec).
  cbn [Parser.Methods.classBody].
  rewrite (bind_eq _ _ _ _ _ (peek_eq _ _ _ Ha)).
  unfold Parser.is_type at 1 2.
  rewrite !bool_decide_eq_false_2 by done.
  change (negb false) with true. cbv iota. rewrite Hspec.
  rewrite (bind_eq _ _ _
             (tk, 0, Parser.Methods.accessOf (type a) spec) (S (S k)));
    cycle 1.
  { rewrite (bind_eq _ _ _ _ _ (eat_eq _ _ _ Ha)).
    rewrite (bind_eq _ _ _ _ _ (expect_eq _ _ _ _ _ Hcolon Hty)).
    by rewrite (bind_eq _ _ _ _ _ (peek_eq _ _ _ Htk)). }
  unfold Parser.is_type.
  by rewrite !bool_decide_eq_false_2 by done.
Qed.

Lemma member_after_access_specifier_witness :
  Parser.Methods.classBody public_colon_brace 3
    (Parser.calls public_colon_brace 3) 1 [] [] ast.Public 0
  = Parser.Err (str "Inner class definition requires type name").
Proof.
  by apply (member_after_access_specifier public_colon_brace 3 _ 0 [] []
              ast.Public 0 (mkToken (str "public") public_)
              (mkToken (str ":") Colon) (mkToken (str "}") CCurlyBrace)).
Defined.

(** ** Reading past the last token *)

Lemma peekNext_undefined tokens k :
  length tokens ≤ k + 1 →
  Parser.Methods.peekNext tokens k = Parser.Undefined.
Proof.
  intros H. unfold Parser.Methods.peekNext. by rewrite lookup_ge_None_2.
Qed.

Lemma bind_Undefined {A B} (m : Parser.M A) (f : A → Parser.M B) k :
  m k = Parser.Undefined → Parser.bind m f k = Parser.Undefined.
Proof. unfold Parser.bind. by intros ->. Qed.

Lemma parseExpression_at_end tokens fuel self k :
  length tokens ≤ k + 1 →
  Parser.Methods.parseExpression tokens fuel self true k = Parser.Undefined.
Proof.
  intros H.
  unfold Parser.Methods.parseExpression,
    Parser.Methods.parseAssignmentExpression.
  apply bind_Undefined, bind_Undefined. by apply peekNext_undefined.
Qed.

(** X21.  The parser can read past the last token.  When a statement
    is called for at the [EOF_] token, as it is in the body of a
    namespace, of a function or of a braced [if] whose closing brace is
    missing, [parseStatement] looks one token ahead of [EOF_]; and when
    [mutable] is the last word of a parameter list, the loop takes
    [EOF_] for the type and looks for a sigil behind it.  The C++ code
    indexes the vector unchecked in both cases. *)
Theorem reads_past_the_end tokens fuel k eof :
  tokens !! k = Some eof → type eof = EOF_ → length tokens = S k →
  (∀ self allow,
     Parser.Methods.parseStatement tokens fuel self allow k
     = Parser.Undefined)
  ∧ (∀ self n stmts,
       Parser.Methods.ifStatementBody tokens fuel self (S n) stmts k
       = Parser.Undefined)
  ∧ (∀ n stmts,
       Parser.Methods.nameSpaceBody tokens (Parser.calls tokens (S fuel))
         (S n) stmts k = Parser.Undefined)
  ∧ (∀ n stmts,
       value eof ≠ str "return" →
       Parser.Methods.functionBody tokens (Parser.calls tokens (S fuel))
         (S n) stmts k = Parser.Undefined)
  ∧ (∀ m n f_name acc,
       0 < k → tokens !! (k - 1) = Some m → type m = mutable_ →
       Parser.Methods.parameterList tokens (S n) f_name acc (k - 1)
       = Parser.Undefined).
Proof.
  intros Heof Hty Hlen.
  assert (∀ self allow,
            Parser.Methods.parseStatement tokens fuel self allow k
            = Parser.Undefined) as Hstmt.
  { intros self allow. unfold Parser.Methods.parseStatement.
    rewrite (bind_eq _ _ _ _ _ (peek_eq _ _ _ Heof)).
    unfold Parser.is_type. rewrite Hty.
    rewrite !bool_decide_eq_false_2 by done.
    change (false || false) with false. cbv iota.
    apply bind_Undefined, parseExpression_at_end. lia. }
  split; [done|]. split; [|split; [|split]].
  - intros self n stmts. cbn [Parser.Methods.ifStatementBody].
    rewrite (bind_eq _ _ _ _ _ (peek_eq _ _ _ Heof)).
    unfold Parser.is_type. rewrite Hty.
    rewrite bool_decide_eq_false_2 by done.
    apply bind_Undefined, parseExpression_at_end. lia.
  - intros n stmts. cbn [Parser.Methods.nameSpaceBody].
    rewrite (bind_eq _ _ _ _ _ (peek_eq _ _ _ Heof)).
    unfold Parser.is_type. rewrite Hty.
    rewrite bool_decide_eq_false_2 by done.
    apply bind_Undefined. apply Hstmt.
  - intros n stmts Hret. cbn [Parser.Methods.functionBody].
    rewrite (bind_eq _ _ _ _ _ (peek_eq _ _ _ Heof)).
    unfold Parser.is_type. rewrite Hty.
    rewrite !bool_decide_eq_false_2 by done.
    apply bind_Undefined. apply Hstmt.
  - intros m n f_name acc Hk Hm Hmut.
    assert (Parser.is_type m mutable_ = true) as Him
      by (unfold Parser.is_type; by rewrite Hmut).
    cbn [Parser.Methods.parameterList].
    rewrite (bind_eq _ _ _ _ _ (peek_eq _ _ _ Hm)), Him, orb_true_r.
    pose proof (eatIfMutable_eq _ _ _ Hm) as Hem. rewrite Him in Hem.
    rewrite (bind_eq _ _ _ _ _ Hem).
    replace (S (k - 1)) with k by lia.
    rewrite (bind_eq _ _ _ _ _ (eat_eq _ _ _ Heof)).
    apply bind_Undefined. unfold Parser.Methods.eatIfRefOrPtr.
    apply bind_Undefined. unfold Parser.Methods.peek.
    by rewrite lookup_ge_None_2 by lia.
Qed.

Lemma reads_past_the_end_witness :
  Parser.Methods.nameSpaceBody namespace_a_open
    (Parser.calls namespace_a_open 3) 1 [] 3 = Parser.Undefined
  ∧ Parser.Methods.parameterList f_open_mutable 1 (str "f") [] (4 - 1)
    = Parser.Undefined.
Proof.
  split.
  - by apply (proj1 (proj2 (proj2 (reads_past_the_end namespace_a_open 2 3
                                     EOF_token eq_refl eq_refl eq_refl)))).
  - apply (proj2 (proj2 (proj2 (proj2
             (reads_past_the_end f_open_mutable 0 4 EOF_token
                eq_refl eq_refl eq_refl))))
             (mkToken (str "mutable") mutable_)); [lia|done|done].
Defined.

(** ** What the parser has no rule for *)

Lemma unparsed_operator_level op :
  type op ∈ unparsed_operators → kind_fits op →
  level op = 0 ∧ type op ≠ EqualsEquals ∧ type op ≠ NotEquals
  ∧ type op ≠ Equals ∧ type op ≠ Semicolon ∧ type op ≠ ClassType
  ∧ type op ≠ PrimitiveType ∧ type op ≠ Reference ∧ type op ≠ Pointer.
Proof.
  unfold unparsed_operators, kind_fits, level, Parser.is_type,
    isMultParseLevel, additive_text.
  intros Hin Hfit.
  repeat (apply elem_of_cons in Hin as [Hin|Hin];
          [rewrite Hin in *; simpl in Hfit; rewrite Hfit; by vm_compute|]).
  by apply elem_of_nil in Hin.
Qed.

Lemma unparsed_operator_primary tokens fuel self k op :
  tokens !! k = Some op → type op ∈ unparsed_operators →
  Parser.Methods.parsePrimaryExpression tokens fuel self k
  = Parser.Err unexpected_token.
Proof.
  intros Hop Hin. unfold Parser.Methods.parsePrimaryExpression.
  rewrite (bind_eq _ _ _ _ _ (peek_eq _ _ _ Hop)).
  unfold unparsed_operators in Hin. unfold Parser.is_type.
  repeat (apply elem_of_cons in Hin as [Hin|Hin]; [by rewrite Hin|]).
  by apply elem_of_nil in Hin.
Qed.

Lemma booleanLoop_stop tokens fuel self n left k tk :
  tokens !! k = Some tk → type tk ≠ EqualsEquals → type tk ≠ NotEquals →
  Parser.Methods.booleanLoop tokens fuel self n left k = Parser.Ok left k.
Proof.
  intros Htk H1 H2.
  destruct n; cbn [Parser.Methods.booleanLoop];
    rewrite (bind_eq _ _ _ _ _ (peek_eq _ _ _ Htk)); unfold Parser.is_type;
    by rewrite !bool_decide_eq_false_2 by done.
Qed.

(** X22.  The comparison, shift, logical, scope and unary operators are
    tokens of the lexer that no method of the parser tests for.  After
    an operand such a token ends the expression, so that the statement,
    which must end with a semicolon there, is rejected; at the start of
    an operand it is rejected as an unexpected token. *)
Theorem unparsed_operator_rejected tokens fuel self k op :
  type op ∈ unparsed_operators →
  (∀ x ex,
     tokens !! k = Some x → literal_of x = Some ex →
     tokens !! S k = Some op → kind_fits op →
     Parser.Methods.parseExpression tokens fuel self true k
     = Parser.Err (Parser.Methods.unexpected
                     (str "must end statement with semicolon")))
  ∧ (tokens !! k = Some op →
     Parser.Methods.parsePrimaryExpression tokens fuel self k
     = Parser.Err unexpected_token).
Proof.
  intros Hin. split; [|intros; by apply (unparsed_operator_primary _ _ _ _ op)].
  intros x ex Hx Hex Hop Hfit.
  destruct (unparsed_operator_level _ Hin Hfit)
    as (Hl & Hee & Hne & Heq & Hsemi & Hc & Hp & Hr & Hptr).
  unfold Parser.Methods.parseExpression,
    Parser.Methods.parseAssignmentExpression.
  rewrite (bind_eq _ _ _ false k); cycle 1.
  { rewrite <- Nat.add_1_r in Hop.
    rewrite (bind_eq _ _ _ _ _ (peekNext_eq _ _ _ Hop)).
    unfold Parser.is_type. by rewrite !bool_decide_eq_false_2 by done. }
  cbv iota.
  rewrite (bind_eq _ _ _ ex (S k)); cycle 1.
  { unfold Parser.Methods.parseBooleanExpression.
    rewrite (bind_eq _ _ _ _ _
               (parseAdditive_atom _ _ _ _ _ _ op Hx Hex Hop ltac:(lia))).
    by apply (booleanLoop_stop _ _ _ _ _ _ op). }
  rewrite (bind_eq _ _ _ _ _ (peek_eq _ _ _ Hop)).
  unfold Parser.is_type at 1. rewrite bool_decide_eq_false_2 by done.
  rewrite (bind_eq _ _ _ ex (S k)) by done.
  apply bind_Err, bind_Err. by apply (expect_Err _ _ _ _ op).
Qed.

Lemma unparsed_operator_rejected_witness :
  Parser.Methods.parseExpression one_less_two 5 (Parser.calls one_less_two 5)
    true 0
  = Parser.Err (Parser.Methods.unexpected
                  (str "must end statement with semicolon")).
Proof.
  apply (proj1 (unparsed_operator_rejected one_less_two 5 _ 0
                  (mkToken (str "<") LessThan)
                  ltac:(apply list_elem_of_In; simpl; tauto))
           (mkToken (str "1") integer_literal)
           (ast.NumericLiteral ast.uint64_t (str "1"))); done.
Defined.

(** ** Return statements *)

(** X23.  A [return] ends the loop over the body of a function: the
    statement after it is the last one read, so that anything but the
    closing brace behind it is an error of [parseFunctionDeclaration].
    What follows [return] is parsed as a statement, and a statement
    cannot be empty: [return ;] is rejected. *)
Theorem return_ends_function_body tokens fuel k ret :
  tokens !! k = Some ret → type ret = return_ → value ret = str "return" →
  (∀ self n body stmt j,
     Parser.call_parseStatement self true (S k) = Parser.Ok stmt j →
     Parser.Methods.functionBody tokens self (S n) body k
     = Parser.Ok (body ++ [ast.StatementExpression
                             (ast.ReturnStatement stmt)]) j)
  ∧ (∀ semi nxt n body,
       tokens !! S k = Some semi → type semi = Semicolon →
       tokens !! S (S k) = Some nxt →
       type nxt ≠ ClassType → type nxt ≠ PrimitiveType →
       type nxt ≠ Reference → type nxt ≠ Pointer →
       Parser.Methods.functionBody tokens (Parser.calls tokens (S fuel))
         (S n) body k
       = Parser.Err unexpected_token).
Proof.
  intros Hret Hty Hval.
  assert (∀ self n body,
            Parser.Methods.functionBody tokens self (S n) body k
            = Parser.bind (Parser.call_parseStatement self true)
                (λ stmt, Parser.ret
                           (body ++ [ast.StatementExpression
                                       (ast.ReturnStatement stmt)]))
                (S k)) as Hbody.
  { intros self n body. cbn [Parser.Methods.functionBody].
    rewrite (bind_eq _ _ _ _ _ (peek_eq _ _ _ Hret)).
    unfold Parser.is_type at 1. rewrite Hty.
    rewrite bool_decide_eq_false_2 by done.
    change (negb false) with true. cbv iota.
    rewrite bool_decide_eq_true_2 by done.
    unfold Parser.Methods.parseReturnStatement, Parser.bind.
    rewrite (expect_eq _ _ _ _ _ Hret Hty).
    by destruct (Parser.call_parseStatement self true (S k)). }
  split.
  - intros self n body stmt j Hstmt.
    by rewrite Hbody, (bind_eq _ _ _ _ _ Hstmt).
  - intros semi nxt n body Hsemi Htysemi Hnxt Hc Hp Hr Hptr.
    rewrite Hbody. apply bind_Err.
    change (Parser.call_parseStatement (Parser.calls tokens (S fuel)))
      with (Parser.Methods.parseStatement tokens fuel
              (Parser.calls tokens fuel)).
    unfold Parser.Methods.parseStatement.
    rewrite (bind_eq _ _ _ _ _ (peek_eq _ _ _ Hsemi)).
    unfold Parser.is_type. rewrite Htysemi.
    rewrite !bool_decide_eq_false_2 by done.
    change (false || false) with false. cbv iota.
    apply bind_Err.
    unfold Parser.Methods.parseExpression,
      Parser.Methods.parseAssignmentExpression.
    rewrite (bind_eq _ _ _ false (S k)); cycle 1.
    { replace (S (S k)) with (S k + 1) in Hnxt by lia.
      rewrite (bind_eq _ _ _ _ _ (peekNext_eq _ _ _ Hnxt)).
      unfold Parser.is_type. by rewrite !bool_decide_eq_false_2 by done. }
    cbv iota. apply bind_Err.
    unfold Parser.Methods.parseBooleanExpression. apply bind_Err.
    unfold Parser.Methods.parseAdditiveExpression. apply bind_Err.
    unfold Parser.Methods.parseMultiplicativeExpression. apply bind_Err.
    unfold Parser.Methods.parseExponentialExpression. apply bind_Err.
    unfold Parser.Methods.parseDotExpression. apply bind_Err.
    unfold Parser.Methods.parsePrimaryExpression.
    rewrite (bind_eq _ _ _ _ _ (peek_eq _ _ _ Hsemi)).
    unfold Parser.is_type. by rewrite Htysemi.
Qed.

Lemma return_ends_function_body_witness :
  Parser.Methods.functionBody return_semicolon
    (Parser.calls return_semicolon 1) 1 [] 0
  = Parser.Err unexpected_token.
Proof.
  by apply (proj2 (return_ends_function_body return_semicolon 0 0
                     (mkToken (str "return") return_)
                     eq_refl eq_refl eq_refl)
              (mkToken (str ";") Semicolon) (mkToken (str "}") CCurlyBrace)).
Defined.

(** * Termination of the parser *)

Section runs.

Import Parser Parser.Methods.

Context (tokens : TokenList).

Local Abbreviation L := (length tokens).

Lemma advances_proceeds {A} (m : M A) k :
  advances tokens m k → proceeds tokens m k.
Proof.
  intros [H1 H2]. split; [done|]. intros a k' H. destruct (H2 a k' H). lia.
Qed.

Lemma proceeds_ret {A} (a : A) k : k ≤ L → proceeds tokens (ret a) k.
Proof. intros Hk. split; [done|]. intros ?? [= _ <-]. lia. Qed.

Lemma proceeds_throw {A} msg k : proceeds tokens (@throw A msg) k.
Proof. by split. Qed.

Lemma advances_throw {A} msg k : advances tokens (@throw A msg) k.
Proof. by split. Qed.

Lemma proceeds_bind {A B} (m : M A) (f : A → M B) k :
  proceeds tokens m k →
  (∀ a k', m k = Ok a k' → k ≤ k' → k' ≤ L → proceeds tokens (f a) k') →
  proceeds tokens (bind m f) k.
Proof.
  intros [Hm1 Hm2] Hf. unfold bind, proceeds in *.
  destruct (m k) as [a k'| | |] eqn:Hmk; try done.
  destruct (Hm2 a k' eq_refl) as [? ?].
  destruct (Hf a k' eq_refl) as [Hf1 Hf2]; [done..|].
  split; [done|]. intros b k'' Hb. destruct (Hf2 b k'' Hb). lia.
Qed.

Lemma advances_bind_l {A B} (m : M A) (f : A → M B) k :
  advances tokens m k →
  (∀ a k', m k = Ok a k' → k < k' → k' ≤ L → proceeds tokens (f a) k') →
  advances tokens (bind m f) k.
Proof.
  intros [Hm1 Hm2] Hf. unfold bind, proceeds, advances in *.
  destruct (m k) as [a k'| | |] eqn:Hmk; try done.
  destruct (Hm2 a k' eq_refl) as [? ?].
  destruct (Hf a k' eq_refl) as [Hf1 Hf2]; [done..|].
  split; [done|]. intros b k'' Hb. destruct (Hf2 b k'' Hb). lia.
Qed.

Lemma advances_bind_r {A B} (m : M A) (f : A → M B) k :
  proceeds tokens m k →
  (∀ a k', m k = Ok a k' → k ≤ k' → k' ≤ L → advances tokens (f a) k') →
  advances tokens (bind m f) k.
Proof.
  intros [Hm1 Hm2] Hf. unfold bind, proceeds, advances in *.
  destruct (m k) as [a k'| | |] eqn:Hmk; try done.
  destruct (Hm2 a k' eq_refl) as [? ?].
  destruct (Hf a k' eq_refl) as [Hf1 Hf2]; [done..|].
  split; [done|]. intros b k'' Hb. destruct (Hf2 b k'' Hb). lia.
Qed.

(** The primitives, with what their result tells about the index. *)

Lemma proceeds_peek {A} (f : Token → M A) k :
  (∀ tk, tokens !! k = Some tk → k < L → proceeds tokens (f tk) k) →
  proceeds tokens (bind (peek tokens) f) k.
Proof.
  intros Hf. unfold proceeds, advances, bind, peek.
  destruct (tokens !! k) as [tk|] eqn:Htk; [|by split].
  apply Hf; [done|]. by eapply lookup_lt_Some.
Qed.

Lemma advances_peek {A} (f : Token → M A) k :
  (∀ tk, tokens !! k = Some tk → k < L → advances tokens (f tk) k) →
  advances tokens (bind (peek tokens) f) k.
Proof.
  intros Hf. unfold proceeds, advances, bind, peek.
  destruct (tokens !! k) as [tk|] eqn:Htk; [|by split].
  apply Hf; [done|]. by eapply lookup_lt_Some.
Qed.

Lemma proceeds_peekNext {A} (f : Token → M A) k :
  (∀ tk, tokens !! (k + 1) = Some tk → k + 1 < L →
         proceeds tokens (f tk) k) →
  proceeds tokens (bind (peekNext tokens) f) k.
Proof.
  intros Hf. unfold proceeds, advances, bind, peekNext.
  destruct (tokens !! (k + 1)) as [tk|] eqn:Htk; [|by split].
  apply Hf; [done|]. by eapply lookup_lt_Some.
Qed.

Lemma advances_peekNext {A} (f : Token → M A) k :
  (∀ tk, tokens !! (k + 1) = Some tk → k + 1 < L →
         advances tokens (f tk) k) →
  advances tokens (bind (peekNext tokens) f) k.
Proof.
  intros Hf. unfold proceeds, advances, bind, peekNext.
  destruct (tokens !! (k + 1)) as [tk|] eqn:Htk; [|by split].
  apply Hf; [done|]. by eapply lookup_lt_Some.
Qed.

Lemma proceeds_peekTo {A} j (f : Token → M A) k :
  (∀ tk, proceeds tokens (f tk) k) →
  proceeds tokens (bind (peekTo tokens j) f) k.
Proof.
  intros Hf. unfold proceeds, advances, bind, peekTo.
  destruct (if bool_decide (length tokens ≤ j) then last tokens
            else tokens !! j); [apply Hf|by split].
Qed.

Lemma advances_peekTo {A} j (f : Token → M A) k :
  (∀ tk, advances tokens (f tk) k) →
  advances tokens (bind (peekTo tokens j) f) k.
Proof.
  intros Hf. unfold proceeds, advances, bind, peekTo.
  destruct (if bool_decide (length tokens ≤ j) then last tokens
            else tokens !! j); [apply Hf|by split].
Qed.

Lemma advances_get_i {A} (f : nat → M A) k :
  advances tokens (f k) k → advances tokens (bind get_i f) k.
Proof. done. Qed.

Lemma proceeds_get_i {A} (f : nat → M A) k :
  proceeds tokens (f k) k → proceeds tokens (bind get_i f) k.
Proof. done. Qed.

Lemma advances_eat {A} (f : Token → M A) k :
  (∀ tk, tokens !! k = Some tk → S k ≤ L → proceeds tokens (f tk) (S k)) →
  advances tokens (bind (eat tokens) f) k.
Proof.
  intros Hf. unfold advances, bind, eat.
  destruct (tokens !! k) as [tk|] eqn:Htk; [|by split].
  apply lookup_lt_Some in Htk as Hlt.
  destruct (Hf tk eq_refl) as [H1 H2]; [lia|].
  split; [done|]. intros a k' Ha. destruct (H2 a k' Ha). lia.
Qed.

Lemma advances_expect {A} ty err (f : Token → M A) k :
  (∀ tk, tokens !! k = Some tk → type tk = ty → S k ≤ L →
         proceeds tokens (f tk) (S k)) →
  advances tokens (bind (expect tokens ty err) f) k.
Proof.
  intros Hf. unfold advances, expect, bind, eat.
  destruct (tokens !! k) as [tk|] eqn:Htk; [|by split].
  apply lookup_lt_Some in Htk as Hlt.
  case_bool_decide as Hty; [by split|].
  destruct (Hf tk eq_refl Hty) as [H1 H2]; [lia|].
  split; [done|]. intros a k' Ha. destruct (H2 a k' Ha). lia.
Qed.

Lemma advances_expect2 {A} type1 type2 err (f : Token → M A) k :
  (∀ tk, tokens !! k = Some tk → S k ≤ L → proceeds tokens (f tk) (S k)) →
  advances tokens (bind (expect2 tokens type1 type2 err) f) k.
Proof.
  intros Hf. unfold advances, expect2, bind, eat.
  destruct (tokens !! k) as [tk|] eqn:Htk; [|by split].
  apply lookup_lt_Some in Htk as Hlt.
  destruct (_ && _); [by split|].
  destruct (Hf tk eq_refl) as [H1 H2]; [lia|].
  split; [done|]. intros a k' Ha. destruct (H2 a k' Ha). lia.
Qed.

Lemma proceeds_eatIfMutable k : proceeds tokens (eatIfMutable tokens) k.
Proof.
  unfold eatIfMutable. apply proceeds_peek. intros tk Htk Hlt.
  destruct (is_type tk mutable_); [|by apply proceeds_ret; lia].
  apply advances_proceeds, advances_eat. intros. by apply proceeds_ret.
Qed.

Lemma proceeds_eatIfRefOrPtr k : proceeds tokens (eatIfRefOrPtr tokens) k.
Proof.
  unfold eatIfRefOrPtr. apply proceeds_peek. intros tk Htk Hlt.
  destruct (is_type tk Reference);
    [apply advances_proceeds, advances_eat; intros; by apply proceeds_ret|].
  destruct (is_type tk Pointer);
    [apply advances_proceeds, advances_eat; intros; by apply proceeds_ret|].
  apply proceeds_ret. lia.
Qed.

Lemma proceeds_new_TypeName name isMutable isRef isPtr k :
  k ≤ L → proceeds tokens (new_TypeName name isMutable isRef isPtr) k.
Proof.
  intros. unfold new_TypeName.
  destruct (_ && _); [apply proceeds_throw|by apply proceeds_ret].
Qed.

Lemma proceeds_new_Parameter isMutable ty isRef isPtr name k :
  k ≤ L → proceeds tokens (new_Parameter isMutable ty isRef isPtr name) k.
Proof.
  intros. unfold new_Parameter. apply proceeds_bind.
  - by apply proceeds_new_TypeName.
  - intros. by apply proceeds_ret.
Qed.

Lemma proceeds_ret_bind {A B} (a : A) (f : A → M B) k :
  proceeds tokens (f a) k → proceeds tokens (bind (ret a) f) k.
Proof. done. Qed.

Lemma advances_ret_bind {A B} (a : A) (f : A → M B) k :
  advances tokens (f a) k → advances tokens (bind (ret a) f) k.
Proof. done. Qed.

Lemma proceeds_throw_bind {A B} msg (f : A → M B) k :
  proceeds tokens (bind (throw msg) f) k.
Proof. by split. Qed.

Lemma advances_throw_bind {A B} msg (f : A → M B) k :
  advances tokens (bind (throw msg) f) k.
Proof. by split. Qed.

Lemma proceeds_bind_assoc {A B C} (m : M A) (g : A → M B) (f : B → M C) k :
  proceeds tokens (bind m (λ x, bind (g x) f)) k →
  proceeds tokens (bind (bind m g) f) k.
Proof. unfold proceeds, bind. by destruct (m k). Qed.

Lemma advances_bind_assoc {A B C} (m : M A) (g : A → M B) (f : B → M C) k :
  advances tokens (bind m (λ x, bind (g x) f)) k →
  advances tokens (bind (bind m g) f) k.
Proof. unfold advances, bind. by destruct (m k). Qed.

End runs.

(** One step of a run: the first action of the method under the
    predicate, then the hypotheses it leaves. *)
Ltac run_step :=
  lazymatch goal with
  | |- proceeds _ (Parser.bind (Parser.Methods.peek _) _) _ =>
      apply proceeds_peek; intros ? ? ?
  | |- advances _ (Parser.bind (Parser.Methods.peek _) _) _ =>
      apply advances_peek; intros ? ? ?
  | |- proceeds _ (Parser.bind (Parser.Methods.peekNext _) _) _ =>
      apply proceeds_peekNext; intros ? ? ?
  | |- advances _ (Parser.bind (Parser.Methods.peekNext _) _) _ =>
      apply advances_peekNext; intros ? ? ?
  | |- proceeds _ (Parser.bind (Parser.Methods.peekTo _ _) _) _ =>
      apply proceeds_peekTo; intros ?
  | |- advances _ (Parser.bind (Parser.Methods.peekTo _ _) _) _ =>
      apply advances_peekTo; intros ?
  | |- proceeds _ (Parser.bind Parser.get_i _) _ => apply proceeds_get_i
  | |- advances _ (Parser.bind Parser.get_i _) _ => apply advances_get_i
  | |- advances _ (Parser.bind (Parser.Methods.eat _) _) _ =>
      apply advances_eat; intros ? ? ?
  | |- proceeds _ (Parser.bind (Parser.Methods.eat _) _) _ =>
      apply advances_proceeds, advances_eat; intros ? ? ?
  | |- advances _ (Parser.bind (Parser.Methods.expect _ _ _) _) _ =>
      apply advances_expect; intros ? ? ? ?
  | |- proceeds _ (Parser.bind (Parser.Methods.expect _ _ _) _) _ =>
      apply advances_proceeds, advances_expect; intros ? ? ? ?
  | |- advances _ (Parser.bind (Parser.Methods.expect2 _ _ _ _) _) _ =>
      apply advances_expect2; intros ? ? ?
  | |- proceeds _ (Parser.bind (Parser.Methods.expect2 _ _ _ _) _) _ =>
      apply advances_proceeds, advances_expect2; intros ? ? ?
  | |- proceeds _ (Parser.bind (Parser.Methods.eatIfMutable _) _) _ =>
      apply proceeds_bind; [apply proceeds_eatIfMutable|intros ? ? _ ? ?]
  | |- advances _ (Parser.bind (Parser.Methods.eatIfMutable _) _) _ =>
      apply advances_bind_r; [apply proceeds_eatIfMutable|intros ? ? _ ? ?]
  | |- proceeds _ (Parser.bind (Parser.Methods.eatIfRefOrPtr _) _) _ =>
      apply proceeds_bind;
      [apply proceeds_eatIfRefOrPtr|intros [? ?] ? _ ? ?]
  | |- advances _ (Parser.bind (Parser.Methods.eatIfRefOrPtr _) _) _ =>
      apply advances_bind_r;
      [apply proceeds_eatIfRefOrPtr|intros [? ?] ? _ ? ?]
  | |- proceeds _ (Parser.bind (Parser.Methods.new_TypeName _ _ _ _) _) _ =>
      apply proceeds_bind;
      [apply proceeds_new_TypeName; lia|intros ? ? _ ? ?]
  | |- advances _ (Parser.bind (Parser.Methods.new_TypeName _ _ _ _) _) _ =>
      apply advances_bind_r;
      [apply proceeds_new_TypeName; lia|intros ? ? _ ? ?]
  | |- proceeds _ (Parser.bind (Parser.Methods.new_Parameter _ _ _ _ _) _) _ =>
      apply proceeds_bind;
      [apply proceeds_new_Parameter; lia|intros ? ? _ ? ?]
  | |- proceeds _ (Parser.bind (Parser.ret _) _) _ =>
      apply proceeds_ret_bind; cbv beta iota
  | |- advances _ (Parser.bind (Parser.ret _) _) _ =>
      apply advances_ret_bind; cbv beta iota
  | |- proceeds _ (Parser.bind (Parser.throw _) _) _ =>
      apply proceeds_throw_bind
  | |- advances _ (Parser.bind (Parser.throw _) _) _ =>
      apply advances_throw_bind
  | |- proceeds _ (Parser.bind (Parser.bind _ _) _) _ =>
      apply proceeds_bind_assoc
  | |- advances _ (Parser.bind (Parser.bind _ _) _) _ =>
      apply advances_bind_assoc
  | |- _ _ (Parser.bind (if ?b then _ else _) _) _ => destruct b eqn:?
  | |- proceeds _ (Parser.ret _) _ => apply proceeds_ret; lia
  | |- proceeds _ (Parser.throw _) _ => apply proceeds_throw
  | |- advances _ (Parser.throw _) _ => apply advances_throw
  | |- _ _ (if ?b then _ else _) _ => destruct b eqn:?
  end.

Ltac run := repeat run_step.

Section methods.

Import Parser Parser.Methods.

Context (tokens : TokenList) (fuel : nat) (self : Calls) (k0 : nat).

Hypothesis Hself : calls_advance tokens self k0.
Hypothesis Hfuel : length tokens - k0 ≤ fuel.

Lemma proceeds_functionCallArguments n :
  ∀ params k, k0 < k → length tokens - k ≤ n →
              proceeds tokens (functionCallArguments tokens self n params) k.
Proof.
  induction n as [|n IH]; intros params k Hk Hn;
    cbn [functionCallArguments]; run; try lia.
  apply advances_proceeds, advances_bind_l;
    [by apply (adv_parseAdditiveExpression _ _ _ Hself)|].
  intros e k1 _ ? ?. run; apply IH; lia.
Qed.

Lemma advances_parseFunctionCall isLoneCall k :
  k0 ≤ k →
  advances tokens (parseFunctionCall tokens fuel self isLoneCall) k.
Proof.
  intros Hk. unfold parseFunctionCall. run.
  apply proceeds_bind; [apply proceeds_functionCallArguments; lia|].
  intros params k1 _ ? ?. run.
Qed.

Lemma advances_parsePrimaryExpression k :
  k0 ≤ k → advances tokens (parsePrimaryExpression tokens fuel self) k.
Proof.
  intros Hk. unfold parsePrimaryExpression. run;
    try by apply advances_parseFunctionCall.
  apply advances_proceeds, advances_bind_l;
    [apply (adv_parseExpression _ _ _ Hself); lia|].
  intros e k1 _ ? ?. run.
Qed.

Lemma proceeds_dotLoop n :
  ∀ left k, k0 ≤ k → length tokens - k ≤ n →
            proceeds tokens (dotLoop tokens fuel self n left) k.
Proof.
  induction n as [|n IH]; intros left k Hk Hn; cbn [dotLoop]; run; try lia.
  apply advances_proceeds, advances_bind_l;
    [apply advances_parsePrimaryExpression; lia|].
  intros e k1 _ ? ?. apply IH; lia.
Qed.

Lemma advances_parseDotExpression k :
  k0 ≤ k → advances tokens (parseDotExpression tokens fuel self) k.
Proof.
  intros Hk. unfold parseDotExpression.
  apply advances_bind_l; [by apply advances_parsePrimaryExpression|].
  intros e k1 _ ? ?. apply proceeds_dotLoop; lia.
Qed.

Lemma proceeds_exponentialLoop n :
  ∀ left k, k0 ≤ k → length tokens - k ≤ n →
            proceeds tokens (exponentialLoop tokens fuel self n left) k.
Proof.
  induction n as [|n IH]; intros left k Hk Hn; cbn [exponentialLoop]; run;
    try lia.
  apply advances_proceeds, advances_bind_l;
    [apply advances_parseDotExpression; lia|].
  intros e k1 _ ? ?. apply IH; lia.
Qed.

Lemma advances_parseExponentialExpression k :
  k0 ≤ k → advances tokens (parseExponentialExpression tokens fuel self) k.
Proof.
  intros Hk. unfold parseExponentialExpression.
  apply advances_bind_l; [by apply advances_parseDotExpression|].
  intros e k1 _ ? ?. apply proceeds_exponentialLoop; lia.
Qed.

Lemma proceeds_multiplicativeLoop n :
  ∀ left k, k0 ≤ k → length tokens - k ≤ n →
            proceeds tokens (multiplicativeLoop tokens fuel self n left) k.
Proof.
  induction n as [|n IH]; intros left k Hk Hn; cbn [multiplicativeLoop]; run;
    try lia.
  apply advances_proceeds, advances_bind_l;
    [apply advances_parseExponentialExpression; lia|].
  intros e k1 _ ? ?. apply IH; lia.
Qed.

Lemma advances_parseMultiplicativeExpression k :
  k0 ≤ k →
  advances tokens (parseMultiplicativeExpression tokens fuel self) k.
Proof.
  intros Hk. unfold parseMultiplicativeExpression.
  apply advances_bind_l; [by apply advances_parseExponentialExpression|].
  intros e k1 _ ? ?. apply proceeds_multiplicativeLoop; lia.
Qed.

Lemma proceeds_additiveLoop n :
  ∀ left k, k0 ≤ k → length tokens - k ≤ n →
            proceeds tokens (additiveLoop tokens fuel self n left) k.
Proof.
  induction n as [|n IH]; intros left k Hk Hn; cbn [additiveLoop]; run;
    try lia.
  apply advances_proceeds, advances_bind_l;
    [apply advances_parseMultiplicativeExpression; lia|].
  intros e k1 _ ? ?. apply IH; lia.
Qed.

Lemma advances_parseAdditiveExpression k :
  k0 ≤ k → advances tokens (parseAdditiveExpression tokens fuel self) k.
Proof.
  intros Hk. unfold parseAdditiveExpression.
  apply advances_bind_l; [by apply advances_parseMultiplicativeExpression|].
  intros e k1 _ ? ?. apply proceeds_additiveLoop; lia.
Qed.

Lemma proceeds_booleanLoop n :
  ∀ left k, k0 ≤ k → length tokens - k ≤ n →
            proceeds tokens (booleanLoop tokens fuel self n left) k.
Proof.
  induction n as [|n IH]; intros left k Hk Hn; cbn [booleanLoop]; run;
    try lia.
  apply advances_proceeds, advances_bind_l;
    [apply advances_parseAdditiveExpression; lia|].
  intros e k1 _ ? ?. apply IH; lia.
Qed.

Lemma advances_parseBooleanExpression k :
  k0 ≤ k → advances tokens (parseBooleanExpression tokens fuel self) k.
Proof.
  intros Hk. unfold parseBooleanExpression.
  apply advances_bind_l; [by apply advances_parseAdditiveExpression|].
  intros e k1 _ ? ?. apply proceeds_booleanLoop; lia.
Qed.

Lemma advances_assignment_tail (TopCall : bool) k :
  k0 ≤ k →
  advances tokens
    (do left <- parseBooleanExpression tokens fuel self;
     do tk <- peek tokens;
     do left <-
       (if is_type tk Equals then
          do _ <- eat tokens;
          do right <- call_parseAssignmentExpression self false;
          ret (ast.AssignmentExpression left right)
        else ret left);
     do _ <- (if TopCall
              then do _ <- expect tokens Semicolon
                             (str "must end statement with semicolon");
                   ret tt
              else ret tt);
     ret left) k.
Proof.
  intros Hk.
  apply advances_bind_l; [by apply advances_parseBooleanExpression|].
  intros left k1 _ ? ?. run.
  apply advances_proceeds, advances_bind_l;
    [apply (adv_parseAssignmentExpression _ _ _ Hself); lia|].
  intros. run.
Qed.

Lemma advances_parseAssignmentExpression TopCall k :
  k0 ≤ k →
  advances tokens (parseAssignmentExpression tokens fuel self TopCall) k.
Proof.
  intros Hk. unfold parseAssignmentExpression. destruct TopCall; run;
    try by apply (advances_assignment_tail true).
  - apply advances_bind_l;
      [by apply (adv_parseVariableDeclaration _ _ _ Hself)|].
    intros. run.
  - by apply (advances_assignment_tail false).
Qed.

Lemma advances_parseExpression TopCall k :
  k0 ≤ k → advances tokens (Methods.parseExpression tokens fuel self TopCall) k.
Proof. apply advances_parseAssignmentExpression. Qed.

Lemma advances_parseVariableDeclaration k :
  k0 ≤ k + 1 →
  advances tokens (Methods.parseVariableDeclaration tokens fuel self) k.
Proof.
  intros Hk. unfold Methods.parseVariableDeclaration. run.
  all: apply advances_proceeds, advances_bind_l;
    [apply advances_parseExpression; lia|].
  all: intros; run.
Qed.

Lemma advances_parseReturnStatement k :
  k0 ≤ k → advances tokens (parseReturnStatement tokens self) k.
Proof.
  intros Hk. unfold parseReturnStatement. run.
  apply advances_proceeds, advances_bind_l;
    [apply (adv_parseStatement _ _ _ Hself); lia|].
  intros. run.
Qed.

Lemma proceeds_functionBody n :
  ∀ f_body k, k0 < k → length tokens - k ≤ n →
              proceeds tokens (functionBody tokens self n f_body) k.
Proof.
  induction n as [|n IH]; intros f_body k Hk Hn; cbn [functionBody]; run;
    try lia.
  - apply advances_proceeds, advances_bind_l;
      [apply advances_parseReturnStatement; lia|].
    intros. run.
  - apply advances_proceeds, advances_bind_l;
      [by apply (adv_parseStatement _ _ _ Hself)|].
    intros stmt k1 _ ? ?. apply IH; lia.
Qed.

Lemma proceeds_parameterList n :
  ∀ f_name f_p_list k,
    length tokens - k ≤ n →
    proceeds tokens (parameterList tokens n f_name f_p_list) k.
Proof.
  induction n as [|n IH]; intros f_name f_p_list k Hn;
    cbn [parameterList]; run; try lia.
  all: apply IH; lia.
Qed.

Lemma advances_parseFunctionDeclaration k :
  k0 ≤ k + 1 →
  advances tokens (Methods.parseFunctionDeclaration tokens fuel self) k.
Proof.
  intros Hk. unfold Methods.parseFunctionDeclaration. run.
  all: apply proceeds_bind; [apply proceeds_parameterList; lia|].
  all: intros ? ? _ ? ?; run.
  all: apply proceeds_bind; [apply proceeds_functionBody; lia|].
  all: intros ? ? _ ? ?; run.
Qed.

Lemma advances_handleIdentifier k :
  k0 ≤ k → advances tokens (handleIdentifier tokens fuel self) k.
Proof.
  intros Hk. unfold handleIdentifier.
  apply advances_bind_l; [by apply advances_parseAssignmentExpression|].
  intros. run.
Qed.

Lemma advances_handleMutable k :
  k0 ≤ k → advances tokens (handleMutable tokens fuel self) k.
Proof.
  intros Hk. unfold handleMutable. run.
  all: first
    [ apply advances_bind_l; [by apply advances_parseAssignmentExpression|]
    | apply advances_bind_l; [apply advances_parseVariableDeclaration; lia|]
    | apply advances_bind_l; [apply advances_parseFunctionDeclaration; lia|] ].
  all: intros; run.
Qed.

Lemma advances_handleType k :
  k0 ≤ k → advances tokens (handleType tokens fuel self) k.
Proof.
  intros Hk. unfold handleType. run.
  all: first
    [ apply advances_bind_l; [apply advances_parseVariableDeclaration; lia|]
    | apply advances_bind_l; [apply advances_parseFunctionDeclaration; lia|] ].
  all: intros; run.
Qed.

Lemma proceeds_classBody n :
  ∀ fields methods currentspec k,
    k0 ≤ k → length tokens - k ≤ n →
    proceeds tokens
      (classBody tokens fuel self n fields methods currentspec) k.
Proof.
  induction n as [|n IH]; intros fields methods currentspec k Hk Hn;
    cbn [classBody]; run; try lia.
  all: first
    [ apply advances_proceeds, advances_bind_l;
      [apply advances_parseFunctionDeclaration; lia|]
    | apply advances_proceeds, advances_bind_l;
      [apply advances_parseVariableDeclaration; lia|] ].
  all: intros ? ? _ ? ?; apply IH; lia.
Qed.

Lemma advances_parseClassDefinition k :
  k0 ≤ k → advances tokens (parseClassDefinition tokens fuel self) k.
Proof.
  intros Hk. unfold parseClassDefinition. run.
  apply proceeds_bind; [apply proceeds_classBody; lia|].
  intros [fields methods] ? _ ? ?. run.
Qed.

Lemma proceeds_nameSpaceBody n :
  ∀ stmtList k, k0 < k → length tokens - k ≤ n →
                proceeds tokens (nameSpaceBody tokens self n stmtList) k.
Proof.
  induction n as [|n IH]; intros stmtList k Hk Hn; cbn [nameSpaceBody]; run;
    try lia.
  apply advances_proceeds, advances_bind_l;
    [by apply (adv_parseStatement _ _ _ Hself)|].
  intros stmt k1 _ ? ?. apply IH; lia.
Qed.

Lemma advances_parseNameSpaceDeclaration k :
  k0 ≤ k → advances tokens (parseNameSpaceDeclaration tokens fuel self) k.
Proof.
  intros Hk. unfold parseNameSpaceDeclaration. run.
  apply proceeds_bind; [apply proceeds_nameSpaceBody; lia|].
  intros ? ? _ ? ?. run.
Qed.

Lemma proceeds_ifStatementBody n :
  ∀ stmts k, k0 ≤ k → length tokens - k ≤ n →
             proceeds tokens (ifStatementBody tokens fuel self n stmts) k.
Proof.
  induction n as [|n IH]; intros stmts k Hk Hn; cbn [ifStatementBody]; run;
    try lia.
  apply advances_proceeds, advances_bind_l;
    [by apply advances_parseExpression|].
  intros e k1 _ ? ?. apply IH; lia.
Qed.

Lemma advances_parseIfStatement k :
  k0 ≤ k → advances tokens (Methods.parseIfStatement tokens fuel self) k.
Proof.
  intros Hk. unfold Methods.parseIfStatement. run.
  apply advances_proceeds, advances_bind_l;
    [apply advances_parseExpression; lia|].
  intros condition k1 _ ? ?. run.
  - apply proceeds_bind; [apply proceeds_ifStatementBody; lia|].
    intros ? ? _ ? ?. run.
  - apply advances_proceeds, advances_bind_l;
      [apply (adv_parseStatement _ _ _ Hself); lia|].
    intros. run.
Qed.

Lemma advances_parseStatement AllowDeclarations k :
  k0 ≤ k →
  advances tokens (Methods.parseStatement tokens fuel self AllowDeclarations)
    k.
Proof.
  intros Hk. unfold Methods.parseStatement. run;
    auto using advances_parseIfStatement, advances_parseNameSpaceDeclaration,
      advances_handleIdentifier, advances_handleType, advances_handleMutable,
      advances_parseClassDefinition.
Qed.

End methods.

(** Behind the last token every method reads [tokens[ k ]] first. *)
Lemma methods_out_of_range tokens fuel self k :
  length tokens ≤ k →
  (∀ b, Parser.Methods.parseStatement tokens fuel self b k = Parser.Undefined)
  ∧ (∀ b, Parser.Methods.parseAssignmentExpression tokens fuel self b k
          = Parser.Undefined)
  ∧ Parser.Methods.parseAdditiveExpression tokens fuel self k
    = Parser.Undefined
  ∧ Parser.Methods.parseVariableDeclaration tokens fuel self k
    = Parser.Undefined.
Proof.
  intros Hk.
  assert (Parser.Methods.peek tokens k = Parser.Undefined) as Hpeek
    by (unfold Parser.Methods.peek; by rewrite lookup_ge_None_2).
  assert (Parser.Methods.parseAdditiveExpression tokens fuel self k
          = Parser.Undefined) as Hadd.
  { unfold Parser.Methods.parseAdditiveExpression.
    apply bind_Undefined.
    unfold Parser.Methods.parseMultiplicativeExpression.
    apply bind_Undefined.
    unfold Parser.Methods.parseExponentialExpression. apply bind_Undefined.
    unfold Parser.Methods.parseDotExpression. apply bind_Undefined.
    unfold Parser.Methods.parsePrimaryExpression. by apply bind_Undefined. }
  split; [|split; [|split]].
  - intros b. unfold Parser.Methods.parseStatement. by apply bind_Undefined.
  - intros [].
    + unfold Parser.Methods.parseAssignmentExpression.
      apply bind_Undefined, bind_Undefined, peekNext_undefined. lia.
    + unfold Parser.Methods.parseAssignmentExpression.
      change (Parser.bind (Parser.ret false) ?f k) with (f false k).
      cbv beta iota. apply bind_Undefined.
      unfold Parser.Methods.parseBooleanExpression. by apply bind_Undefined.
  - done.
  - unfold Parser.Methods.parseVariableDeclaration,
      Parser.Methods.eatIfMutable.
    by apply bind_Undefined, bind_Undefined.
Qed.

(** The table of calls at a level of fuel that is enough. *)
Lemma calls_advance_level tokens fuel :
  (∀ b k, enough tokens k ≤ fuel →
          advances tokens (Parser.call_parseStatement
                             (Parser.calls tokens fuel) b) k)
  ∧ (∀ b k, enough tokens k ≤ fuel →
            advances tokens (Parser.call_parseExpression
                               (Parser.calls tokens fuel) b) k)
  ∧ (∀ b k, enough tokens k ≤ fuel →
            advances tokens (Parser.call_parseAssignmentExpression
                               (Parser.calls tokens fuel) b) k)
  ∧ (∀ k, enough tokens k ≤ fuel →
          advances tokens (Parser.call_parseAdditiveExpression
                             (Parser.calls tokens fuel)) k)
  ∧ (∀ k, enough tokens k ≤ S fuel →
          advances tokens (Parser.call_parseVariableDeclaration
                             (Parser.calls tokens fuel)) k).
Proof.
  unfold enough.
  induction fuel as [|fuel (IHS & IHE & IHA & IHD & IHV)].
  { split; [|split; [|split; [|split]]]; intros; lia. }
  assert (∀ (A : Type) (m : Parser.M A) k,
            m k = Parser.Undefined → advances tokens m k) as Hout.
  { intros A m k Hm. unfold advances. by rewrite Hm. }
  assert (∀ k0, 1 ≤ fuel →
                (k0 < length tokens → 2 * (length tokens - k0) + 1 ≤ fuel) →
                calls_advance tokens (Parser.calls tokens fuel) k0) as Hcalls.
  { intros k0 Hf Hk0. split; intros;
      (destruct (decide (k < length tokens)) as [Hlt|Hge];
       [first [ apply IHS | apply IHE | apply IHA | apply IHD | apply IHV ];
        lia|]);
      destruct fuel as [|fuel']; try lia;
      apply Hout; by apply methods_out_of_range; lia. }
  cbn [Parser.calls Parser.call_parseStatement Parser.call_parseExpression
       Parser.call_parseAssignmentExpression
       Parser.call_parseAdditiveExpression
       Parser.call_parseVariableDeclaration].
  split; [|split; [|split; [|split]]]; intros;
    (destruct (decide (k < length tokens)) as [Hlt|Hge];
     [|apply Hout; by apply methods_out_of_range; lia]).
  - apply (advances_parseStatement tokens fuel _ k); [apply Hcalls|..]; lia.
  - apply (advances_parseExpression tokens fuel _ k); [apply Hcalls|..]; lia.
  - apply (advances_parseAssignmentExpression tokens fuel _ k);
      [apply Hcalls|..]; lia.
  - apply (advances_parseAdditiveExpression tokens fuel _ k);
      [apply Hcalls|..]; lia.
  - apply (advances_parseVariableDeclaration tokens fuel _ (S k));
      [apply Hcalls|..]; lia.
Qed.

Lemma calls_advance_enough tokens fuel k :
  enough tokens k ≤ fuel →
  calls_advance tokens (Parser.calls tokens fuel) k.
Proof.
  unfold enough. intros Hk.
  destruct (calls_advance_level tokens fuel) as (HS & HE & HA & HD & HV).
  split; intros; first [apply HS|apply HE|apply HA|apply HD|apply HV];
    unfold enough; lia.
Qed.

(** X24.  With fuel for twice the tokens that are left, and two more, no
    method of the parser stops for want of fuel, and whenever a
    statement, an expression, an [if] or a declaration is parsed, the
    index has moved forward by at least one token and is still within
    the token vector: every loop of the parser eats a token in each
    pass. *)
Theorem methods_advance tokens fuel k :
  enough tokens k ≤ fuel →
  (∀ b, advances tokens (Parser.parseStatement tokens fuel b) k)
  ∧ (∀ b, advances tokens (Parser.parseExpression tokens fuel b) k)
  ∧ advances tokens (Parser.parseIfStatement tokens fuel) k
  ∧ advances tokens (Parser.parseVariableDeclaration tokens fuel) k
  ∧ advances tokens (Parser.parseFunctionDeclaration tokens fuel) k.
Proof.
  intros Hk. pose proof (calls_advance_enough _ _ _ Hk) as Hcalls.
  assert (length tokens - k ≤ fuel) by (unfold enough in Hk; lia).
  split; [|split; [|split; [|split]]]; intros.
  - by apply (advances_parseStatement tokens fuel _ k).
  - by apply (advances_parseExpression tokens fuel _ k).
  - by apply (advances_parseIfStatement tokens fuel _ k).
  - apply (advances_parseVariableDeclaration tokens fuel _ k); [done..|lia].
  - apply (advances_parseFunctionDeclaration tokens fuel _ k); [done..|lia].
Qed.

Lemma methods_advance_witness :
  advances mutable_x_1 (Parser.parseVariableDeclaration mutable_x_1 16) 0.
Proof.
  apply (methods_advance mutable_x_1 16 0). vm_compute. lia.
Defined.

Lemma proceeds_produceAST_loop tokens fuel n :
  ∀ body k,
    length tokens - k ≤ n → enough tokens k ≤ fuel →
    proceeds tokens (Parser.produceAST_loop tokens fuel n body) k.
Proof.
  induction n as [|n IH]; intros body k Hn Hk;
    cbn [Parser.produceAST_loop]; unfold Parser.Methods.not_eof; run;
    try lia.
  apply advances_proceeds, advances_bind_l.
  - apply (advances_parseStatement tokens fuel _ k);
      [by apply calls_advance_enough|unfold enough in Hk; lia|done].
  - intros stmt k1 _ ? ?. apply IH; unfold enough in *; lia.
Qed.

(** X25.  The parser terminates: on every token vector, [produceAST]
    with fuel for twice the tokens and two more returns a program,
    raises an error or reads a token that is not there; it never runs
    out of fuel, and the index it returns with is within the vector. *)
Theorem produceAST_terminates tokens fuel :
  enough tokens 0 ≤ fuel →
  Parser.produceAST tokens fuel ≠ Parser.NoFuel
  ∧ ∀ p k, Parser.produceAST tokens fuel = Parser.Ok p k → k ≤ length tokens.
Proof.
  intros Hf. unfold Parser.produceAST.
  assert (proceeds tokens
            (Parser.bind (Parser.produceAST_loop tokens fuel fuel [])
               (λ body, Parser.ret (ast.mkProgram body))) 0) as [H1 H2].
  { apply proceeds_bind.
    - apply proceeds_produceAST_loop; unfold enough in *; lia.
    - intros. run. }
  split; [done|]. intros p k Hp. by destruct (H2 p k Hp).
Qed.

Lemma produceAST_terminates_witness :
  Parser.produceAST mutable_x_1 16 ≠ Parser.NoFuel
  ∧ ∀ p k, Parser.produceAST mutable_x_1 16 = Parser.Ok p k →
           k ≤ length mutable_x_1.
Proof.
  apply (produceAST_terminates mutable_x_1 16). vm_compute. lia.
Defined.

(** * More fuel changes no result *)

Lemma below_refl {A} (m : Parser.M A) : below m m.
Proof. intros k. by right. Qed.

Lemma below_no_fuel {A} (m : Parser.M A) : below Parser.no_fuel m.
Proof. intros k. by left. Qed.

Lemma below_bind {A B} (m m' : Parser.M A) (f f' : A → Parser.M B) :
  below m m' → (∀ a, below (f a) (f' a)) →
  below (Parser.bind m f) (Parser.bind m' f').
Proof.
  intros Hm Hf k. unfold Parser.bind.
  destruct (Hm k) as [->| <-]; [by left|].
  destruct (m k); auto. apply Hf.
Qed.

(** Two runs of the same method, with more fuel on the right: the
    binds and tests are taken apart side by side. *)
Ltac mono_step tac :=
  lazymatch goal with
  | |- below Parser.no_fuel _ => apply below_no_fuel
  | |- below ?m ?m => apply below_refl
  | |- below (if ?b then _ else _) (if ?b then _ else _) => destruct b
  | |- below (let '(_, _) := ?p in _) (let '(_, _) := ?p in _) =>
      destruct p
  | |- below (Parser.bind _ _) (Parser.bind _ _) =>
      apply below_bind; [|intros ?; cbv beta]
  | |- _ => tac
  end.

Ltac mono tac := repeat (mono_step tac).

Section monotone.

Import Parser Parser.Methods.

Context (tokens : TokenList) (fuel fuel' : nat) (self self' : Calls).

Hypothesis Hfuel : fuel ≤ fuel'.
Hypothesis Hself : calls_below self self'.

Lemma below_functionCallArguments n :
  ∀ n' params, n ≤ n' →
    below (functionCallArguments tokens self n params)
      (functionCallArguments tokens self' n' params).
Proof.
  induction n as [|n IH]; intros [|n'] params Hn; try lia;
    cbn [functionCallArguments];
    mono ltac:(first [ apply (below_call_parseAdditiveExpression _ _ Hself)
                     | apply IH; lia ]).
Qed.

Lemma below_parseFunctionCall isLoneCall :
  below (parseFunctionCall tokens fuel self isLoneCall)
    (parseFunctionCall tokens fuel' self' isLoneCall).
Proof.
  unfold parseFunctionCall.
  mono ltac:(by apply below_functionCallArguments).
Qed.

Lemma below_parsePrimaryExpression :
  below (parsePrimaryExpression tokens fuel self)
    (parsePrimaryExpression tokens fuel' self').
Proof.
  unfold parsePrimaryExpression.
  mono ltac:(first [ apply below_parseFunctionCall
                   | apply (below_call_parseExpression _ _ Hself) ]).
Qed.

Lemma below_dotLoop n :
  ∀ n' left, n ≤ n' →
    below (dotLoop tokens fuel self n left)
      (dotLoop tokens fuel' self' n' left).
Proof.
  induction n as [|n IH]; intros [|n'] left Hn; try lia; cbn [dotLoop];
    mono ltac:(first [ apply below_parsePrimaryExpression
                     | apply IH; lia ]).
Qed.

Lemma below_parseDotExpression :
  below (parseDotExpression tokens fuel self)
    (parseDotExpression tokens fuel' self').
Proof.
  unfold parseDotExpression.
  mono ltac:(first [ apply below_parsePrimaryExpression
                   | by apply below_dotLoop ]).
Qed.

Lemma below_exponentialLoop n :
  ∀ n' left, n ≤ n' →
    below (exponentialLoop tokens fuel self n left)
      (exponentialLoop tokens fuel' self' n' left).
Proof.
  induction n as [|n IH]; intros [|n'] left Hn; try lia;
    cbn [exponentialLoop];
    mono ltac:(first [ apply below_parseDotExpression | apply IH; lia ]).
Qed.

Lemma below_parseExponentialExpression :
  below (parseExponentialExpression tokens fuel self)
    (parseExponentialExpression tokens fuel' self').
Proof.
  unfold parseExponentialExpression.
  mono ltac:(first [ apply below_parseDotExpression
                   | by apply below_exponentialLoop ]).
Qed.

Lemma below_multiplicativeLoop n :
  ∀ n' left, n ≤ n' →
    below (multiplicativeLoop tokens fuel self n left)
      (multiplicativeLoop tokens fuel' self' n' left).
Proof.
  induction n as [|n IH]; intros [|n'] left Hn; try lia;
    cbn [multiplicativeLoop];
    mono ltac:(first [ apply below_parseExponentialExpression
                     | apply IH; lia ]).
Qed.

Lemma below_parseMultiplicativeExpression :
  below (parseMultiplicativeExpression tokens fuel self)
    (parseMultiplicativeExpression tokens fuel' self').
Proof.
  unfold parseMultiplicativeExpression.
  mono ltac:(first [ apply below_parseExponentialExpression
                   | by apply below_multiplicativeLoop ]).
Qed.

Lemma below_additiveLoop n :
  ∀ n' left, n ≤ n' →
    below (additiveLoop tokens fuel self n left)
      (additiveLoop tokens fuel' self' n' left).
Proof.
  induction n as [|n IH]; intros [|n'] left Hn; try lia;
    cbn [additiveLoop];
    mono ltac:(first [ apply below_parseMultiplicativeExpression
                     | apply IH; lia ]).
Qed.

Lemma below_parseAdditiveExpression :
  below (parseAdditiveExpression tokens fuel self)
    (parseAdditiveExpression tokens fuel' self').
Proof.
  unfold parseAdditiveExpression.
  mono ltac:(first [ apply below_parseMultiplicativeExpression
                   | by apply below_additiveLoop ]).
Qed.

Lemma below_booleanLoop n :
  ∀ n' left, n ≤ n' →
    below (booleanLoop tokens fuel self n left)
      (booleanLoop tokens fuel' self' n' left).
Proof.
  induction n as [|n IH]; intros [|n'] left Hn; try lia;
    cbn [booleanLoop];
    mono ltac:(first [ apply below_parseAdditiveExpression
                     | apply IH; lia ]).
Qed.

Lemma below_parseBooleanExpression :
  below (parseBooleanExpression tokens fuel self)
    (parseBooleanExpression tokens fuel' self').
Proof.
  unfold parseBooleanExpression.
  mono ltac:(first [ apply below_parseAdditiveExpression
                   | by apply below_booleanLoop ]).
Qed.

Lemma below_parseAssignmentExpression TopCall :
  below (parseAssignmentExpression tokens fuel self TopCall)
    (parseAssignmentExpression tokens fuel' self' TopCall).
Proof.
  unfold parseAssignmentExpression.
  mono ltac:(first
    [ apply (below_call_parseVariableDeclaration _ _ Hself)
    | apply (below_call_parseAssignmentExpression _ _ Hself)
    | apply below_parseBooleanExpression ]).
Qed.

Lemma below_parseExpression TopCall :
  below (Methods.parseExpression tokens fuel self TopCall)
    (Methods.parseExpression tokens fuel' self' TopCall).
Proof. apply below_parseAssignmentExpression. Qed.

Lemma below_parseVariableDeclaration :
  below (Methods.parseVariableDeclaration tokens fuel self)
    (Methods.parseVariableDeclaration tokens fuel' self').
Proof.
  unfold Methods.parseVariableDeclaration.
  mono ltac:(apply below_parseExpression).
Qed.

Lemma below_parseReturnStatement :
  below (parseReturnStatement tokens self) (parseReturnStatement tokens self').
Proof.
  unfold parseReturnStatement.
  mono ltac:(apply (below_call_parseStatement _ _ Hself)).
Qed.

Lemma below_functionBody n :
  ∀ n' f_body, n ≤ n' →
    below (functionBody tokens self n f_body)
      (functionBody tokens self' n' f_body).
Proof.
  induction n as [|n IH]; intros [|n'] f_body Hn; try lia;
    cbn [functionBody];
    mono ltac:(first [ apply below_parseReturnStatement
                     | apply (below_call_parseStatement _ _ Hself)
                     | apply IH; lia ]).
Qed.

Lemma below_parameterList n :
  ∀ n' f_name f_p_list, n ≤ n' →
    below (parameterList tokens n f_name f_p_list)
      (parameterList tokens n' f_name f_p_list).
Proof.
  induction n as [|n IH]; intros [|n'] f_name f_p_list Hn; try lia;
    cbn [parameterList]; mono ltac:(apply IH; lia).
Qed.

Lemma below_parseFunctionDeclaration :
  below (Methods.parseFunctionDeclaration tokens fuel self)
    (Methods.parseFunctionDeclaration tokens fuel' self').
Proof.
  unfold Methods.parseFunctionDeclaration.
  mono ltac:(first [ by apply below_parameterList
                   | by apply below_functionBody ]).
Qed.

Lemma below_handleIdentifier :
  below (handleIdentifier tokens fuel self)
    (handleIdentifier tokens fuel' self').
Proof.
  unfold handleIdentifier. mono ltac:(apply below_parseAssignmentExpression).
Qed.

Lemma below_handleMutable :
  below (handleMutable tokens fuel self) (handleMutable tokens fuel' self').
Proof.
  unfold handleMutable.
  mono ltac:(first [ apply below_parseAssignmentExpression
                   | apply below_parseVariableDeclaration
                   | apply below_parseFunctionDeclaration ]).
Qed.

Lemma below_handleType :
  below (handleType tokens fuel self) (handleType tokens fuel' self').
Proof.
  unfold handleType.
  mono ltac:(first [ apply below_parseVariableDeclaration
                   | apply below_parseFunctionDeclaration ]).
Qed.

Lemma below_classBody n :
  ∀ n' fields methods currentspec, n ≤ n' →
    below (classBody tokens fuel self n fields methods currentspec)
      (classBody tokens fuel' self' n' fields methods currentspec).
Proof.
  induction n as [|n IH]; intros [|n'] fields methods currentspec Hn;
    try lia; cbn [classBody];
    mono ltac:(first [ apply below_parseFunctionDeclaration
                     | apply below_parseVariableDeclaration
                     | apply IH; lia ]).
Qed.

Lemma below_parseClassDefinition :
  below (parseClassDefinition tokens fuel self)
    (parseClassDefinition tokens fuel' self').
Proof.
  unfold parseClassDefinition. mono ltac:(by apply below_classBody).
Qed.

Lemma below_nameSpaceBody n :
  ∀ n' stmtList, n ≤ n' →
    below (nameSpaceBody tokens self n stmtList)
      (nameSpaceBody tokens self' n' stmtList).
Proof.
  induction n as [|n IH]; intros [|n'] stmtList Hn; try lia;
    cbn [nameSpaceBody];
    mono ltac:(first [ apply (below_call_parseStatement _ _ Hself)
                     | apply IH; lia ]).
Qed.

Lemma below_parseNameSpaceDeclaration :
  below (parseNameSpaceDeclaration tokens fuel self)
    (parseNameSpaceDeclaration tokens fuel' self').
Proof.
  unfold parseNameSpaceDeclaration. mono ltac:(by apply below_nameSpaceBody).
Qed.

Lemma below_ifStatementBody n :
  ∀ n' stmts, n ≤ n' →
    below (ifStatementBody tokens fuel self n stmts)
      (ifStatementBody tokens fuel' self' n' stmts).
Proof.
  induction n as [|n IH]; intros [|n'] stmts Hn; try lia;
    cbn [ifStatementBody];
    mono ltac:(first [ apply below_parseExpression | apply IH; lia ]).
Qed.

Lemma below_parseIfStatement :
  below (Methods.parseIfStatement tokens fuel self)
    (Methods.parseIfStatement tokens fuel' self').
Proof.
  unfold Methods.parseIfStatement.
  mono ltac:(first [ apply below_parseExpression
                   | by apply below_ifStatementBody
                   | apply (below_call_parseStatement _ _ Hself) ]).
Qed.

Lemma below_parseStatement AllowDeclarations :
  below (Methods.parseStatement tokens fuel self AllowDeclarations)
    (Methods.parseStatement tokens fuel' self' AllowDeclarations).
Proof.
  unfold Methods.parseStatement.
  mono ltac:(first
    [ apply below_parseIfStatement | apply below_parseNameSpaceDeclaration
    | apply below_handleIdentifier | apply below_handleType
    | apply below_handleMutable | apply below_parseClassDefinition
    | apply below_parseExpression ]).
Qed.

End monotone.

Lemma calls_below_level tokens fuel :
  ∀ fuel', fuel ≤ fuel' →
           calls_below (Parser.calls tokens fuel) (Parser.calls tokens fuel').
Proof.
  induction fuel as [|fuel IH]; intros fuel' Hf.
  - split; intros; apply below_no_fuel.
  - destruct fuel' as [|fuel']; [lia|].
    assert (fuel ≤ fuel') as Hle by lia. specialize (IH fuel' Hle).
    split; intros; cbn [Parser.calls Parser.call_parseStatement
      Parser.call_parseExpression Parser.call_parseAssignmentExpression
      Parser.call_parseAdditiveExpression
      Parser.call_parseVariableDeclaration].
    + by apply below_parseStatement.
    + by apply below_parseExpression.
    + by apply below_parseAssignmentExpression.
    + by apply below_parseAdditiveExpression.
    + by apply below_parseVariableDeclaration.
Qed.

Lemma below_produceAST_loop tokens fuel fuel' n :
  fuel ≤ fuel' →
  ∀ n' body, n ≤ n' →
    below (Parser.produceAST_loop tokens fuel n body)
      (Parser.produceAST_loop tokens fuel' n' body).
Proof.
  intros Hf.
  induction n as [|n IH]; intros [|n'] body Hn; try lia;
    cbn [Parser.produceAST_loop];
    mono ltac:(first
      [ apply below_parseStatement; [done|by apply calls_below_level]
      | apply IH; lia ]).
Qed.

(** X26.  Fuel is a bound of the model only: more fuel never changes
    what [produceAST] gives, it only lets a run that stopped for want of
    fuel go on; and from twice the number of tokens and two more on the
    result is the same whatever the fuel. *)
Theorem produceAST_fuel tokens fuel fuel' :
  fuel ≤ fuel' →
  (Parser.produceAST tokens fuel = Parser.NoFuel
   ∨ Parser.produceAST tokens fuel = Parser.produceAST tokens fuel')
  ∧ (enough tokens 0 ≤ fuel →
     Parser.produceAST tokens fuel' = Parser.produceAST tokens fuel).
Proof.
  intros Hf.
  assert (Parser.produceAST tokens fuel = Parser.NoFuel
          ∨ Parser.produceAST tokens fuel = Parser.produceAST tokens fuel')
    as Hb.
  { unfold Parser.produceAST.
    apply (below_bind _ _ _ _ (below_produceAST_loop _ _ _ _ Hf _ _ Hf));
      intros; apply below_refl. }
  split; [done|]. intros He.
  destruct (produceAST_terminates _ _ He) as [Hn _].
  by destruct Hb.
Qed.

Lemma produceAST_fuel_witness :
  Parser.produceAST mutable_x_1 20 = Parser.produceAST mutable_x_1 16.
Proof.
  apply (produceAST_fuel mutable_x_1 16 20); [lia|]. vm_compute. lia.
Defined.
